(** * Release-note generator (changelog.js): model and properties

    The program fetches tickets from an issue tracker, has a language
    model summarise them in batches of [BATCH_SIZE], and prints a release
    note grouped by project.  The asynchronous code runs on one logical
    thread, so it is modelled as sequential code in a state-and-exception
    monad over a [World] that records what the program does to its
    surroundings: remote calls issued, back-off sleeps, console lines.  The
    one place where promises run side by side, the callbacks mapped over a
    batch and joined by Promise.all, is modelled callback by callback, the
    order in which their promises settle being the tracker's. *)

From Stdlib Require Import String Ascii List Arith ZArith NArith Lia Bool.
From Stdlib Require Import DecimalString Permutation.
Import ListNotations.
Local Open Scope string_scope.
Local Open Scope list_scope.
Set Warnings "-register-all".

(** ** JavaScript values the program handles *)

(** The "\n" of the source's string literals. *)
Definition nl : string := String (ascii_of_nat 10) EmptyString.

(** The value of a parsed JSON text.  The program never computes with a
    number, so a number is kept as the text JavaScript prints for it.  An
    object lists its own properties, each key once. *)
Inductive json : Type :=
| JNull
| JBool (b : bool)
| JNumber (printed : string)
| JString (s : string)
| JArray (elements : list json)
| JObject (properties : list (string * json)).

(** [Array.isArray]. *)
Definition Array_isArray (v : json) : bool :=
  match v with JArray _ => true | _ => false end.

(** The elements of an array value. *)
Definition elements_of (v : json) : list json :=
  match v with JArray elements => elements | _ => [] end.

(** The [code] property of a thrown value. *)
Inductive JsCode : Type :=
| CodeUndefined
| CodeNull
| CodeNumber (n : Z)
| CodeString (s : string).

(** Values the program throws or sees thrown. *)
Inductive Thrown : Type :=
| ClientError (code : JsCode) (message : string)  (* thrown by a remote client *)
| Error_ (message : string)                       (* new Error(message) *)
| SyntaxError                                     (* JSON.parse *)
| TypeError.                                      (* bad property read or call *)

Definition error_code (e : Thrown) : JsCode :=
  match e with
  | ClientError c _ => c
  | _ => CodeUndefined
  end.

(** [typeof c === 'string'] *)
Definition typeof_string (c : JsCode) : bool :=
  match c with CodeString _ => true | _ => false end.

(** [c === s] for a string literal [s]. *)
Definition code_is (c : JsCode) (s : string) : bool :=
  match c with CodeString s' => String.eqb s' s | _ => false end.

(** ** Tracker entities *)

(** What a promise of the tracker client settles to: the answer to a
    query, or to the lookup of a property of a ticket. *)
Inductive Reply (A : Type) : Type :=
| Resolved (nodes : A)
| Rejected (error : Thrown).
Arguments Resolved {A} nodes.
Arguments Rejected {A} error.

(** What the tracker client hands out.  The properties of a ticket that
    the client fetches when they are read (assignee, labels, project) are
    promises: the ticket holds what each of them settles to when the program
    awaits it. *)
Module Linear.

Record Project : Type := mkProject {
  id : string;
  name : string
}.

Record Ticket : Type := mkTicket {
  identifier : string;
  title : string;
  priorityLabel : string;
  estimate : option nat;
  assignee : Reply (option string);   (* await ticket.assignee: the name, when there is an assignee *)
  labels : Reply (list string);       (* await ticket.labels(): the names of the nodes *)
  project : Reply (option Project);   (* await ticket.project *)
  url : string;
  description : option string
}.

End Linear.

(** A summarised ticket as the prompt asks for it. *)
Record SummarizedTicket : Type := mkSummarized {
  identifier : string;
  url : string;
  summary : string;
  category : string;
  project : string
}.

(** ** The world around the program *)

(** One constructor per console.log / console.error call site. *)
Inductive ConsoleLine : Type :=
| Error_querying_OpenAI (error : Thrown)
| Retrying_in (seconds : Z)
| Error_parsing_response (error : Thrown)
| Found_active_projects (n : nat)
| Error_fetching_projects (error : Thrown)
| Found_tickets_in_project (n : nat) (projectName columnName : string)
| No_issues_in_project (projectName columnName : string)
| Error_fetching_issues (projectName columnName : string) (error : Thrown)
| Found_unprojected_tickets (n : nat) (columnName : string)
| No_unprojected_issues (columnName : string)
| Error_fetching_unprojected (columnName : string) (error : Thrown)
| Summarising_tickets (n : nat)
| Summarising_batch (n i j total : nat)
| Summarised_results
| Summarised_json (result : list json)
| Found_tickets_for_project (n : nat) (projectName : string)
| Final_release_note
| Release_note_text (text : string).

(** The properties of a ticket that are looked up when read. *)
Inductive Relation : Type :=
| The_assignee
| The_labels
| The_project.

(** What the program does to its surroundings, one event at a time. *)
Inductive Event : Type :=
| Created (n : nat) (user : string)  (* call number n of openai.chat.completions.create *)
| Slept (ms : Z)                     (* a setTimeout of ms milliseconds awaited *)
| Printed (line : ConsoleLine)       (* console.log or console.error *)
| Queried (n : nat)                  (* query number n of linearClient *)
| Awaited (identifier : string) (relation : Relation).
                                     (* ticket.assignee, ticket.labels() or
                                        ticket.project of the ticket read *)

Record World : Type := mkWorld {
  api_calls : nat;          (* openai.chat.completions.create calls issued *)
  tracker_calls : nat;      (* linearClient.projects and .issues queries issued *)
  summarise_entered : nat;  (* ghost: times summarise was entered *)
  trace : list Event        (* the events so far, oldest first *)
}.

Definition initial_world : World := mkWorld 0 0 0 [].

(** The world with more events. *)
Definition record (events : list Event) (w : World) : World :=
  mkWorld (api_calls w) (tracker_calls w) (summarise_entered w) (trace w ++ events).

(** The delays slept, in milliseconds, oldest first. *)
Definition sleeps_of (events : list Event) : list Z :=
  flat_map (fun event => match event with Slept ms => [ms] | _ => [] end) events.

Definition sleeps (w : World) : list Z := sleeps_of (trace w).

(** ** Sequential code with exceptions *)

Inductive Outcome (A : Type) : Type :=
| Return (a : A)
| Throw (e : Thrown)
| OutOfFuel.
Arguments Return {A} a.
Arguments Throw {A} e.
Arguments OutOfFuel {A}.

Definition M (A : Type) : Type := World -> Outcome A * World.

Definition ret {A} (a : A) : M A := fun w => (Return a, w).

Definition throw {A} (e : Thrown) : M A := fun w => (Throw e, w).

Definition out_of_fuel {A} : M A := fun w => (OutOfFuel, w).

Definition bind {A B} (m : M A) (k : A -> M B) : M B :=
  fun w =>
    match m w with
    | (Return a, w') => k a w'
    | (Throw e, w') => (Throw e, w')
    | (OutOfFuel, w') => (OutOfFuel, w')
    end.

(** try { body } catch (error) { handler error } *)
Definition try_catch {A} (body : M A) (handler : Thrown -> M A) : M A :=
  fun w =>
    match body w with
    | (Throw e, w') => handler e w'
    | r => r
    end.

Declare Scope js_scope.
Delimit Scope js_scope with js.
Notation "x <- m ;; k" := (bind m (fun x => k))
  (at level 61, m at next level, right associativity) : js_scope.
Notation "m ;; k" := (bind m (fun _ => k))
  (at level 61, right associativity) : js_scope.
Local Open Scope js_scope.

Definition console_log (l : ConsoleLine) : M unit :=
  fun w => (Return tt, record [Printed l] w).

(** await new Promise(resolve => setTimeout(resolve, ms)) *)
Definition sleep (ms : Z) : M unit :=
  fun w => (Return tt, record [Slept ms] w).

Definition enter_summarise : M unit :=
  fun w => (Return tt,
            mkWorld (api_calls w) (tracker_calls w) (S (summarise_entered w))
                    (trace w)).

(** ** Constants of the program *)

Definition BATCH_SIZE : nat := 15.
Definition LINEAR_TEAM : string := "Peach-technology".
Definition LINEAR_DONE_COLUMN : string := "Done".
Definition LINEAR_STAGING_COLUMN : string := "Staging".
Definition LINEAR_IN_REVIEW_COLUMN : string := "In Review".
Definition LINEAR_IN_PROGRESS_COLUMN : string := "In Progress".
Definition LINEAR_TODO_COLUMN : string := "To Do".
Definition maxRetries : nat := 5.

(** array.join(separator) on strings *)
Definition join (separator : string) (l : list string) : string :=
  String.concat separator l.

(** [isRateLimitError] *)
Definition isRateLimitError (error : Thrown) : bool :=
  typeof_string (error_code error).

(** The answer of the completion service to one call. *)
Inductive Completion : Type :=
| Completed (content : option string)   (* result.choices?.[0]?.message?.content *)
| Failed (error : Thrown).

(** [content || ""] *)
Definition content_or_empty (content : option string) : string :=
  match content with
  | Some s => s
  | None => ""
  end.

(** [!s] for a string *)
Definition is_empty (s : string) : bool :=
  match s with EmptyString => true | _ => false end.

Section Summariser.

(** The completion service: the answer to the call with the given number
    (counted from the first call of the run) and user message.  The system
    prompt, the model name and max_tokens are the same on every call. *)
Variable openai : nat -> string -> Completion.

(** [JSON.parse]: [None] when it throws. *)
Variable JSON_parse : string -> option json.

Definition create (user : string) : M (option string) :=
  fun w =>
    let w' := mkWorld (S (api_calls w)) (tracker_calls w) (summarise_entered w)
                      (trace w ++ [Created (api_calls w) user]) in
    match openai (api_calls w) user with
    | Completed content => (Return content, w')
    | Failed error => (Throw error, w')
    end.

Definition js_JSON_parse (text : string) : M json :=
  match JSON_parse text with
  | Some v => ret v
  | None => throw SyntaxError
  end.

(** The while loop of [summarise]; it leaves with the value of
    [returnedContent]. *)
Fixpoint retry_loop (fuel : nat) (tickets : list string) (attempt : nat)
         (returnedContent : string) : M string :=
  if (attempt <? maxRetries)%nat then
    match fuel with
    | O => out_of_fuel
    | S fuel' =>
        try_catch
          (content <- create (join (nl ++ "---" ++ nl) tickets) ;;
           ret (content_or_empty content))            (* break *)
          (fun error =>
             console_log (Error_querying_OpenAI error) ;;
             if isRateLimitError error
                && (code_is (error_code error) "insufficient_quota"
                    || code_is (error_code error) "rate_limit")
             then
               let waitTime := (2 ^ Z.of_nat attempt * 1000)%Z in
               console_log (Retrying_in (waitTime / 1000)) ;;
               sleep waitTime ;;
               retry_loop fuel' tickets (attempt + 1) returnedContent
             else throw error)
    end
  else ret returnedContent.

Definition summarise (tickets : list string) : M (list json) :=
  enter_summarise ;;
  returnedContent <- retry_loop maxRetries tickets 0 "" ;;
  if is_empty returnedContent then
    throw (Error_ "Failed to get a response from OpenAI API")
  else
    try_catch
      (parsedContent <- js_JSON_parse returnedContent ;;
       let parsedContent :=
         if negb (Array_isArray parsedContent) then JArray [parsedContent]
         else parsedContent in
       ret (elements_of parsedContent))
      (fun error =>
         console_log (Error_parsing_response error) ;;
         ret []).

End Summariser.

(** ** Fetching tickets *)

(** The filter of an issues query.  [of_project] is [Some id] for
    project: { id: { eq: id } } and [None] for project: { id: { null: true } }.
    The updatedAt bound is read off the clock at the time of the call and
    is left to the tracker's answer. *)
Record IssuesFilter : Type := mkFilter {
  team : string;
  of_project : option string;
  state : string;
  first : nat
}.

Section Fetcher.

(** The tracker: the answer to the query with the given number, counted
    over both kinds of query from the start of the run. *)
Variable linear_projects : nat -> Reply (list Linear.Project).
Variable linear_issues : nat -> IssuesFilter -> Reply (list Linear.Ticket).

Definition query {A} (answer : nat -> Reply A) : M A :=
  fun w =>
    let w' := mkWorld (api_calls w) (S (tracker_calls w)) (summarise_entered w)
                      (trace w ++ [Queried (tracker_calls w)]) in
    match answer (tracker_calls w) with
    | Resolved nodes => (Return nodes, w')
    | Rejected error => (Throw error, w')
    end.

Definition getAllProjects : M (list Linear.Project) :=
  let projects := [] in
  try_catch
    (allProjects <- query linear_projects ;;
     let projects := allProjects in
     console_log (Found_active_projects (length projects)) ;;
     ret projects)
    (fun error =>
       console_log (Error_fetching_projects error) ;;
       ret projects).

Definition getAllTicketsForProject (project : Linear.Project) (columnName : string)
  : M (list Linear.Ticket) :=
  let tickets := [] in
  try_catch
    (allIssues <- query (fun n => linear_issues n
                           (mkFilter LINEAR_TEAM (Some (Linear.id project))
                                     columnName 250)) ;;
     let totalTicketCount := length allIssues in
     if negb (totalTicketCount =? 0)%nat then
       console_log (Found_tickets_in_project totalTicketCount
                      (Linear.name project) columnName) ;;
       ret allIssues
     else
       console_log (No_issues_in_project (Linear.name project) columnName) ;;
       ret tickets)
    (fun error =>
       console_log (Error_fetching_issues (Linear.name project) columnName error) ;;
       ret tickets).

Definition getAllUnprojectedTickets (columnName : string) : M (list Linear.Ticket) :=
  let tickets := [] in
  try_catch
    (allIssues <- query (fun n => linear_issues n
                           (mkFilter LINEAR_TEAM None columnName 250)) ;;
     let totalTicketCount := length allIssues in
     if negb (totalTicketCount =? 0)%nat then
       console_log (Found_unprojected_tickets totalTicketCount columnName) ;;
       ret allIssues
     else
       console_log (No_unprojected_issues columnName) ;;
       ret tickets)
    (fun error =>
       console_log (Error_fetching_unprojected columnName error) ;;
       ret tickets).

End Fetcher.

(** ** The batch pipeline *)

(** `${n}` for a number that is a natural *)
Definition text_of_nat (n : nat) : string :=
  NilZero.string_of_uint (Nat.to_uint n).

(** `${v}` for a string that may be undefined *)
Definition text_of_optional (v : option string) : string :=
  match v with
  | Some s => s
  | None => "undefined"
  end.

(** array.slice(i, j) *)
Definition slice {A} (i j : nat) (l : list A) : list A :=
  firstn (j - i) (skipn i l).

(** The text of one ticket in the user message: the template the callback
    mapped over a batch returns, from what its three awaits gave. *)
Definition describe (ticket : Linear.Ticket) (assignee : option string)
           (labels : list string) (project : option Linear.Project) : string :=
  let projectLabel :=
    match project with
    | Some project => Linear.name project
    | None => if existsb (fun label => String.eqb label "bug") labels
              then "Bug" else "Enhancement"
    end in
  nl
  ++ "        - Ticket identifier: " ++ Linear.identifier ticket ++ nl
  ++ "        - Ticket title: " ++ Linear.title ticket ++ nl
  ++ "        - Ticket priority: " ++ Linear.priorityLabel ticket ++ nl
  ++ "        - Ticket estimate: "
  ++ match Linear.estimate ticket with
     | Some n => text_of_nat n
     | None => "undefined"
     end ++ nl
  ++ "        - Person responsible for the ticket: "
  ++ match assignee with Some name => name | None => "" end ++ nl
  ++ "        - Labels of the ticket: " ++ join ", " labels ++ nl
  ++ "        - Url of the ticket: " ++ Linear.url ticket ++ nl
  ++ "        - Ticket description: " ++ text_of_optional (Linear.description ticket) ++ nl
  ++ "        - Project: " ++ projectLabel ++ nl
  ++ "      ".

(** The async callback mapped over a batch, between two of its awaits:
    suspended at one of the three, with what the earlier ones gave, or
    returned with its text. *)
Inductive Callback : Type :=
| Awaiting_assignee (ticket : Linear.Ticket)
| Awaiting_labels (ticket : Linear.Ticket) (assignee : option string)
| Awaiting_project (ticket : Linear.Ticket) (assignee : option string)
                   (labels : list string)
| Returned (text : string).

(** The callback as map calls it: it reads ticket.assignee and is
    suspended at its first await. *)
Definition start (ticket : Linear.Ticket) : M Callback :=
  fun w => (Return (Awaiting_assignee ticket),
            record [Awaited (Linear.identifier ticket) The_assignee] w).

(** The callback resumed once the promise it awaits has settled: a
    rejection is thrown out of the callback, which catches nothing;
    otherwise it runs up to its next await, or returns its text. *)
Definition resume (callback : Callback) : M Callback :=
  match callback with
  | Awaiting_assignee ticket =>
      match Linear.assignee ticket with
      | Resolved assignee =>
          fun w => (Return (Awaiting_labels ticket assignee),
                    record [Awaited (Linear.identifier ticket) The_labels] w)
      | Rejected error => throw error
      end
  | Awaiting_labels ticket assignee =>
      match Linear.labels ticket with
      | Resolved labels =>
          fun w => (Return (Awaiting_project ticket assignee labels),
                    record [Awaited (Linear.identifier ticket) The_project] w)
      | Rejected error => throw error
      end
  | Awaiting_project ticket assignee labels =>
      match Linear.project ticket with
      | Resolved project => ret (Returned (describe ticket assignee labels project))
      | Rejected error => throw error
      end
  | Returned text => ret (Returned text)
  end.

(** The callback is at an await. *)
Definition is_suspended (callback : Callback) : bool :=
  match callback with
  | Returned _ => false
  | _ => true
  end.

(** The texts of the callbacks that have returned. *)
Definition texts_of (callbacks : list Callback) : list string :=
  flat_map (fun callback =>
              match callback with
              | Returned text => [text]
              | _ => []
              end) callbacks.

(** array.map(f) for a callback with effects *)
Fixpoint mapM {A B} (f : A -> M B) (l : list A) : M (list B) :=
  match l with
  | [] => ret []
  | a :: rest =>
      b <- f a ;;
      bs <- mapM f rest ;;
      ret (b :: bs)
  end.

(** The suspended callback number [n], counted among the suspended ones,
    resumed. *)
Fixpoint resume_nth (n : nat) (callbacks : list Callback) : M (list Callback) :=
  match callbacks with
  | [] => ret []
  | callback :: rest =>
      if is_suspended callback then
        match n with
        | O =>
            callback' <- resume callback ;;
            ret (callback' :: rest)
        | S n' =>
            rest' <- resume_nth n' rest ;;
            ret (callback :: rest')
        end
      else
        rest' <- resume_nth n rest ;;
        ret (callback :: rest')
  end.

Section Pipeline.

(** The order in which the awaited promises of a batch settle:
    [settles i step] tells, for the batch that starts at ticket [i], which of
    the callbacks then suspended is the next to have its promise settled,
    [step] promises of the batch having settled before. *)
Variable settles : nat -> nat -> nat.

Variable openai : nat -> string -> Completion.
Variable JSON_parse : string -> option json.

(** await Promise.all(batch), for the callbacks of the batch that starts at
    ticket [i]: the callbacks are resumed one at a time as their promises
    settle; the first rejection rejects the whole, and when all have
    returned the result is their texts, in the order of the batch. *)
Fixpoint Promise_all (fuel : nat) (i step : nat) (batch : list Callback)
  : M (list string) :=
  match length (filter is_suspended batch) with
  | O => ret (texts_of batch)
  | S _ as suspended =>
      match fuel with
      | O => out_of_fuel
      | S fuel' =>
          batch <- resume_nth (settles i step mod suspended) batch ;;
          Promise_all fuel' i (S step) batch
      end
  end.

(** The for loop of [summariseTickets], entered with the current values
    of [i] and [summarisedTickets]. *)
Fixpoint batch_loop (fuel : nat) (tickets : list Linear.Ticket) (i : nat)
         (summarisedTickets : list json) : M (list json) :=
  let totalTicketCount := length tickets in
  if (i <? totalTicketCount)%nat then
    match fuel with
    | O => out_of_fuel
    | S fuel' =>
        batch <- mapM start (slice i (i + BATCH_SIZE) tickets) ;;
        ticketBatch <- Promise_all (3 * length batch) i 0 batch ;;
        console_log (Summarising_batch (length ticketBatch) i (i + BATCH_SIZE)
                                       totalTicketCount) ;;
        summarisedTicketBatch <- summarise openai JSON_parse ticketBatch ;;
        console_log Summarised_results ;;
        console_log (Summarised_json summarisedTicketBatch) ;;
        batch_loop fuel' tickets (i + BATCH_SIZE)
                   (summarisedTickets ++ summarisedTicketBatch)
    end
  else ret summarisedTickets.

Definition summariseTickets (tickets : list Linear.Ticket) : M (list json) :=
  let totalTicketCount := length tickets in
  console_log (Summarising_tickets totalTicketCount) ;;
  batch_loop totalTicketCount tickets 0 [].

End Pipeline.

(** ** Plain objects used as maps *)

(** The property names every plain object inherits from Object.prototype. *)
Definition Object_prototype_names : list string :=
  [ "constructor"; "__defineGetter__"; "__defineSetter__"; "hasOwnProperty";
    "__lookupGetter__"; "__lookupSetter__"; "isPrototypeOf";
    "propertyIsEnumerable"; "toString"; "valueOf"; "__proto__";
    "toLocaleString" ].

Definition inherited (key : string) : bool :=
  existsb (String.eqb key) Object_prototype_names.

(** An object created by {}: its own properties in creation order. *)
Definition JsObject (V : Type) : Type := list (string * V).

(** What [o[key]] evaluates to. *)
Inductive Property (V : Type) : Type :=
| Own (v : V)     (* an own property *)
| Inherited       (* a member of Object.prototype: a function or an object *)
| Undefined.
Arguments Own {V} v.
Arguments Inherited {V}.
Arguments Undefined {V}.

Fixpoint get_own {V} (o : JsObject V) (key : string) : option V :=
  match o with
  | [] => None
  | (k, v) :: rest => if String.eqb k key then Some v else get_own rest key
  end.

(** [o[key]] *)
Definition get {V} (o : JsObject V) (key : string) : Property V :=
  match get_own o key with
  | Some v => Own v
  | None => if inherited key then Inherited else Undefined
  end.

(** [o[key] = v], for a key that is own or new. *)
Fixpoint set {V} (o : JsObject V) (key : string) (v : V) : JsObject V :=
  match o with
  | [] => [(key, v)]
  | (k, x) :: rest =>
      if String.eqb k key then (k, v) :: rest else (k, x) :: set rest key v
  end.

Definition digit (c : ascii) : option N :=
  let n := N_of_ascii c in
  if ((48 <=? n) && (n <=? 57))%N then Some (n - 48)%N else None.

Fixpoint decimal (s : string) (value : N) : option N :=
  match s with
  | EmptyString => Some value
  | String c rest =>
      match digit c with
      | Some d => decimal rest (10 * value + d)%N
      | None => None
      end
  end.

(** The number a key denotes when the key is an array index: a decimal
    numeral without sign or leading zero, below 2^32 - 1. *)
Definition array_index (key : string) : option N :=
  match key with
  | EmptyString => None
  | String c rest =>
      if Ascii.eqb c "0" && negb (is_empty rest) then None
      else match decimal key 0 with
           | Some n => if (n <? 4294967295)%N then Some n else None
           | None => None
           end
  end.

Fixpoint insert_index (entry : N * string) (sorted : list (N * string))
  : list (N * string) :=
  match sorted with
  | [] => [entry]
  | e :: rest =>
      if (fst entry <=? fst e)%N then entry :: sorted
      else e :: insert_index entry rest
  end.

Definition ascending (entries : list (N * string)) : list (N * string) :=
  fold_right insert_index [] entries.

Definition index_entries (keys : list string) : list (N * string) :=
  flat_map (fun key => match array_index key with
                       | Some n => [(n, key)]
                       | None => []
                       end) keys.

Definition is_index (key : string) : bool :=
  match array_index key with Some _ => true | None => false end.

(** [Object.keys(o)]: the array-index keys in ascending numeric order, then
    the other keys in creation order. *)
Definition Object_keys {V} (o : JsObject V) : list string :=
  let keys := map fst o in
  map snd (ascending (index_entries keys))
  ++ filter (fun key => negb (is_index key)) keys.

(** array.reduce(f, s), and forEach with an accumulated local variable *)
Fixpoint foldM {A S} (f : S -> A -> M S) (l : list A) (s : S) : M S :=
  match l with
  | [] => ret s
  | x :: rest => s' <- f s x ;; foldM f rest s'
  end.

(** ** The formatter *)

Section Formatter.

(** The tickets handed to the formatter, and the text a property of one
    reads as: [read ticket name] is the text of [ticket.name] where it is
    used as a key or in a template, [None] when reading or converting it
    throws a TypeError. *)
Variable T : Type.
Variable read : T -> string -> option string.

Definition property (ticket : T) (name : string) : M string :=
  match read ticket name with
  | Some text => ret text
  | None => throw TypeError
  end.

(** The callback of the reduce. *)
Definition group_ticket (group : JsObject (list T)) (ticket : T)
  : M (JsObject (list T)) :=
  projectName <- property ticket "project" ;;
  let group :=
    match get group projectName with
    | Undefined => set group projectName []
    | _ => group
    end in
  match get group projectName with
  | Own array => ret (set group projectName (array ++ [ticket]))   (* push *)
  | _ => throw TypeError                                          (* no push *)
  end.

(** One "[category] summary - [identifier](url)\n" appended. *)
Definition append_line (resultString : string) (ticket : T) : M string :=
  category <- property ticket "category" ;;
  summary <- property ticket "summary" ;;
  identifier <- property ticket "identifier" ;;
  url <- property ticket "url" ;;
  ret (resultString ++ "[" ++ category ++ "] " ++ summary ++ " - ["
                    ++ identifier ++ "](" ++ url ++ ")" ++ nl)%string.

(** The callback of the forEach over the keys, [resultString] passed
    along. *)
Definition render_project (groupedTickets : JsObject (list T))
           (resultString projectName : string) : M string :=
  let resultString := (resultString ++ "*" ++ projectName ++ "*:" ++ nl)%string in
  resultString <-
    match get groupedTickets projectName with
    | Own array => foldM append_line array resultString
    | Inherited => throw TypeError                  (* no forEach *)
    | Undefined => ret resultString
    end ;;
  console_log
    (Found_tickets_for_project
       match get groupedTickets projectName with
       | Own array => length array
       | _ => 0
       end projectName) ;;
  ret (resultString ++ nl)%string.

Definition formatReleaseNote (tickets : list T) : M string :=
  groupedTickets <- foldM group_ticket tickets [] ;;
  let resultString := "" in
  resultString <-
    foldM (render_project groupedTickets) (Object_keys groupedTickets) resultString ;;
  match get groupedTickets "Enhancement" with
  | Own array =>
      let resultString := (resultString ++ "*Enhancements*:" ++ nl)%string in
      resultString <- foldM append_line array resultString ;;
      ret (resultString ++ nl)%string
  | Inherited => throw TypeError
  | Undefined => ret resultString
  end.

End Formatter.

(** The properties of a summarised ticket; any other name reads undefined. *)
Definition field (ticket : SummarizedTicket) (name : string) : option string :=
  if String.eqb name "identifier" then Some (identifier ticket)
  else if String.eqb name "url" then Some (url ticket)
  else if String.eqb name "summary" then Some (summary ticket)
  else if String.eqb name "category" then Some (category ticket)
  else if String.eqb name "project" then Some (project ticket)
  else Some "undefined".

(** The text of a parsed value as a key or in a template.  An object with
    an own toString property has no text: the property is not callable. *)
Fixpoint to_text (v : json) : option string :=
  match v with
  | JNull => Some "null"
  | JBool true => Some "true"
  | JBool false => Some "false"
  | JNumber printed => Some printed
  | JString s => Some s
  | JArray elements =>
      (fix joined (l : list json) : option string :=
         match l with
         | [] => Some ""
         | e :: rest =>
             match (match e with JNull => Some "" | _ => to_text e end),
                   joined rest with
             | Some a, Some b =>
                 Some (match rest with [] => a | _ => a ++ "," ++ b end)%string
             | _, _ => None
             end
         end) elements
  | JObject properties =>
      match get_own properties "toString" with
      | Some _ => None
      | None => Some "[object Object]"
      end
  end.

(** Reading one of the five properties of an element of the model's
    answer; none of the five is a member of a prototype. *)
Definition read_json (v : json) (name : string) : option string :=
  match v with
  | JNull => None
  | JObject properties =>
      match get_own properties name with
      | Some x => to_text x
      | None => Some "undefined"
      end
  | _ => Some "undefined"
  end.

(** ** The whole run *)

Section Orchestrator.

Variable linear_projects : nat -> Reply (list Linear.Project).
Variable linear_issues : nat -> IssuesFilter -> Reply (list Linear.Ticket).
Variable settles : nat -> nat -> nat.
Variable openai : nat -> string -> Completion.
Variable JSON_parse : string -> option json.

(** The body of the loop over the projects. *)
Definition fetch_project (allTickets : list Linear.Ticket) (project : Linear.Project)
  : M (list Linear.Ticket) :=
  doneTickets <- getAllTicketsForProject linear_issues project LINEAR_DONE_COLUMN ;;
  stagingTickets <- getAllTicketsForProject linear_issues project LINEAR_STAGING_COLUMN ;;
  inReviewTickets <- getAllTicketsForProject linear_issues project LINEAR_IN_REVIEW_COLUMN ;;
  inProgressTickets <- getAllTicketsForProject linear_issues project LINEAR_IN_PROGRESS_COLUMN ;;
  todoTickets <- getAllTicketsForProject linear_issues project LINEAR_TODO_COLUMN ;;
  ret (allTickets ++ doneTickets ++ stagingTickets ++ inReviewTickets
                  ++ inProgressTickets ++ todoTickets).

(** [generateReleaseNote] up to the call of [summariseTickets]. *)
Definition fetchAllTickets : M (list Linear.Ticket) :=
  projects <- getAllProjects linear_projects ;;
  let allTickets := [] in
  allTickets <- foldM fetch_project projects allTickets ;;
  unprojectedDoneTickets <- getAllUnprojectedTickets linear_issues LINEAR_DONE_COLUMN ;;
  unprojectedStagingTickets <- getAllUnprojectedTickets linear_issues LINEAR_STAGING_COLUMN ;;
  unprojectedInReviewTickets <- getAllUnprojectedTickets linear_issues LINEAR_IN_REVIEW_COLUMN ;;
  unprojectedInProgressTickets <- getAllUnprojectedTickets linear_issues LINEAR_IN_PROGRESS_COLUMN ;;
  unprojectedTodoTickets <- getAllUnprojectedTickets linear_issues LINEAR_TODO_COLUMN ;;
  ret (allTickets ++ unprojectedDoneTickets ++ unprojectedStagingTickets
                  ++ unprojectedInReviewTickets ++ unprojectedInProgressTickets
                  ++ unprojectedTodoTickets).

Definition generateReleaseNote : M unit :=
  allTickets <- fetchAllTickets ;;
  summarisedTickets <- summariseTickets settles openai JSON_parse allTickets ;;
  releaseNote <- formatReleaseNote json read_json summarisedTickets ;;
  console_log Final_release_note ;;
  console_log (Release_note_text releaseNote).

End Orchestrator.

(** ** Vocabulary of the properties *)

(** A rate-limit or quota condition: [error.code] is one of the two
    strings. *)
Definition recoverable (error : Thrown) : bool :=
  code_is (error_code error) "insufficient_quota"
  || code_is (error_code error) "rate_limit".

(** The wait after the failure of attempt [k], in milliseconds. *)
Definition backoff_ms (k : nat) : Z := (2 ^ Z.of_nat k * 1000)%Z.

(** ceil(n / b) *)
Definition div_ceil (n b : nat) : nat := (n + (b - 1)) / b.

(** The separator of the user message. *)
Definition separator : string := nl ++ "---" ++ nl.

(** The first [length errors] calls from call [from] on fail with
    [errors], in this order. *)
Fixpoint fails_with (openai : nat -> string -> Completion) (user : string)
         (from : nat) (errors : list Thrown) : Prop :=
  match errors with
  | [] => True
  | error :: rest =>
      openai from user = Failed error /\ fails_with openai user (S from) rest
  end.

(** The world after one more call of the completion service. *)
Definition called (user : string) (w : World) : World :=
  mkWorld (S (api_calls w)) (tracker_calls w) (summarise_entered w)
          (trace w ++ [Created (api_calls w) user]).

(** The events of one failed attempt that is retried: the call, the two
    lines, the sleep. *)
Definition retry_events (n : nat) (user : string) (error : Thrown) (attempt : nat)
  : list Event :=
  [ Created n user;
    Printed (Error_querying_OpenAI error);
    Printed (Retrying_in (2 ^ Z.of_nat attempt));
    Slept (backoff_ms attempt) ].

(** The world after one failed attempt that is retried. *)
Definition one_retry (user : string) (error : Thrown) (attempt : nat) (w : World)
  : World :=
  mkWorld (S (api_calls w)) (tracker_calls w) (summarise_entered w)
          (trace w ++ retry_events (api_calls w) user error attempt).

Fixpoint retried (user : string) (errors : list Thrown) (attempt : nat) (w : World)
  : World :=
  match errors with
  | [] => w
  | error :: rest => retried user rest (S attempt) (one_retry user error attempt w)
  end.

Definition entered (w : World) : World :=
  mkWorld (api_calls w) (tracker_calls w) (S (summarise_entered w)) (trace w).

Definition logged (lines : list ConsoleLine) (w : World) : World :=
  record (map Printed lines) w.

(** What [summarise] makes of a non-empty answer. *)
Definition parsed_tickets (JSON_parse : string -> option json) (text : string)
  : list json :=
  match JSON_parse text with
  | None => []
  | Some (JArray elements) => elements
  | Some v => [v]
  end.

(** The tickets a query contributes to the run. *)
Definition fetched {A} (reply : Reply (list A)) : list A :=
  match reply with
  | Resolved nodes => nodes
  | Rejected _ => []
  end.

(** The tickets of five successive queries, one per column, the first of
    them being query [n]. *)
Definition fetched_columns (linear_issues : nat -> IssuesFilter -> Reply (list Linear.Ticket))
           (n : nat) (of_project : option string) : list Linear.Ticket :=
  fetched (linear_issues n (mkFilter LINEAR_TEAM of_project LINEAR_DONE_COLUMN 250))
  ++ fetched (linear_issues (n + 1) (mkFilter LINEAR_TEAM of_project LINEAR_STAGING_COLUMN 250))
  ++ fetched (linear_issues (n + 2) (mkFilter LINEAR_TEAM of_project LINEAR_IN_REVIEW_COLUMN 250))
  ++ fetched (linear_issues (n + 3) (mkFilter LINEAR_TEAM of_project LINEAR_IN_PROGRESS_COLUMN 250))
  ++ fetched (linear_issues (n + 4) (mkFilter LINEAR_TEAM of_project LINEAR_TODO_COLUMN 250)).

Fixpoint fetched_projects (linear_issues : nat -> IssuesFilter -> Reply (list Linear.Ticket))
         (n : nat) (projects : list Linear.Project) : list Linear.Ticket :=
  match projects with
  | [] => []
  | project :: rest =>
      fetched_columns linear_issues n (Some (Linear.id project))
      ++ fetched_projects linear_issues (n + 5) rest
  end.

(** All tickets of a run whose first query is query [n]. *)
Definition all_fetched (linear_projects : nat -> Reply (list Linear.Project))
           (linear_issues : nat -> IssuesFilter -> Reply (list Linear.Ticket))
           (n : nat) : list Linear.Ticket :=
  let projects := fetched (linear_projects n) in
  fetched_projects linear_issues (S n) projects
  ++ fetched_columns linear_issues (S n + 5 * length projects) None.

(** *** The release note, as the specification words it *)

Definition render_line (ticket : SummarizedTicket) : string :=
  "[" ++ category ticket ++ "] " ++ summary ticket ++ " - ["
      ++ identifier ticket ++ "](" ++ url ticket ++ ")" ++ nl.

Definition render_lines (tickets : list SummarizedTicket) : string :=
  String.concat "" (map render_line tickets).

Definition render_group (name : string) (tickets : list SummarizedTicket) : string :=
  "*" ++ name ++ "*:" ++ nl ++ render_lines tickets ++ nl.

(** The tickets of a project, in input order. *)
Definition tickets_of (name : string) (tickets : list SummarizedTicket)
  : list SummarizedTicket :=
  filter (fun ticket => String.eqb (project ticket) name) tickets.

(** The distinct names of a list, each at its first occurrence. *)
Fixpoint first_seen (names : list string) : list string :=
  match names with
  | [] => []
  | name :: rest =>
      name :: filter (fun other => negb (String.eqb other name)) (first_seen rest)
  end.

(** The order in which [Object.keys] lists keys created in the order
    [names]. *)
Definition key_order (names : list string) : list string :=
  map snd (ascending (index_entries names))
  ++ filter (fun key => negb (is_index key)) names.

Definition render_groups (names : list string) (tickets : list SummarizedTicket)
  : string :=
  String.concat "" (map (fun name => render_group name (tickets_of name tickets)) names).

(** The second rendering of the group named "Enhancement". *)
Definition enhancements_again (tickets : list SummarizedTicket) : string :=
  if existsb (fun ticket => String.eqb (project ticket) "Enhancement") tickets
  then "*Enhancements*:" ++ nl
       ++ render_lines (tickets_of "Enhancement" tickets) ++ nl
  else "".

(** The note with the groups in the order of [Object.keys]. *)
Definition release_note (tickets : list SummarizedTicket) : string :=
  render_groups (key_order (first_seen (map project tickets))) tickets
  ++ enhancements_again tickets.

(** The note with the groups in first-seen order. *)
Definition first_seen_note (tickets : list SummarizedTicket) : string :=
  render_groups (first_seen (map project tickets)) tickets
  ++ enhancements_again tickets.

Definition no_inherited_name (tickets : list SummarizedTicket) : bool :=
  forallb (fun ticket => negb (inherited (project ticket))) tickets.

Definition found_lines (names : list string) (tickets : list SummarizedTicket)
  : list ConsoleLine :=
  map (fun name => Found_tickets_for_project (length (tickets_of name tickets)) name)
      names.

(** The world after [summarise] has parsed, or failed to parse, [text]. *)
Definition after_parse (JSON_parse : string -> option json) (text : string)
           (w : World) : World :=
  match JSON_parse text with
  | Some _ => w
  | None => logged [Error_parsing_response SyntaxError] w
  end.

Definition terminal_error : Thrown :=
  Error_ "Failed to get a response from OpenAI API".

(** The answer to call [n] settles the loop: it is no failure that is
    retried. *)
Definition decisive (openai : nat -> string -> Completion) (user : string)
           (n : nat) : Prop :=
  match openai n user with
  | Completed _ => True
  | Failed error => recoverable error = false
  end.

(** What the callback mapped over a batch settles to for a ticket: its
    text, or the first rejection among its three awaits. *)
Definition settled (ticket : Linear.Ticket) : Reply string :=
  match Linear.assignee ticket with
  | Rejected error => Rejected error
  | Resolved assignee =>
      match Linear.labels ticket with
      | Rejected error => Rejected error
      | Resolved labels =>
          match Linear.project ticket with
          | Rejected error => Rejected error
          | Resolved project => Resolved (describe ticket assignee labels project)
          end
      end
  end.

(** Every lookup of the tickets is fulfilled, and [texts] are the texts of
    their callbacks. *)
Definition fulfilled (tickets : list Linear.Ticket) (texts : list string) : Prop :=
  map settled tickets = map Resolved texts.

(** A lookup of one of the tickets rejects with [error]. *)
Definition lookup_rejects (tickets : list Linear.Ticket) (error : Thrown) : Prop :=
  In (Rejected error) (map settled tickets).

(** The tickets of the batch that starts at ticket [i]. *)
Definition batch_of {A} (tickets : list A) (i : nat) : list A :=
  slice i (i + BATCH_SIZE) tickets.

(** What a callback settles to from where it is. *)
Definition outcome (callback : Callback) : Reply string :=
  match callback with
  | Awaiting_assignee ticket => settled ticket
  | Awaiting_labels ticket assignee =>
      match Linear.labels ticket with
      | Rejected error => Rejected error
      | Resolved labels =>
          match Linear.project ticket with
          | Rejected error => Rejected error
          | Resolved project => Resolved (describe ticket assignee labels project)
          end
      end
  | Awaiting_project ticket assignee labels =>
      match Linear.project ticket with
      | Rejected error => Rejected error
      | Resolved project => Resolved (describe ticket assignee labels project)
      end
  | Returned text => Resolved text
  end.

(** The awaits a callback has before it. *)
Definition awaits_left (callback : Callback) : nat :=
  match callback with
  | Awaiting_assignee _ => 3
  | Awaiting_labels _ _ => 2
  | Awaiting_project _ _ _ => 1
  | Returned _ => 0
  end.

Definition remaining (batch : list Callback) : nat :=
  list_sum (map awaits_left batch).

(** An event of a lookup. *)
Definition lookup_event (event : Event) : bool :=
  match event with
  | Awaited _ _ => true
  | _ => false
  end.

(** A computation that, besides returning or throwing, only looks up
    properties of tickets. *)
Definition looks_up {A} (m : M A) : Prop :=
  forall w,
  exists events,
    snd (m w) = record events w
    /\ forallb lookup_event events = true.

(** A computation that, besides returning or throwing, only prints. *)
Definition only_prints {A} (m : M A) : Prop :=
  forall w, exists lines, snd (m w) = logged lines w.

(** The two statements of the loop that make the texts of a batch: the map
    of the callback and the await of Promise.all. *)
Definition awaited_texts (settles : nat -> nat -> nat) (i : nat)
           (tickets : list Linear.Ticket) : M (list string) :=
  batch <- mapM start tickets ;;
  Promise_all settles (3 * length batch) i 0 batch.

(** The reduce of the formatter, one ticket, when nothing is thrown. *)
Definition push (group : JsObject (list SummarizedTicket)) (ticket : SummarizedTicket)
  : JsObject (list SummarizedTicket) :=
  match get_own group (project ticket) with
  | Some array => set group (project ticket) (array ++ [ticket])
  | None => set group (project ticket) [ticket]
  end.

(** The object the reduce builds: a property for each project, in
    first-seen order, holding the project's tickets in input order. *)
Definition grouped (tickets : list SummarizedTicket) : JsObject (list SummarizedTicket) :=
  map (fun name => (name, tickets_of name tickets)) (first_seen (map project tickets)).

(** The world after one more query of the tracker. *)
Definition tracked (w : World) : World :=
  mkWorld (api_calls w) (S (tracker_calls w)) (summarise_entered w)
          (trace w ++ [Queried (tracker_calls w)]).

(** The console line of a fetch for a project. *)
Definition project_fetch_line (project : Linear.Project) (columnName : string)
           (reply : Reply (list Linear.Ticket)) : ConsoleLine :=
  match reply with
  | Resolved [] => No_issues_in_project (Linear.name project) columnName
  | Resolved nodes =>
      Found_tickets_in_project (length nodes) (Linear.name project) columnName
  | Rejected error => Error_fetching_issues (Linear.name project) columnName error
  end.

(** The console line of a fetch for tickets without project. *)
Definition unprojected_fetch_line (columnName : string)
           (reply : Reply (list Linear.Ticket)) : ConsoleLine :=
  match reply with
  | Resolved [] => No_unprojected_issues columnName
  | Resolved nodes => Found_unprojected_tickets (length nodes) columnName
  | Rejected error => Error_fetching_unprojected columnName error
  end.

(** The events of the failed attempts that are retried, the first of them
    being call [n] and attempt [attempt]. *)
Fixpoint retries_events (n : nat) (user : string) (errors : list Thrown)
         (attempt : nat) : list Event :=
  match errors with
  | [] => []
  | error :: rest =>
      retry_events n user error attempt
      ++ retries_events (S n) user rest (S attempt)
  end.

(** The console line of the listing of the projects. *)
Definition projects_line (reply : Reply (list Linear.Project)) : ConsoleLine :=
  match reply with
  | Resolved nodes => Found_active_projects (length nodes)
  | Rejected error => Error_fetching_projects error
  end.

(** An event of fetching: a query of the tracker or a printed line. *)
Definition fetch_event (event : Event) : bool :=
  match event with
  | Queried _ | Printed _ => true
  | _ => false
  end.

(** The world after [k] more queries of the tracker and the events that go
    with them. *)
Definition fetched_world (w : World) (k : nat) (events : list Event) : World :=
  mkWorld (api_calls w) (k + tracker_calls w) (summarise_entered w)
          (trace w ++ events).

(** A computation that returns after [k] queries of the tracker, having
    done nothing but query and print. *)
Definition fetches {A} (k : nat) (m : M A) : Prop :=
  forall w,
  exists x events,
    m w = (Return x, fetched_world w k events)
    /\ forallb fetch_event events = true.

(** The sum of the waits, in milliseconds. *)
Definition total_wait (waits : list Z) : Z := fold_right Z.add 0%Z waits.

(** A summarised ticket as the object the prompt asks for. *)
Definition to_json (ticket : SummarizedTicket) : json :=
  JObject [ ("identifier", JString (identifier ticket));
            ("url", JString (url ticket));
            ("summary", JString (summary ticket));
            ("category", JString (category ticket));
            ("project", JString (project ticket)) ].

(** A value that has no text as a key or in a template: an object with an
    own toString property, or an array that holds such a value. *)
Fixpoint without_text (v : json) : bool :=
  match v with
  | JArray elements => existsb without_text elements
  | JObject properties =>
      match get_own properties "toString" with
      | Some _ => true
      | None => false
      end
  | _ => false
  end.

(** An element whose project cannot be read: null, or an object whose
    project is a value without text. *)
Definition unreadable_project (v : json) : bool :=
  match v with
  | JNull => true
  | JObject properties =>
      match get_own properties "project" with
      | Some value => without_text value
      | None => false
      end
  | _ => false
  end.

(** The names of the properties the formatter reads. *)
Definition read_names : list string :=
  ["identifier"; "url"; "summary"; "category"; "project"].

(** An element whose five properties can all be read: it is not null, and
    each of the five is missing or has a text. *)
Definition readable (v : json) : bool :=
  forallb (fun name =>
             match read_json v name with
             | Some _ => true
             | None => false
             end) read_names.

(** The text a property of an element reads as. *)
Definition text_of (v : json) (name : string) : string :=
  match read_json v name with
  | Some text => text
  | None => ""
  end.

(** The summarised ticket an element is read as. *)
Definition summarised (v : json) : SummarizedTicket :=
  mkSummarized (text_of v "identifier") (text_of v "url") (text_of v "summary")
               (text_of v "category") (text_of v "project").

(** A reader asked for the five names only; any other name reads
    undefined. *)
Definition five_only {T} (read : T -> string -> option string)
  : T -> string -> option string :=
  fun ticket name =>
    if existsb (String.eqb name) read_names then read ticket name
    else Some "undefined".

(** The object with every array mapped. *)
Definition map_values {A B} (f : A -> B) (o : JsObject (list A)) : JsObject (list B) :=
  map (fun entry => (fst entry, map f (snd entry))) o.

(** The result with the value mapped. *)
Definition map_result {X Y} (h : X -> Y) (r : Outcome X * World) : Outcome Y * World :=
  match r with
  | (Return x, w) => (Return (h x), w)
  | (Throw e, w) => (Throw e, w)
  | (OutOfFuel, w) => (OutOfFuel, w)
  end.

(** The user messages sent to the completion service, oldest first. *)
Definition sent_of (events : list Event) : list string :=
  flat_map (fun event => match event with Created _ user => [user] | _ => [] end)
           events.

(** ** Sample inputs *)

Definition rate_limited : Thrown :=
  ClientError (CodeString "rate_limit") "Rate limit reached".

Definition invalid_key : Thrown :=
  ClientError (CodeString "invalid_api_key") "Incorrect API key provided".

(** A service that is rate-limited on every call. *)
Definition always_rate_limited : nat -> string -> Completion :=
  fun _ _ => Failed rate_limited.

(** A service that refuses the key on every call. *)
Definition always_refusing : nat -> string -> Completion :=
  fun _ _ => Failed invalid_key.

(** A service that answers every call with the same text. *)
Definition answering (text : string) : nat -> string -> Completion :=
  fun _ _ => Completed (Some text).

(** A service that completes every call without content. *)
Definition answering_nothing : nat -> string -> Completion :=
  fun _ _ => Completed None.

(** A service that is rate-limited on its first call and answers after. *)
Definition rate_limited_once : nat -> string -> Completion :=
  fun n _ =>
    match n with
    | 0 => Failed rate_limited
    | _ => Completed (Some "[{}]")
    end.


(** [JSON.parse] on the texts the sample services answer with. *)
Definition parse_sample (text : string) : option json :=
  if String.eqb text "[]" then Some (JArray [])
  else if String.eqb text "{}" then Some (JObject [])
  else if String.eqb text "[{}]" then Some (JArray [JObject []])
  else None.

(** A ticket without assignee or project, whose lookups are fulfilled. *)
Definition sample_ticket (n : nat) : Linear.Ticket :=
  Linear.mkTicket ("E-" ++ text_of_nat n) "Update the database" "High" (Some 3)
                  (Resolved None) (Resolved ["bug"]) (Resolved None)
                  ("https://x/E-" ++ text_of_nat n) None.

(** The text of the callback for that ticket. *)
Definition sample_text (n : nat) : string :=
  describe (sample_ticket n) None ["bug"] None.

(** A ticket whose labels cannot be fetched. *)
Definition unreachable_ticket (n : nat) : Linear.Ticket :=
  Linear.mkTicket ("E-" ++ text_of_nat n) "Update the database" "High" (Some 3)
                  (Resolved None)
                  (Rejected (ClientError CodeUndefined "socket hang up"))
                  (Resolved None)
                  ("https://x/E-" ++ text_of_nat n) None.

(** The promises of a batch settle callback after callback, in the order
    of the batch. *)
Definition in_turn : nat -> nat -> nat := fun _ _ => 0.

(** In a full batch the promises settle round after round, the last
    callback first. *)
Definition last_first : nat -> nat -> nat := fun _ step => 14 - step mod 15.

Definition sixteen_tickets : list Linear.Ticket := map sample_ticket (seq 1 16).


Definition api_ticket : SummarizedTicket :=
  mkSummarized "E-1" "https://x/E-1" "Update DB" "DB" "API".


Definition website_ticket : SummarizedTicket :=
  mkSummarized "E-3" "https://x/E-3" "Fix the footer" "Layout" "Website".

(** A ticket of a project named by a year, which is an array index. *)
Definition roadmap_ticket : SummarizedTicket :=
  mkSummarized "E-4" "https://x/E-4" "Plan the year" "Planning" "2024".


Definition sample_project : Linear.Project := Linear.mkProject "p-1" "API".

(** A tracker with one project whose query for the Done column fails. *)
Definition tracker_projects : nat -> Reply (list Linear.Project) :=
  fun _ => Resolved [sample_project].

Definition tracker_issues : nat -> IssuesFilter -> Reply (list Linear.Ticket) :=
  fun n filter =>
    match of_project filter with
    | Some _ =>
        if String.eqb (state filter) LINEAR_DONE_COLUMN
        then Rejected (ClientError CodeUndefined "socket hang up")
        else if String.eqb (state filter) LINEAR_STAGING_COLUMN
             then Resolved [sample_ticket 1; sample_ticket 2]
             else Resolved []
    | None =>
        if String.eqb (state filter) LINEAR_TODO_COLUMN
        then Resolved [sample_ticket 3]
        else Resolved []
    end.

(** A tracker whose listing of the projects fails, with one ticket
    without project in the Done column. *)
Definition listing_fails : nat -> Reply (list Linear.Project) :=
  fun _ => Rejected (ClientError CodeUndefined "socket hang up").

Definition unprojected_issues : nat -> IssuesFilter -> Reply (list Linear.Ticket) :=
  fun n filter =>
    match of_project filter with
    | Some _ => Resolved [sample_ticket 9]
    | None =>
        if String.eqb (state filter) LINEAR_DONE_COLUMN
        then Resolved [sample_ticket 4]
        else Resolved []
    end.

(** A tracker with one project and no ticket anywhere. *)
Definition no_issues : nat -> IssuesFilter -> Reply (list Linear.Ticket) :=
  fun _ _ => Resolved [].

(** The ticket E-1 of project API as an object with its keys in another
    order, a key more, and a number as summary. *)
Definition shuffled_ticket : json :=
  JObject [ ("project", JString "API");
            ("priority", JNull);
            ("category", JString "DB");
            ("summary", JNumber "42");
            ("url", JString "https://x/E-1");
            ("identifier", JString "E-1") ].

(** An element whose project is an object with a toString property. *)
Definition opaque_project_ticket : json :=
  JObject [ ("identifier", JString "E-6");
            ("project", JObject [("toString", JString "API")]) ].

(** The double quote of JSON texts. *)
Definition quote : string := String (ascii_of_nat 34) EmptyString.

(** The JSON text of the array that holds the ticket E-1 of project API. *)
Definition api_ticket_text : string :=
  "[{" ++ quote ++ "identifier" ++ quote ++ ":" ++ quote ++ "E-1" ++ quote ++ ","
       ++ quote ++ "url" ++ quote ++ ":" ++ quote ++ "https://x/E-1" ++ quote ++ ","
       ++ quote ++ "summary" ++ quote ++ ":" ++ quote ++ "Update DB" ++ quote ++ ","
       ++ quote ++ "category" ++ quote ++ ":" ++ quote ++ "DB" ++ quote ++ ","
       ++ quote ++ "project" ++ quote ++ ":" ++ quote ++ "API" ++ quote ++ "}]".

(** [JSON.parse] on that text and on the texts of [parse_sample]. *)
Definition parse_api_ticket (text : string) : option json :=
  if String.eqb text api_ticket_text then Some (JArray [to_json api_ticket])
  else parse_sample text.

(** ** Strings and lists *)

Lemma append_assoc (a b c : string) : ((a ++ b) ++ c = a ++ (b ++ c))%string.
Proof.
  induction a as [| x a IH]; simpl; [reflexivity | now rewrite IH].
Qed.

Lemma append_empty_r (a : string) : (a ++ "")%string = a.
Proof.
  induction a as [| x a IH]; simpl; [reflexivity | now rewrite IH].
Qed.

Lemma concat_empty_cons (s : string) (l : list string) :
  String.concat "" (s :: l) = (s ++ String.concat "" l)%string.
Proof.
  destruct l as [| t l]; simpl; [now rewrite append_empty_r | reflexivity].
Qed.

Lemma concat_empty_app (l l' : list string) :
  String.concat "" (l ++ l') = (String.concat "" l ++ String.concat "" l')%string.
Proof.
  induction l as [| s l IH].
  - reflexivity.
  - rewrite <- app_comm_cons, !concat_empty_cons, IH, append_assoc. reflexivity.
Qed.

Lemma is_empty_true (s : string) : is_empty s = true <-> s = "".
Proof.
  destruct s; simpl; split; intro H; try reflexivity; discriminate.
Qed.

Lemma is_empty_false (s : string) : is_empty s = false <-> s <> "".
Proof.
  destruct s; simpl; split; intro H; congruence.
Qed.

(** ** The retry loop *)

Section RetryLoop.

Variable openai : nat -> string -> Completion.
Variable JSON_parse : string -> option json.

(** The test of the catch block is the test for the two codes. *)
Lemma retry_test (error : Thrown) :
  isRateLimitError error
  && (code_is (error_code error) "insufficient_quota"
      || code_is (error_code error) "rate_limit")
  = recoverable error.
Proof.
  unfold isRateLimitError, recoverable.
  destruct (error_code error); reflexivity.
Qed.

(** One turn of the loop. *)
Lemma retry_loop_step fuel tickets attempt returnedContent w :
  retry_loop openai (S fuel) tickets attempt returnedContent w
  = let user := join separator tickets in
    if (attempt <? maxRetries)%nat then
      match openai (api_calls w) user with
      | Completed content => (Return (content_or_empty content), called user w)
      | Failed error =>
          if recoverable error
          then retry_loop openai fuel tickets (S attempt) returnedContent
                          (one_retry user error attempt w)
          else (Throw error, logged [Error_querying_OpenAI error] (called user w))
      end
    else (Return returnedContent, w).
Proof.
  cbn [retry_loop]. cbv zeta.
  destruct (attempt <? maxRetries)%nat; [| reflexivity].
  unfold try_catch at 1. unfold bind at 1. unfold create.
  change (join (nl ++ "---" ++ nl) tickets) with (join separator tickets).
  destruct (openai (api_calls w) (join separator tickets)) as [content | error].
  - reflexivity.
  - cbv beta iota.
    unfold bind at 1. unfold console_log at 1. cbv beta iota.
    rewrite retry_test. destruct (recoverable error); [| reflexivity].
    unfold bind at 1. unfold console_log at 1. cbv beta iota.
    unfold bind at 1. unfold sleep at 1. cbv beta iota.
    replace (attempt + 1) with (S attempt) by lia.
    unfold one_retry, retry_events, backoff_ms, record.
    cbn [api_calls tracker_calls summarise_entered trace].
    rewrite <- !app_assoc. cbn [app].
    replace (2 ^ Z.of_nat attempt * 1000 / 1000)%Z with (2 ^ Z.of_nat attempt)%Z
      by (symmetry; apply Z.div_mul; lia).
    reflexivity.
Qed.

Lemma retry_loop_exhausted fuel tickets attempt returnedContent w :
  maxRetries <= attempt ->
  retry_loop openai fuel tickets attempt returnedContent w = (Return returnedContent, w).
Proof.
  intro H. destruct fuel; cbn [retry_loop];
    (destruct (Nat.ltb_spec attempt maxRetries); [lia | reflexivity]).
Qed.

Lemma retry_loop_completed fuel tickets attempt returnedContent w content :
  attempt < maxRetries ->
  openai (api_calls w) (join separator tickets) = Completed content ->
  retry_loop openai (S fuel) tickets attempt returnedContent w
  = (Return (content_or_empty content), called (join separator tickets) w).
Proof.
  intros Hlt Hanswer. rewrite retry_loop_step. cbv zeta. rewrite Hanswer.
  destruct (Nat.ltb_spec attempt maxRetries); [reflexivity | lia].
Qed.

Lemma retry_loop_rethrown fuel tickets attempt returnedContent w error :
  attempt < maxRetries ->
  openai (api_calls w) (join separator tickets) = Failed error ->
  recoverable error = false ->
  retry_loop openai (S fuel) tickets attempt returnedContent w
  = (Throw error,
     logged [Error_querying_OpenAI error] (called (join separator tickets) w)).
Proof.
  intros Hlt Hanswer Hno. rewrite retry_loop_step. cbv zeta. rewrite Hanswer, Hno.
  destruct (Nat.ltb_spec attempt maxRetries); [reflexivity | lia].
Qed.

Lemma retry_loop_retried fuel tickets attempt returnedContent w error :
  attempt < maxRetries ->
  openai (api_calls w) (join separator tickets) = Failed error ->
  recoverable error = true ->
  retry_loop openai (S fuel) tickets attempt returnedContent w
  = retry_loop openai fuel tickets (S attempt) returnedContent
               (one_retry (join separator tickets) error attempt w).
Proof.
  intros Hlt Hanswer Hyes. rewrite retry_loop_step. cbv zeta. rewrite Hanswer, Hyes.
  destruct (Nat.ltb_spec attempt maxRetries); [reflexivity | lia].
Qed.

Lemma retry_loop_failures errors :
  forall fuel tickets attempt returnedContent w,
    attempt + length errors <= maxRetries ->
    Forall (fun error => recoverable error = true) errors ->
    fails_with openai (join separator tickets) (api_calls w) errors ->
    retry_loop openai (length errors + fuel) tickets attempt returnedContent w
    = retry_loop openai fuel tickets (attempt + length errors) returnedContent
                 (retried (join separator tickets) errors attempt w).
Proof.
  induction errors as [| error errors IH];
    intros fuel tickets attempt returnedContent w Hle Hrec Hfails.
  - cbn [length retried]. now rewrite Nat.add_0_r.
  - cbn [length] in *. destruct Hfails as [Hfirst Hrest].
    inversion Hrec as [| ? ? Hyes Hrec']; subst.
    cbn [Nat.add]. rewrite (retry_loop_retried _ _ _ _ _ error); [| lia | assumption | assumption].
    cbn [retried]. rewrite IH; [| lia | assumption | exact Hrest].
    f_equal. lia.
Qed.

Lemma retried_api_calls user errors : forall attempt w,
    api_calls (retried user errors attempt w) = api_calls w + length errors.
Proof.
  induction errors as [| e errors IH]; intros attempt w; cbn [retried length].
  - lia.
  - rewrite IH. cbn. lia.
Qed.

Lemma retried_trace user errors : forall attempt w,
    trace (retried user errors attempt w)
    = trace w ++ retries_events (api_calls w) user errors attempt.
Proof.
  induction errors as [| e errors IH]; intros attempt w;
    cbn [retried retries_events].
  - now rewrite app_nil_r.
  - rewrite IH. cbn [one_retry trace api_calls]. now rewrite <- app_assoc.
Qed.

Lemma sleeps_of_app (events events' : list Event) :
  sleeps_of (events ++ events') = sleeps_of events ++ sleeps_of events'.
Proof. apply flat_map_app. Qed.

Lemma sleeps_of_printed (lines : list ConsoleLine) : sleeps_of (map Printed lines) = [].
Proof. induction lines as [| l lines IH]; [reflexivity | exact IH]. Qed.

Lemma sleeps_of_retries user errors : forall n attempt,
    sleeps_of (retries_events n user errors attempt)
    = map backoff_ms (seq attempt (length errors)).
Proof.
  induction errors as [| e errors IH]; intros n attempt;
    cbn [retries_events length seq map]; [reflexivity |].
  rewrite sleeps_of_app, IH. reflexivity.
Qed.

Lemma retried_sleeps user errors attempt w :
  sleeps (retried user errors attempt w)
  = sleeps w ++ map backoff_ms (seq attempt (length errors)).
Proof.
  unfold sleeps. now rewrite retried_trace, sleeps_of_app, sleeps_of_retries.
Qed.

Lemma retried_entered user errors : forall attempt w,
    summarise_entered (retried user errors attempt w) = summarise_entered w.
Proof.
  induction errors as [| e errors IH]; intros attempt w; cbn [retried];
    [reflexivity | now rewrite IH].
Qed.

Lemma retried_tracker_calls user errors : forall attempt w,
    tracker_calls (retried user errors attempt w) = tracker_calls w.
Proof.
  induction errors as [| e errors IH]; intros attempt w; cbn [retried];
    [reflexivity | now rewrite IH].
Qed.

Lemma sleeps_logged lines w : sleeps (logged lines w) = sleeps w.
Proof.
  unfold sleeps, logged, record. cbn [trace].
  now rewrite sleeps_of_app, sleeps_of_printed, app_nil_r.
Qed.

Lemma sleeps_called user w : sleeps (called user w) = sleeps w.
Proof.
  unfold sleeps, called. cbn [trace]. rewrite sleeps_of_app. cbn. apply app_nil_r.
Qed.

Lemma sleeps_entered w : sleeps (entered w) = sleeps w.
Proof. reflexivity. Qed.

(** Every run of the loop is some retried failures, at most [n] of them,
    followed by a decisive answer when fewer than [n] failed. *)
Lemma failures_then_decisive user : forall n from,
    exists errors,
      length errors <= n
      /\ Forall (fun error => recoverable error = true) errors
      /\ fails_with openai user from errors
      /\ (length errors < n -> decisive openai user (from + length errors)).
Proof.
  induction n as [| n IH]; intro from.
  - exists []. cbn. repeat split; [lia | constructor | lia].
  - destruct (openai from user) as [content | error] eqn:Hanswer.
    + exists []. cbn [length fails_with]. repeat split; [lia | constructor |].
      intros _. unfold decisive. now rewrite Nat.add_0_r, Hanswer.
    + destruct (recoverable error) eqn:Hrec.
      * destruct (IH (S from)) as (errors & Hlen & Hall & Hfails & Hdec).
        exists (error :: errors). cbn [length fails_with].
        repeat split; [lia | now constructor | assumption | assumption |].
        intro Hlt. replace (from + S (length errors)) with (S from + length errors) by lia.
        apply Hdec. lia.
      * exists []. cbn [length fails_with]. repeat split; [lia | constructor |].
        intros _. unfold decisive. now rewrite Nat.add_0_r, Hanswer.
Qed.

(** [summarise] is an entry, the loop, and the handling of what the loop
    leaves in [returnedContent]. *)
Lemma summarise_unfold tickets w :
  summarise openai JSON_parse tickets w
  = match retry_loop openai maxRetries tickets 0 "" (entered w) with
    | (Return returnedContent, w') =>
        if is_empty returnedContent then (Throw terminal_error, w')
        else (Return (parsed_tickets JSON_parse returnedContent),
              after_parse JSON_parse returnedContent w')
    | (Throw error, w') => (Throw error, w')
    | (OutOfFuel, w') => (OutOfFuel, w')
    end.
Proof.
  unfold summarise. unfold bind at 1. unfold enter_summarise at 1. cbv beta iota.
  fold (entered w). unfold bind at 1.
  destruct (retry_loop openai maxRetries tickets 0 "" (entered w))
    as [[returnedContent | error |] w']; try reflexivity.
  destruct (is_empty returnedContent); [reflexivity |].
  unfold try_catch, bind, js_JSON_parse, parsed_tickets, after_parse.
  destruct (JSON_parse returnedContent) as [v |]; [| reflexivity].
  destruct v; reflexivity.
Qed.

(** The loop of [summarise] after [errors] retried failures. *)
Lemma summarise_loop_failures tickets w errors :
  length errors <= maxRetries ->
  Forall (fun error => recoverable error = true) errors ->
  fails_with openai (join separator tickets) (api_calls w) errors ->
  retry_loop openai maxRetries tickets 0 "" (entered w)
  = retry_loop openai (maxRetries - length errors) tickets (length errors) ""
               (retried (join separator tickets) errors 0 (entered w)).
Proof.
  intros Hle Hrec Hfails.
  replace maxRetries with (length errors + (maxRetries - length errors)) at 1 by lia.
  rewrite retry_loop_failures; [reflexivity | cbn; lia | assumption | exact Hfails].
Qed.

Lemma summarise_completed tickets w errors content :
  length errors < maxRetries ->
  Forall (fun error => recoverable error = true) errors ->
  fails_with openai (join separator tickets) (api_calls w) errors ->
  openai (api_calls w + length errors) (join separator tickets) = Completed content ->
  summarise openai JSON_parse tickets w
  = let user := join separator tickets in
    let w' := called user (retried user errors 0 (entered w)) in
    if is_empty (content_or_empty content) then (Throw terminal_error, w')
    else (Return (parsed_tickets JSON_parse (content_or_empty content)),
          after_parse JSON_parse (content_or_empty content) w').
Proof.
  intros Hlt Hrec Hfails Hanswer.
  rewrite summarise_unfold, (summarise_loop_failures _ _ errors) by (assumption || lia).
  destruct (maxRetries - length errors) as [| fuel] eqn:Hfuel; [lia |].
  rewrite (retry_loop_completed _ _ _ _ _ content);
    [reflexivity | assumption |].
  rewrite retried_api_calls. exact Hanswer.
Qed.

Lemma summarise_rethrown tickets w errors error :
  length errors < maxRetries ->
  Forall (fun error => recoverable error = true) errors ->
  fails_with openai (join separator tickets) (api_calls w) errors ->
  openai (api_calls w + length errors) (join separator tickets) = Failed error ->
  recoverable error = false ->
  summarise openai JSON_parse tickets w
  = let user := join separator tickets in
    (Throw error,
     logged [Error_querying_OpenAI error]
            (called user (retried user errors 0 (entered w)))).
Proof.
  intros Hlt Hrec Hfails Hanswer Hno.
  rewrite summarise_unfold, (summarise_loop_failures _ _ errors) by (assumption || lia).
  destruct (maxRetries - length errors) as [| fuel] eqn:Hfuel; [lia |].
  rewrite (retry_loop_rethrown _ _ _ _ _ error);
    [reflexivity | assumption | | assumption].
  rewrite retried_api_calls. exact Hanswer.
Qed.

Lemma summarise_exhausted tickets w errors :
  length errors = maxRetries ->
  Forall (fun error => recoverable error = true) errors ->
  fails_with openai (join separator tickets) (api_calls w) errors ->
  summarise openai JSON_parse tickets w
  = (Throw terminal_error, retried (join separator tickets) errors 0 (entered w)).
Proof.
  intros Hlen Hrec Hfails.
  rewrite summarise_unfold, (summarise_loop_failures _ _ errors) by (assumption || lia).
  rewrite retry_loop_exhausted by lia. reflexivity.
Qed.

End RetryLoop.

(** Counters and sleeps of a world built from the updates above. *)
Ltac simplify_world :=
  repeat first [ rewrite sleeps_logged | rewrite sleeps_called
               | rewrite sleeps_entered | rewrite retried_sleeps ];
  repeat (cbn [logged record called entered tracked
               api_calls tracker_calls summarise_entered];
          first [ rewrite retried_api_calls | rewrite retried_entered
                | rewrite retried_tracker_calls ]);
  cbn [logged record called entered tracked
       api_calls tracker_calls summarise_entered].

(** ** The lookups of a batch *)

Lemma record_nil (w : World) : record [] w = w.
Proof. destruct w. unfold record. cbn. now rewrite app_nil_r. Qed.

Lemma record_record (events events' : list Event) (w : World) :
  record events' (record events w) = record (events ++ events') w.
Proof. unfold record. cbn. now rewrite app_assoc. Qed.

Lemma looks_up_ret {A} (a : A) : looks_up (ret a).
Proof. intro w. exists []. cbn. now rewrite record_nil. Qed.

Lemma looks_up_throw {A} (error : Thrown) : looks_up (@throw A error).
Proof. intro w. exists []. cbn. now rewrite record_nil. Qed.

Lemma looks_up_bind {A B} (m : M A) (k : A -> M B) :
  looks_up m -> (forall a, looks_up (k a)) -> looks_up (bind m k).
Proof.
  intros Hm Hk w. unfold bind.
  destruct (Hm w) as (events & Hworld & Hevents).
  destruct (m w) as [[a | error |] w']; cbn [snd] in Hworld; subst w'.
  - destruct (Hk a (record events w)) as (events' & Hworld' & Hevents').
    exists (events ++ events'). rewrite Hworld', record_record.
    split; [reflexivity |]. rewrite forallb_app. now rewrite Hevents, Hevents'.
  - now exists events.
  - now exists events.
Qed.

Lemma looks_up_start (ticket : Linear.Ticket) : looks_up (start ticket).
Proof. intro w. now exists [Awaited (Linear.identifier ticket) The_assignee]. Qed.

Lemma looks_up_resume (callback : Callback) : looks_up (resume callback).
Proof.
  destruct callback as [ticket | ticket assignee | ticket assignee labels | text];
    cbn [resume].
  - destruct (Linear.assignee ticket); [| apply looks_up_throw].
    intro w. now exists [Awaited (Linear.identifier ticket) The_labels].
  - destruct (Linear.labels ticket); [| apply looks_up_throw].
    intro w. now exists [Awaited (Linear.identifier ticket) The_project].
  - destruct (Linear.project ticket); [apply looks_up_ret | apply looks_up_throw].
  - apply looks_up_ret.
Qed.

Lemma looks_up_mapM {A B} (f : A -> M B) (l : list A) :
  (forall a, looks_up (f a)) -> looks_up (mapM f l).
Proof.
  intro Hf. induction l as [| a l IH]; cbn [mapM].
  - apply looks_up_ret.
  - apply looks_up_bind; [apply Hf |]. intro b.
    apply looks_up_bind; [exact IH |]. intro bs. apply looks_up_ret.
Qed.

Lemma looks_up_resume_nth (batch : list Callback) :
  forall n, looks_up (resume_nth n batch).
Proof.
  induction batch as [| callback batch IH]; intro n; cbn [resume_nth].
  - apply looks_up_ret.
  - destruct (is_suspended callback); [destruct n |].
    + apply looks_up_bind; [apply looks_up_resume |]. intro. apply looks_up_ret.
    + apply looks_up_bind; [apply IH |]. intro. apply looks_up_ret.
    + apply looks_up_bind; [apply IH |]. intro. apply looks_up_ret.
Qed.

Lemma looks_up_Promise_all (settles : nat -> nat -> nat) (i : nat) :
  forall fuel step batch, looks_up (Promise_all settles fuel i step batch).
Proof.
  induction fuel as [| fuel IH]; intros step batch; cbn [Promise_all];
    destruct (length (filter is_suspended batch)).
  - apply looks_up_ret.
  - intro w. exists []. cbn. now rewrite record_nil.
  - apply looks_up_ret.
  - apply looks_up_bind; [apply looks_up_resume_nth |]. intro. apply IH.
Qed.

Lemma looks_up_awaited_texts (settles : nat -> nat -> nat) (i : nat)
      (tickets : list Linear.Ticket) :
  looks_up (awaited_texts settles i tickets).
Proof.
  apply looks_up_bind; [apply looks_up_mapM, looks_up_start |].
  intro. apply looks_up_Promise_all.
Qed.

(** What [map] hands to Promise.all: every callback suspended at its first
    await. *)
Lemma mapM_start (tickets : list Linear.Ticket) :
  forall w, fst (mapM start tickets w) = Return (map Awaiting_assignee tickets).
Proof.
  induction tickets as [| ticket tickets IH]; intro w; cbn [mapM map].
  - reflexivity.
  - unfold bind at 1. unfold start at 1. cbv beta iota.
    unfold bind at 1.
    specialize (IH (record [Awaited (Linear.identifier ticket) The_assignee] w)).
    destruct (mapM start tickets _) as [o w']. cbn [fst] in IH. subst o.
    reflexivity.
Qed.

(** One callback resumed: it rejects with what it was to settle to, or
    has one await less before it. *)
Lemma resume_cases (callback : Callback) (w : World) :
  is_suspended callback = true ->
  match fst (resume callback w) with
  | Return callback' =>
      outcome callback' = outcome callback
      /\ S (awaits_left callback') = awaits_left callback
  | Throw error => outcome callback = Rejected error
  | OutOfFuel => False
  end.
Proof.
  destruct callback as [ticket | ticket assignee | ticket assignee labels | text];
    cbn [is_suspended resume outcome]; intro H; try discriminate; unfold settled.
  - destruct (Linear.assignee ticket); cbn; [split; reflexivity | reflexivity].
  - destruct (Linear.labels ticket); cbn; [split; reflexivity | reflexivity].
  - destruct (Linear.project ticket); cbn; [split; reflexivity | reflexivity].
Qed.

Lemma resume_nth_cases (batch : list Callback) :
  forall n w,
    n < length (filter is_suspended batch) ->
    match fst (resume_nth n batch w) with
    | Return batch' =>
        map outcome batch' = map outcome batch
        /\ S (remaining batch') = remaining batch
    | Throw error => In (Rejected error) (map outcome batch)
    | OutOfFuel => False
    end.
Proof.
  unfold remaining, list_sum.
  induction batch as [| callback batch IH]; intros n w Hn; cbn [filter length] in Hn.
  - lia.
  - cbn [resume_nth map fold_right In].
    destruct (is_suspended callback) eqn:Hsuspended; [destruct n as [| n] |].
    + pose proof (resume_cases callback w Hsuspended) as Hone.
      unfold bind. destruct (resume callback w) as [[callback' | error |] w'];
        cbn [fst ret] in *.
      * destruct Hone as [Hout Hleft]. cbn [map fold_right]. rewrite Hout. split; [reflexivity | lia].
      * left. now symmetry.
      * exact Hone.
    + cbn [length] in Hn. specialize (IH n w (proj2 (Nat.succ_lt_mono _ _) Hn)).
      unfold bind. destruct (resume_nth n batch w) as [[batch' | error |] w'];
        cbn [fst ret] in *.
      * destruct IH as [Hout Hleft]. cbn [map fold_right]. rewrite Hout. split; [reflexivity | lia].
      * now right.
      * exact IH.
    + specialize (IH n w Hn).
      unfold bind. destruct (resume_nth n batch w) as [[batch' | error |] w'];
        cbn [fst ret] in *.
      * destruct IH as [Hout Hleft]. cbn [map fold_right]. rewrite Hout. split; [reflexivity | lia].
      * now right.
      * exact IH.
Qed.

Lemma all_returned (batch : list Callback) :
  length (filter is_suspended batch) = 0 ->
  map outcome batch = map Resolved (texts_of batch).
Proof.
  induction batch as [| callback batch IH]; cbn [filter]; [reflexivity |].
  destruct callback; cbn [is_suspended length]; try discriminate.
  intro H. cbn [map texts_of flat_map app outcome]. f_equal. exact (IH H).
Qed.

Lemma suspended_remaining (batch : list Callback) :
  length (filter is_suspended batch) <= remaining batch.
Proof.
  unfold remaining, list_sum.
  induction batch as [| callback batch IH]; [reflexivity |].
  cbn [filter map fold_right].
  destruct callback; cbn [is_suspended length awaits_left]; lia.
Qed.

(** Promise.all rejects with the rejection of one of its callbacks, or
    is fulfilled with the texts all of them return. *)
Lemma Promise_all_cases (settles : nat -> nat -> nat) (i : nat) :
  forall fuel step batch w,
    remaining batch <= fuel ->
    match fst (Promise_all settles fuel i step batch w) with
    | Return texts => map outcome batch = map Resolved texts
    | Throw error => In (Rejected error) (map outcome batch)
    | OutOfFuel => False
    end.
Proof.
  induction fuel as [| fuel IH]; intros step batch w Hfuel; cbn [Promise_all];
    destruct (length (filter is_suspended batch)) as [| suspended] eqn:Hsuspended;
    try (cbn [ret fst]; now apply all_returned).
  - pose proof (suspended_remaining batch) as Hleft. cbn [out_of_fuel fst]. lia.
  - pose proof (resume_nth_cases batch (settles i step mod S suspended) w) as Hone.
    rewrite Hsuspended in Hone.
    specialize (Hone (Nat.mod_upper_bound _ _ (Nat.neq_succ_0 _))).
    unfold bind.
    destruct (resume_nth _ batch w) as [[batch' | error |] w']; cbn [fst] in *.
    + destruct Hone as [Hout Hleft]. rewrite <- Hout. apply IH. lia.
    + exact Hone.
    + exact Hone.
Qed.

Lemma remaining_started (tickets : list Linear.Ticket) :
  remaining (map Awaiting_assignee tickets) = 3 * length tickets.
Proof.
  unfold remaining. induction tickets as [| ticket tickets IH]; [reflexivity |].
  cbn [map list_sum fold_right awaits_left length]. unfold list_sum in IH. rewrite IH. lia.
Qed.

(** The texts of a batch: the rejection of a lookup, or the texts of all
    its tickets, after lookups only. *)
Lemma awaited_texts_cases (settles : nat -> nat -> nat) (i : nat)
      (tickets : list Linear.Ticket) (w : World) :
  exists events,
    snd (awaited_texts settles i tickets w) = record events w
    /\ forallb lookup_event events = true
    /\ match fst (awaited_texts settles i tickets w) with
       | Return texts => fulfilled tickets texts
       | Throw error => lookup_rejects tickets error
       | OutOfFuel => False
       end.
Proof.
  destruct (looks_up_awaited_texts settles i tickets w) as (events & Hworld & Hevents).
  exists events. split; [exact Hworld | split; [exact Hevents |]].
  unfold awaited_texts, bind, fulfilled, lookup_rejects.
  pose proof (mapM_start tickets w) as Hstart.
  destruct (mapM start tickets w) as [o w']. cbn [fst] in Hstart. subst o.
  pose proof (Promise_all_cases settles i (3 * length (map Awaiting_assignee tickets)) 0
                (map Awaiting_assignee tickets) w') as Hall.
  rewrite map_map in Hall. cbn [outcome] in Hall.
  apply Hall. rewrite remaining_started, length_map. lia.
Qed.

Lemma map_Resolved_injective {A} (l l' : list A) :
  map Resolved l = map Resolved l' -> l = l'.
Proof.
  revert l'. induction l as [| a l IH]; intros [| a' l'] H; try discriminate.
  - reflexivity.
  - cbn [map] in H. injection H as Ha Hl. subst a'. f_equal. now apply IH.
Qed.

Lemma not_rejected_in_resolved {A} (error : Thrown) (l : list A) :
  ~ In (Rejected error) (map Resolved l).
Proof.
  induction l as [| a l IH]; cbn [map In]; [tauto |].
  intros [H | H]; [discriminate | now apply IH].
Qed.

(** When every lookup of the batch is fulfilled, the texts are those of
    its tickets, whatever the order in which the promises settle. *)
Lemma awaited_texts_fulfilled (settles : nat -> nat -> nat) (i : nat)
      (tickets : list Linear.Ticket) (texts : list string) (w : World) :
  fulfilled tickets texts ->
  exists events,
    awaited_texts settles i tickets w = (Return texts, record events w)
    /\ forallb lookup_event events = true.
Proof.
  intro Hfulfilled.
  destruct (awaited_texts_cases settles i tickets w) as (events & Hworld & Hevents & Hcases).
  exists events. split; [| exact Hevents].
  destruct (awaited_texts settles i tickets w) as [[texts' | error |] w'];
    cbn [fst snd] in *; subst w'.
  - unfold fulfilled in *. rewrite Hfulfilled in Hcases.
    now rewrite (map_Resolved_injective _ _ Hcases).
  - unfold lookup_rejects, fulfilled in *. rewrite Hfulfilled in Hcases.
    now destruct (not_rejected_in_resolved _ _ Hcases).
  - now exfalso.
Qed.

(** When a lookup of the batch rejects, Promise.all rejects, with the
    rejection of one of the lookups of the batch. *)
Lemma awaited_texts_rejected (settles : nat -> nat -> nat) (i : nat)
      (tickets : list Linear.Ticket) (rejection : Thrown) (w : World) :
  lookup_rejects tickets rejection ->
  exists error events,
    awaited_texts settles i tickets w = (Throw error, record events w)
    /\ forallb lookup_event events = true
    /\ lookup_rejects tickets error.
Proof.
  intro Hrejects.
  destruct (awaited_texts_cases settles i tickets w) as (events & Hworld & Hevents & Hcases).
  destruct (awaited_texts settles i tickets w) as [[texts' | error |] w'];
    cbn [fst snd] in *; subst w'.
  - unfold lookup_rejects, fulfilled in *. rewrite Hcases in Hrejects.
    now destruct (not_rejected_in_resolved _ _ Hrejects).
  - now exists error, events.
  - now exfalso.
Qed.

Lemma sleeps_of_lookups (events : list Event) :
  forallb lookup_event events = true -> sleeps_of events = [].
Proof.
  induction events as [| event events IH]; [reflexivity |].
  cbn [forallb]. intro H. apply andb_prop in H as [Hevent Hrest].
  destruct event; try discriminate. cbn. now apply IH.
Qed.

Lemma sleeps_record_lookups (events : list Event) (w : World) :
  forallb lookup_event events = true -> sleeps (record events w) = sleeps w.
Proof.
  intro H. unfold sleeps, record. cbn [trace].
  rewrite sleeps_of_app, (sleeps_of_lookups _ H). apply app_nil_r.
Qed.

(** ** The batch loop *)

Lemma div_ceil_step (d : nat) :
  0 < d -> div_ceil d BATCH_SIZE = S (div_ceil (d - BATCH_SIZE) BATCH_SIZE).
Proof.
  intro Hpos. unfold div_ceil, BATCH_SIZE.
  change (15 - 1) with 14.
  destruct (Nat.le_gt_cases 15 d) as [Hge | Hlt].
  - replace (d + 14) with ((d - 15 + 14) + 1 * 15) by lia.
    rewrite Nat.div_add by lia. lia.
  - replace (d - 15) with 0 by lia.
    change ((0 + 14) / 15) with 0.
    symmetry. apply (Nat.div_unique (d + 14) 15 1 (d - 1)); lia.
Qed.

Lemma div_ceil_zero : div_ceil 0 BATCH_SIZE = 0.
Proof. reflexivity. Qed.

Lemma map_slice {A B} (f : A -> B) (i j : nat) (l : list A) :
  map f (slice i j l) = slice i j (map f l).
Proof. unfold slice. now rewrite skipn_map, firstn_map. Qed.

Lemma in_slice {A} (x : A) (i j : nat) (l : list A) : In x (slice i j l) -> In x l.
Proof.
  unfold slice. intro H.
  rewrite <- (firstn_skipn i l). apply in_or_app. right.
  rewrite <- (firstn_skipn (j - i) (skipn i l)). apply in_or_app. now left.
Qed.

Lemma fulfilled_batch (tickets : list Linear.Ticket) (texts : list string) (i : nat) :
  fulfilled tickets texts -> fulfilled (batch_of tickets i) (batch_of texts i).
Proof.
  unfold fulfilled, batch_of. intro H. now rewrite !map_slice, H.
Qed.

Lemma fulfilled_length (tickets : list Linear.Ticket) (texts : list string) :
  fulfilled tickets texts -> length texts = length tickets.
Proof.
  unfold fulfilled. intro H.
  rewrite <- (length_map Resolved texts), <- H. apply length_map.
Qed.

Lemma lookup_rejects_batch (tickets : list Linear.Ticket) (i : nat) (error : Thrown) :
  lookup_rejects (batch_of tickets i) error -> lookup_rejects tickets error.
Proof.
  unfold lookup_rejects, batch_of. rewrite map_slice. apply in_slice.
Qed.

Lemma fulfilled_not_rejected (tickets : list Linear.Ticket) (texts : list string)
      (error : Thrown) :
  fulfilled tickets texts -> ~ lookup_rejects tickets error.
Proof.
  unfold fulfilled, lookup_rejects. intros ->. apply not_rejected_in_resolved.
Qed.

Section Batches.

Variable settles : nat -> nat -> nat.
Variable openai : nat -> string -> Completion.
Variable JSON_parse : string -> option json.

(** One turn of the for loop. *)
Lemma batch_loop_step fuel tickets i summarisedTickets w :
  batch_loop settles openai JSON_parse (S fuel) tickets i summarisedTickets w
  = if (i <? length tickets)%nat then
      match awaited_texts settles i (batch_of tickets i) w with
      | (Return ticketBatch, w0) =>
          match summarise openai JSON_parse ticketBatch
                  (logged [Summarising_batch (length ticketBatch) i
                                             (i + BATCH_SIZE) (length tickets)] w0) with
          | (Return batch, w') =>
              batch_loop settles openai JSON_parse fuel tickets (i + BATCH_SIZE)
                         (summarisedTickets ++ batch)
                         (logged [Summarised_results; Summarised_json batch] w')
          | (Throw error, w') => (Throw error, w')
          | (OutOfFuel, w') => (OutOfFuel, w')
          end
      | (Throw error, w0) => (Throw error, w0)
      | (OutOfFuel, w0) => (OutOfFuel, w0)
      end
    else (Return summarisedTickets, w).
Proof.
  cbn [batch_loop]. unfold awaited_texts, batch_of.
  destruct (i <? length tickets)%nat; [| reflexivity].
  unfold bind, console_log, logged. cbn [map].
  destruct (mapM start (slice i (i + BATCH_SIZE) tickets) w)
    as [[batch | error |] w0]; try reflexivity.
  destruct (Promise_all settles (3 * length batch) i 0 batch w0)
    as [[ticketBatch | error |] w1]; try reflexivity.
  destruct (summarise openai JSON_parse ticketBatch _)
    as [[summarised | error |] w']; try reflexivity.
  rewrite record_record. reflexivity.
Qed.

(** One turn of the for loop when the lookups of its batch are
    fulfilled. *)
Lemma batch_loop_fulfilled fuel tickets i summarisedTickets w ticketBatch :
  i < length tickets ->
  fulfilled (batch_of tickets i) ticketBatch ->
  exists events,
    forallb lookup_event events = true
    /\ batch_loop settles openai JSON_parse (S fuel) tickets i summarisedTickets w
       = match summarise openai JSON_parse ticketBatch
                 (logged [Summarising_batch (length ticketBatch) i
                                            (i + BATCH_SIZE) (length tickets)]
                         (record events w)) with
         | (Return batch, w') =>
             batch_loop settles openai JSON_parse fuel tickets (i + BATCH_SIZE)
                        (summarisedTickets ++ batch)
                        (logged [Summarised_results; Summarised_json batch] w')
         | (Throw error, w') => (Throw error, w')
         | (OutOfFuel, w') => (OutOfFuel, w')
         end.
Proof.
  intros Hi Hfulfilled.
  destruct (awaited_texts_fulfilled settles i _ _ w Hfulfilled) as (events & Htexts & Hevents).
  exists events. split; [exact Hevents |].
  rewrite batch_loop_step, Htexts.
  destruct (Nat.ltb_spec i (length tickets)); [reflexivity | lia].
Qed.

Lemma batch_loop_done fuel tickets i summarisedTickets w :
  length tickets <= i ->
  batch_loop settles openai JSON_parse fuel tickets i summarisedTickets w
  = (Return summarisedTickets, w).
Proof.
  intro H. destruct fuel; cbn [batch_loop];
    (destruct (Nat.ltb_spec i (length tickets)); [lia | reflexivity]).
Qed.

(** What one call of [summarise] does to the counters, whatever the
    service answers. *)
Lemma summarise_effects tickets w :
  let run := summarise openai JSON_parse tickets w in
  summarise_entered (snd run) = S (summarise_entered w)
  /\ tracker_calls (snd run) = tracker_calls w
  /\ fst run <> OutOfFuel
  /\ api_calls (snd run) <= api_calls w + maxRetries
  /\ (forall batch, fst run = Return batch ->
      api_calls (snd run) + length (sleeps w)
      = S (api_calls w + length (sleeps (snd run)))).
Proof.
  destruct (failures_then_decisive openai (join separator tickets) maxRetries (api_calls w))
    as (errors & Hlen & Hrec & Hfails & Hdec).
  destruct (Nat.eq_dec (length errors) maxRetries) as [Hfull | Hless].
  - cbv zeta. rewrite (summarise_exhausted _ _ _ _ errors) by assumption.
    cbn [fst snd]. simplify_world.
    repeat split; [discriminate | lia | discriminate].
  - assert (Hlt : length errors < maxRetries) by lia.
    specialize (Hdec Hlt). unfold decisive in Hdec.
    destruct (openai (api_calls w + length errors) (join separator tickets))
      as [content | error] eqn:Hanswer.
    + cbv zeta. rewrite (summarise_completed _ _ _ _ errors content) by assumption.
      cbv zeta.
      destruct (is_empty (content_or_empty content)); cbn [fst snd];
        unfold after_parse;
        try destruct (JSON_parse (content_or_empty content));
        simplify_world;
        rewrite ?length_app, ?length_map, ?length_seq;
        repeat split; try discriminate; try lia.
    + cbv zeta. rewrite (summarise_rethrown _ _ _ _ errors error) by assumption.
      cbv zeta. cbn [fst snd]. simplify_world.
      repeat split; [discriminate | lia | discriminate].
Qed.

(** The counters after the loop, from any state of the loop. *)
Lemma batch_loop_counts : forall fuel tickets i summarisedTickets w,
    length tickets - i <= fuel ->
    let run := batch_loop settles openai JSON_parse fuel tickets i summarisedTickets w in
    let n := div_ceil (length tickets - i) BATCH_SIZE in
    fst run <> OutOfFuel
    /\ summarise_entered (snd run) <= summarise_entered w + n
    /\ (forall out, fst run = Return out ->
        summarise_entered (snd run) = summarise_entered w + n
        /\ api_calls (snd run) + length (sleeps w)
           = api_calls w + n + length (sleeps (snd run))).
Proof.
  induction fuel as [| fuel IH]; intros tickets i acc w Hfuel; cbv zeta.
  - rewrite batch_loop_done by lia.
    replace (length tickets - i) with 0 by lia. rewrite div_ceil_zero.
    cbn [fst snd]. repeat split; try discriminate; lia.
  - rewrite batch_loop_step.
    destruct (Nat.ltb_spec i (length tickets)) as [Hlt | Hge].
    + rewrite (div_ceil_step (length tickets - i)) by lia.
      replace (length tickets - i - BATCH_SIZE) with (length tickets - (i + BATCH_SIZE)) by lia.
      destruct (awaited_texts_cases settles i (batch_of tickets i) w)
        as (events & Hworld & Hevents & Hcases).
      destruct (awaited_texts settles i (batch_of tickets i) w)
        as [[ticketBatch | error |] w0]; cbn [fst snd] in Hworld, Hcases; subst w0.
      * set (w1 := logged _ (record events w)).
        pose proof (summarise_effects ticketBatch w1) as Heff.
        cbv zeta in Heff.
        destruct (summarise openai JSON_parse ticketBatch w1)
          as [[batch | error |] w'] eqn:Hrun; cbn [fst snd] in Heff.
        -- destruct Heff as (Hent & _ & _ & _ & Hcalls).
           specialize (Hcalls batch eq_refl).
           set (w2 := logged _ w').
           assert (Hfuel' : length tickets - (i + BATCH_SIZE) <= fuel)
             by (unfold BATCH_SIZE; lia).
           specialize (IH tickets (i + BATCH_SIZE) (acc ++ batch) w2 Hfuel').
           cbv zeta in IH. destruct IH as (Hno & Hle & Hret).
           subst w1 w2. rewrite ?sleeps_logged in *.
           rewrite (sleeps_record_lookups _ _ Hevents) in *.
           cbn [logged record summarise_entered api_calls] in *.
           repeat split.
           ++ exact Hno.
           ++ lia.
           ++ destruct (Hret out H) as [? ?]. lia.
           ++ destruct (Hret out H) as [? ?]. lia.
        -- destruct Heff as (Hent & _ & _ & _ & _).
           subst w1. cbn [logged record summarise_entered] in Hent.
           cbn [fst snd]. repeat split; try discriminate; lia.
        -- destruct Heff as (_ & _ & Hno & _). now exfalso.
      * cbn [fst snd record summarise_entered].
        repeat split; try discriminate; lia.
      * now exfalso.
    + replace (length tickets - i) with 0 by lia. rewrite div_ceil_zero.
      cbn [fst snd]. repeat split; try discriminate; lia.
Qed.

(** The result of the loop when every call is answered at once with a
    non-empty text: the loop returns what the answers parse to, batch after
    batch, unless a lookup rejects. *)
Lemma batch_loop_answers_cases (reply : nat -> string) :
  (forall k user, openai k user = Completed (Some (reply k))) ->
  (forall k, reply k <> "") ->
  forall fuel tickets i summarisedTickets w,
    length tickets - i <= fuel ->
    match fst (batch_loop settles openai JSON_parse fuel tickets i summarisedTickets w) with
    | Return out =>
        out = summarisedTickets
              ++ flat_map (fun k => parsed_tickets JSON_parse (reply k))
                          (seq (api_calls w)
                               (div_ceil (length tickets - i) BATCH_SIZE))
    | Throw error => lookup_rejects tickets error
    | OutOfFuel => False
    end.
Proof.
  intros Hanswers Hnonempty.
  induction fuel as [| fuel IH]; intros tickets i acc w Hfuel.
  - rewrite batch_loop_done by lia.
    replace (length tickets - i) with 0 by lia. rewrite div_ceil_zero.
    cbn [fst seq flat_map]. now rewrite app_nil_r.
  - rewrite batch_loop_step.
    destruct (Nat.ltb_spec i (length tickets)) as [Hlt | Hge].
    + rewrite (div_ceil_step (length tickets - i)) by lia.
      replace (length tickets - i - BATCH_SIZE) with (length tickets - (i + BATCH_SIZE)) by lia.
      destruct (awaited_texts_cases settles i (batch_of tickets i) w)
        as (events & Hworld & Hevents & Hcases).
      destruct (awaited_texts settles i (batch_of tickets i) w)
        as [[ticketBatch | error |] w0]; cbn [fst snd] in Hworld, Hcases; subst w0.
      * set (w1 := logged _ (record events w)).
        rewrite (summarise_completed openai JSON_parse _ w1 [] (Some (reply (api_calls w))));
          [| unfold maxRetries; cbn; lia | constructor | exact I
           | subst w1; cbn [logged record api_calls length]; rewrite Nat.add_0_r;
             apply Hanswers].
        cbv zeta. cbn [content_or_empty].
        destruct (is_empty (reply (api_calls w))) eqn:Hempty;
          [apply is_empty_true in Hempty; now destruct (Hnonempty (api_calls w)) |].
        match goal with
        | |- context [batch_loop settles openai JSON_parse fuel tickets (i + BATCH_SIZE) ?a ?v] =>
            specialize (IH tickets (i + BATCH_SIZE) a v);
            replace (api_calls v) with (S (api_calls w)) in IH
              by (unfold after_parse;
                  destruct (JSON_parse (reply (api_calls w))); reflexivity);
            destruct (batch_loop settles openai JSON_parse fuel tickets (i + BATCH_SIZE) a v)
              as [[out | error |] w']; cbn [fst] in *
        end.
        -- rewrite IH by (unfold BATCH_SIZE; lia).
           rewrite <- app_assoc. reflexivity.
        -- apply IH. unfold BATCH_SIZE. lia.
        -- apply IH. unfold BATCH_SIZE. lia.
      * cbn [fst]. now apply lookup_rejects_batch in Hcases.
      * now exfalso.
    + replace (length tickets - i) with 0 by lia. rewrite div_ceil_zero.
      cbn [fst seq flat_map]. now rewrite app_nil_r.
Qed.

(** The same when every lookup is fulfilled. *)
Lemma batch_loop_answers (reply : nat -> string) :
  (forall k user, openai k user = Completed (Some (reply k))) ->
  (forall k, reply k <> "") ->
  forall fuel tickets texts i summarisedTickets w,
    fulfilled tickets texts ->
    length tickets - i <= fuel ->
    fst (batch_loop settles openai JSON_parse fuel tickets i summarisedTickets w)
    = Return (summarisedTickets
              ++ flat_map (fun k => parsed_tickets JSON_parse (reply k))
                          (seq (api_calls w)
                               (div_ceil (length tickets - i) BATCH_SIZE))).
Proof.
  intros Hanswers Hnonempty fuel tickets texts i acc w Hfulfilled Hfuel.
  pose proof (batch_loop_answers_cases reply Hanswers Hnonempty fuel tickets i acc w Hfuel)
    as Hcases.
  destruct (fst (batch_loop settles openai JSON_parse fuel tickets i acc w))
    as [out | error |].
  - now subst out.
  - now destruct (fulfilled_not_rejected _ _ error Hfulfilled).
  - now exfalso.
Qed.

End Batches.

(** ** Properties of the summariser and of the pipeline *)

(** C2.  In [summarise], when the first attempts fail with a rate-limit or
    quota code, the failure of attempt k (k = 0, 1, ...) is followed by a
    sleep of 2^k seconds (2^k * 1000 ms) before the next call, and nothing
    else is slept; the service is called once more than it failed that way,
    and never more than 5 times; and when all 5 attempts fail that way the
    call throws 'Failed to get a response from OpenAI API'. *)
Theorem summarise_backs_off
        (openai : nat -> string -> Completion) (JSON_parse : string -> option json)
        (tickets : list string) (w : World) (errors : list Thrown) :
  length errors <= maxRetries ->
  Forall (fun error => recoverable error = true) errors ->
  fails_with openai (join separator tickets) (api_calls w) errors ->
  (length errors < maxRetries ->
   decisive openai (join separator tickets) (api_calls w + length errors)) ->
  let run := summarise openai JSON_parse tickets w in
  (exists rest,
      trace (snd run)
      = trace w
        ++ retries_events (api_calls w) (join separator tickets) errors 0
        ++ rest
      /\ sleeps_of rest = []
      /\ (length errors = maxRetries -> rest = []))
  /\ sleeps (snd run)
     = sleeps w ++ map (fun k => (2 ^ Z.of_nat k * 1000)%Z) (seq 0 (length errors))
  /\ api_calls (snd run) = api_calls w + Nat.min (S (length errors)) maxRetries
  /\ api_calls (snd run) <= api_calls w + 5
  /\ (length errors = maxRetries ->
      fst run = Throw (Error_ "Failed to get a response from OpenAI API")).
Proof.
  intros Hlen Hrec Hfails Hdec. cbv zeta. fold backoff_ms.
  destruct (Nat.eq_dec (length errors) maxRetries) as [Hfull | Hless].
  - rewrite (summarise_exhausted _ _ _ _ errors) by assumption.
    cbn [fst snd]. split.
    + exists []. rewrite retried_trace, app_nil_r. cbn [entered trace api_calls].
      repeat split.
    + simplify_world. rewrite Hfull. unfold maxRetries.
      repeat split; try reflexivity; cbn; lia.
  - assert (Hlt : length errors < maxRetries) by lia.
    specialize (Hdec Hlt). unfold decisive in Hdec.
    assert (Hmin : Nat.min (S (length errors)) maxRetries = S (length errors)) by lia.
    rewrite Hmin.
    destruct (openai (api_calls w + length errors) (join separator tickets))
      as [content | error] eqn:Hanswer.
    + rewrite (summarise_completed _ _ _ _ errors content) by assumption.
      cbv zeta.
      destruct (is_empty (content_or_empty content)); cbn [fst snd];
        unfold after_parse;
        try destruct (JSON_parse (content_or_empty content));
        (split;
         [ eexists; unfold logged, record, called; cbn [trace map];
           rewrite retried_trace; cbn [entered trace api_calls];
           rewrite <- ?app_assoc;
           split; [reflexivity | split; [reflexivity | intro; lia]]
         | simplify_world; unfold maxRetries in *;
           repeat split; try reflexivity; try lia ]).
    + rewrite (summarise_rethrown _ _ _ _ errors error) by assumption.
      cbv zeta. cbn [fst snd]. split.
      * eexists. unfold logged, record, called. cbn [trace map].
        rewrite retried_trace. cbn [entered trace api_calls].
        rewrite <- ?app_assoc.
        split; [reflexivity | split; [reflexivity | intro; lia]].
      * simplify_world. unfold maxRetries in *.
        repeat split; try reflexivity; lia.
Qed.

(** C2, at a service that is rate-limited on every call: five calls, each
    followed by its two lines and its sleep, of 1, 2, 4, 8 and 16 seconds,
    then the terminal error. *)
Lemma summarise_backs_off_witness :
  let run := summarise always_rate_limited parse_sample ["ticket"] initial_world in
  trace (snd run)
  = [ Created 0 "ticket"; Printed (Error_querying_OpenAI rate_limited);
      Printed (Retrying_in 1); Slept 1000;
      Created 1 "ticket"; Printed (Error_querying_OpenAI rate_limited);
      Printed (Retrying_in 2); Slept 2000;
      Created 2 "ticket"; Printed (Error_querying_OpenAI rate_limited);
      Printed (Retrying_in 4); Slept 4000;
      Created 3 "ticket"; Printed (Error_querying_OpenAI rate_limited);
      Printed (Retrying_in 8); Slept 8000;
      Created 4 "ticket"; Printed (Error_querying_OpenAI rate_limited);
      Printed (Retrying_in 16); Slept 16000 ]
  /\ sleeps (snd run) = [1000; 2000; 4000; 8000; 16000]%Z
  /\ api_calls (snd run) = 5
  /\ fst run = Throw (Error_ "Failed to get a response from OpenAI API").
Proof.
  pose proof (summarise_backs_off always_rate_limited parse_sample ["ticket"]
                initial_world (repeat rate_limited 5)) as H.
  cbv zeta in H.
  destruct H as ((rest & Htrace & _ & Hrest) & Hsleeps & Hcalls & _ & Hthrow).
  - cbn. unfold maxRetries. lia.
  - repeat constructor.
  - cbn. repeat split.
  - cbn. unfold maxRetries. lia.
  - cbv zeta. rewrite (Hrest eq_refl) in Htrace.
    split; [exact Htrace | split; [exact Hsleeps | split; [exact Hcalls |]]].
    apply Hthrow. reflexivity.
Defined.

(** C10.  When a call of the service succeeds and the answer has no
    content, or the empty string as content, [summarise] leaves the loop
    and throws 'Failed to get a response from OpenAI API' with nothing done
    after the call; this happens on the first attempt too ([errors] empty),
    after one call and no sleep. *)
Theorem empty_content_is_terminal
        (openai : nat -> string -> Completion) (JSON_parse : string -> option json)
        (tickets : list string) (w : World)
        (errors : list Thrown) (content : option string) :
  length errors < maxRetries ->
  Forall (fun error => recoverable error = true) errors ->
  fails_with openai (join separator tickets) (api_calls w) errors ->
  openai (api_calls w + length errors) (join separator tickets) = Completed content ->
  content = None \/ content = Some "" ->
  let run := summarise openai JSON_parse tickets w in
  fst run = Throw (Error_ "Failed to get a response from OpenAI API")
  /\ trace (snd run)
     = trace w
       ++ retries_events (api_calls w) (join separator tickets) errors 0
       ++ [ Created (api_calls w + length errors) (join separator tickets) ]
  /\ api_calls (snd run) = api_calls w + length errors + 1
  /\ sleeps (snd run) = sleeps w ++ map backoff_ms (seq 0 (length errors)).
Proof.
  intros Hlt Hrec Hfails Hanswer Hcontent. cbv zeta.
  rewrite (summarise_completed _ _ _ _ errors content) by assumption.
  cbv zeta.
  assert (Hempty : is_empty (content_or_empty content) = true)
    by (destruct Hcontent; subst; reflexivity).
  rewrite Hempty. cbn [fst snd].
  split; [reflexivity | split].
  - unfold called. cbn [trace].
    rewrite retried_trace, retried_api_calls. cbn [entered trace api_calls].
    now rewrite <- !app_assoc.
  - simplify_world. split; [lia | reflexivity].
Qed.

(** C10, at a service that completes the first call without content. *)
Lemma empty_content_is_terminal_witness :
  let run := summarise answering_nothing parse_sample ["ticket"] initial_world in
  fst run = Throw (Error_ "Failed to get a response from OpenAI API")
  /\ trace (snd run) = [Created 0 "ticket"]
  /\ api_calls (snd run) = 1
  /\ sleeps (snd run) = [].
Proof.
  exact (empty_content_is_terminal answering_nothing parse_sample ["ticket"]
           initial_world [] None (Nat.lt_0_succ 4) (Forall_nil _) I eq_refl
           (or_introl eq_refl)).
Defined.

(** C5.  When the text of the answer parses as a value that is not an
    array, [summarise] returns the sequence with that value as its one
    element: the result of any call whose answer parses as the
    one-element array of that value. *)
Theorem non_array_answer_wrapped
        (openai : nat -> string -> Completion) (JSON_parse : string -> option json)
        (tickets : list string) (w : World)
        (errors : list Thrown) (text : string) (v : json) :
  JSON_parse "" = None ->
  length errors < maxRetries ->
  Forall (fun error => recoverable error = true) errors ->
  fails_with openai (join separator tickets) (api_calls w) errors ->
  openai (api_calls w + length errors) (join separator tickets)
  = Completed (Some text) ->
  JSON_parse text = Some v ->
  Array_isArray v = false ->
  fst (summarise openai JSON_parse tickets w) = Return [v]
  /\ forall openai' tickets' w' errors' text',
      length errors' < maxRetries ->
      Forall (fun error => recoverable error = true) errors' ->
      fails_with openai' (join separator tickets') (api_calls w') errors' ->
      openai' (api_calls w' + length errors') (join separator tickets')
      = Completed (Some text') ->
      JSON_parse text' = Some (JArray [v]) ->
      fst (summarise openai' JSON_parse tickets' w')
      = fst (summarise openai JSON_parse tickets w).
Proof.
  intros Hjson Hlt Hrec Hfails Hanswer Hparse Hnot.
  assert (Hwrapped : fst (summarise openai JSON_parse tickets w) = Return [v]).
  { rewrite (summarise_completed _ _ _ _ errors (Some text)) by assumption.
    cbv zeta. cbn [content_or_empty].
    destruct (is_empty text) eqn:Hempty.
    - apply is_empty_true in Hempty. subst text. congruence.
    - cbn [fst]. unfold parsed_tickets. rewrite Hparse.
      destruct v; try reflexivity. discriminate. }
  split; [exact Hwrapped |].
  intros openai' tickets' w' errors' text' Hlt' Hrec' Hfails' Hanswer' Hparse'.
  rewrite Hwrapped.
  rewrite (summarise_completed _ _ _ _ errors' (Some text')) by assumption.
  cbv zeta. cbn [content_or_empty].
  destruct (is_empty text') eqn:Hempty.
  - apply is_empty_true in Hempty. subst text'. congruence.
  - cbn [fst]. unfold parsed_tickets. now rewrite Hparse'.
Qed.

(** C5, at the answers {} and [{}]. *)
Lemma non_array_answer_wrapped_witness :
  fst (summarise (answering "{}") parse_sample ["ticket"] initial_world)
  = Return [JObject []]
  /\ fst (summarise (answering "[{}]") parse_sample ["ticket"] initial_world)
     = fst (summarise (answering "{}") parse_sample ["ticket"] initial_world).
Proof.
  destruct (non_array_answer_wrapped (answering "{}") parse_sample ["ticket"]
              initial_world [] "{}" (JObject []) eq_refl (Nat.lt_0_succ 4)
              (Forall_nil _) I eq_refl eq_refl eq_refl) as [Hwrapped Hsame].
  split; [exact Hwrapped |].
  exact (Hsame (answering "[{}]") ["ticket"] initial_world [] "[{}]"
               (Nat.lt_0_succ 4) (Forall_nil _) I eq_refl eq_refl).
Defined.



(** C1, as the code has it.  In a run of [summariseTickets] that returns,
    [summarise] is entered exactly ceil(n / 15) times for n tickets, and the
    completion service is called that many times plus once for every
    back-off sleep of the run.  In no run is [summarise] entered more often;
    the model's fuel never runs out; and with no ticket the run returns
    without entering [summarise] or calling the service. *)
Theorem completed_run_invocations
        (settles : nat -> nat -> nat)
        (openai : nat -> string -> Completion) (JSON_parse : string -> option json)
        (tickets : list Linear.Ticket) (w : World) :
  let run := summariseTickets settles openai JSON_parse tickets w in
  let n := div_ceil (length tickets) BATCH_SIZE in
  (forall out, fst run = Return out ->
     summarise_entered (snd run) = summarise_entered w + n
     /\ api_calls (snd run) + length (sleeps w)
        = api_calls w + n + length (sleeps (snd run)))
  /\ summarise_entered (snd run) <= summarise_entered w + n
  /\ fst run <> OutOfFuel
  /\ (tickets = [] ->
      run = (Return [], logged [Summarising_tickets 0] w)).
Proof.
  cbv zeta. unfold summariseTickets, bind, console_log.
  change (record [Printed (Summarising_tickets (length tickets))] w)
    with (logged [Summarising_tickets (length tickets)] w).
  pose proof (batch_loop_counts settles openai JSON_parse (length tickets) tickets 0 []
                (logged [Summarising_tickets (length tickets)] w)) as H.
  cbv zeta in H. rewrite Nat.sub_0_r in H.
  destruct (H (Nat.le_refl _)) as (Hno & Hle & Hret).
  rewrite sleeps_logged in Hret.
  cbn [logged record summarise_entered api_calls] in Hle, Hret.
  split; [exact Hret | split; [exact Hle | split; [exact Hno |]]].
  intros ->. reflexivity.
Qed.

(** C1, at sixteen tickets answered at once: two batches, two entries of
    [summarise], two calls of the service. *)
Lemma completed_run_invocations_witness :
  let run := summariseTickets in_turn (answering "[{}]") parse_sample sixteen_tickets
                              initial_world in
  fst run = Return [JObject []; JObject []]
  /\ summarise_entered (snd run) = 2
  /\ api_calls (snd run) = 2.
Proof.
  cbv zeta.
  assert (Hrun : fst (summariseTickets in_turn (answering "[{}]") parse_sample
                        sixteen_tickets initial_world)
                 = Return [JObject []; JObject []]) by (vm_compute; reflexivity).
  destruct (completed_run_invocations in_turn (answering "[{}]") parse_sample
              sixteen_tickets initial_world) as [Hret _].
  destruct (Hret _ Hrun) as [Hentered Hcalls].
  split; [exact Hrun | split; [exact Hentered |]].
  vm_compute in Hcalls. vm_compute. exact Hcalls.
Defined.

(** C1 as stated fails: with sixteen tickets and a service that refuses the
    key, the first batch throws; [summarise] is entered once and the
    service is called once, while ceil(16 / 15) = 2.  And with a service
    that is rate-limited once, the run returns after three calls of the
    service. *)
Lemma invocations_counterexample :
  let run := summariseTickets in_turn always_refusing parse_sample sixteen_tickets
                              initial_world in
  let retried_run := summariseTickets in_turn rate_limited_once parse_sample
                                      sixteen_tickets initial_world in
  fst run = Throw invalid_key
  /\ summarise_entered (snd run) = 1
  /\ api_calls (snd run) = 1
  /\ div_ceil (length sixteen_tickets) BATCH_SIZE = 2
  /\ summarise_entered (snd run) <> div_ceil (length sixteen_tickets) BATCH_SIZE
  /\ fst retried_run = Return [JObject []; JObject []]
  /\ api_calls (snd retried_run) = 3
  /\ api_calls (snd retried_run) <> div_ceil (length sixteen_tickets) BATCH_SIZE.
Proof.
  vm_compute. repeat split; try reflexivity; discriminate.
Qed.

(** ** Objects as maps *)

Lemma get_own_set_same {V} (o : JsObject V) (key : string) (v : V) :
  get_own (set o key v) key = Some v.
Proof.
  induction o as [| [k x] o IH]; cbn [set get_own].
  - now rewrite String.eqb_refl.
  - destruct (String.eqb k key) eqn:E; cbn [get_own]; rewrite E; [reflexivity | exact IH].
Qed.

Lemma set_set {V} (o : JsObject V) (key : string) (v v' : V) :
  set (set o key v) key v' = set o key v'.
Proof.
  induction o as [| [k x] o IH]; cbn [set].
  - now rewrite String.eqb_refl.
  - destruct (String.eqb k key) eqn:E; cbn [set]; rewrite E; [reflexivity | now rewrite IH].
Qed.

Lemma keys_set {V} (o : JsObject V) (key : string) (v : V) :
  map fst (set o key v)
  = match get_own o key with
    | Some _ => map fst o
    | None => map fst o ++ [key]
    end.
Proof.
  induction o as [| [k x] o IH]; cbn [set get_own map fst app]; [reflexivity |].
  destruct (String.eqb k key) eqn:E; cbn [map fst]; [reflexivity |].
  rewrite IH. destruct (get_own o key); reflexivity.
Qed.

Lemma get_own_none {V} (o : JsObject V) (key : string) :
  ~ In key (map fst o) -> get_own o key = None.
Proof.
  induction o as [| [k x] o IH]; cbn [get_own map fst In]; intro H; [reflexivity |].
  destruct (String.eqb_spec k key) as [-> | _].
  - exfalso. apply H. now left.
  - apply IH. intro Hin. apply H. now right.
Qed.

Lemma get_own_map {V} (f : string -> V) (keys : list string) (key : string) :
  In key keys -> get_own (map (fun k => (k, f k)) keys) key = Some (f key).
Proof.
  induction keys as [| k keys IH]; cbn [In map get_own]; [contradiction |].
  intros [-> | Hin].
  - now rewrite String.eqb_refl.
  - destruct (String.eqb_spec k key) as [-> | _]; [reflexivity | now apply IH].
Qed.

Lemma set_map_new {V} (f : string -> V) (keys : list string) (key : string) (v : V) :
  ~ In key keys ->
  set (map (fun k => (k, f k)) keys) key v = map (fun k => (k, f k)) keys ++ [(key, v)].
Proof.
  induction keys as [| k keys IH]; cbn [In map set app]; intro H; [reflexivity |].
  destruct (String.eqb_spec k key) as [-> | _].
  - exfalso. apply H. now left.
  - rewrite IH; [reflexivity | intro Hin; apply H; now right].
Qed.

Lemma set_map_old {V} (f g : string -> V) (keys : list string) (key : string) :
  NoDup keys ->
  In key keys ->
  (forall k, k <> key -> g k = f k) ->
  set (map (fun k => (k, f k)) keys) key (g key) = map (fun k => (k, g k)) keys.
Proof.
  intros Hnodup Hin Hsame.
  induction keys as [| k keys IH]; cbn [In map set] in *; [contradiction |].
  inversion Hnodup as [| ? ? Hnotin Hnodup']; subst.
  destruct (String.eqb_spec k key) as [-> | Hneq].
  - f_equal. apply map_ext_in. intros k Hk. f_equal. symmetry. apply Hsame.
    intros ->. contradiction.
  - rewrite (Hsame k Hneq). f_equal. apply IH; [assumption |].
    destruct Hin as [-> | Hin]; [contradiction | assumption].
Qed.

(** ** First-seen order *)

Lemma in_first_seen (names : list string) (name : string) :
  In name (first_seen names) <-> In name names.
Proof.
  induction names as [| x names IH]; cbn [first_seen In]; [tauto |].
  rewrite filter_In, IH, negb_true_iff, String.eqb_neq.
  destruct (string_dec x name) as [-> | Hneq]; [tauto |].
  split; [tauto |]. intros [-> | Hin]; [now left | right; split; congruence].
Qed.

Lemma NoDup_filter {A} (f : A -> bool) (l : list A) : NoDup l -> NoDup (filter f l).
Proof.
  induction 1 as [| x l Hnotin Hnodup IH]; cbn [filter]; [constructor |].
  destruct (f x); [| exact IH].
  constructor; [| exact IH]. rewrite filter_In. tauto.
Qed.

Lemma NoDup_first_seen (names : list string) : NoDup (first_seen names).
Proof.
  induction names as [| x names IH]; cbn [first_seen]; constructor.
  - rewrite filter_In, String.eqb_refl. cbn. intros [_ H]. discriminate.
  - now apply NoDup_filter.
Qed.

Lemma filter_snoc_others (names : list string) (x y : string) :
  filter (fun other => negb (String.eqb other y)) (names ++ [x])
  = filter (fun other => negb (String.eqb other y)) names
    ++ (if String.eqb x y then [] else [x]).
Proof.
  rewrite filter_app. cbn [filter]. now destruct (String.eqb x y).
Qed.

Lemma first_seen_snoc (names : list string) (x : string) :
  first_seen (names ++ [x])
  = if in_dec string_dec x names then first_seen names else first_seen names ++ [x].
Proof.
  induction names as [| y names IH].
  - cbn. reflexivity.
  - rewrite <- app_comm_cons. cbn [first_seen]. rewrite IH.
    destruct (in_dec string_dec x names) as [Hin | Hnotin];
      destruct (in_dec string_dec x (y :: names)) as [Hin' | Hnotin'].
    + reflexivity.
    + exfalso. apply Hnotin'. now right.
    + destruct Hin' as [-> | Hin]; [| contradiction].
      rewrite filter_snoc_others, String.eqb_refl, app_nil_r. reflexivity.
    + rewrite filter_snoc_others.
      destruct (String.eqb_spec x y) as [-> | _].
      * exfalso. apply Hnotin'. now left.
      * reflexivity.
Qed.

Lemma tickets_of_snoc (tickets : list SummarizedTicket) (ticket : SummarizedTicket)
      (name : string) :
  tickets_of name (tickets ++ [ticket])
  = tickets_of name tickets ++ (if String.eqb (project ticket) name then [ticket] else []).
Proof.
  unfold tickets_of. rewrite filter_app. cbn [filter].
  now destruct (String.eqb (project ticket) name).
Qed.

Lemma tickets_of_absent (tickets : list SummarizedTicket) (name : string) :
  ~ In name (map project tickets) -> tickets_of name tickets = [].
Proof.
  induction tickets as [| t tickets IH]; cbn [map In tickets_of filter]; intro H;
    [reflexivity |].
  destruct (String.eqb_spec (project t) name) as [E | _].
  - exfalso. apply H. now left.
  - apply IH. intro Hin. apply H. now right.
Qed.

(** The reduce builds [grouped]. *)
Lemma grouped_snoc (tickets : list SummarizedTicket) (ticket : SummarizedTicket) :
  grouped (tickets ++ [ticket]) = push (grouped tickets) ticket.
Proof.
  unfold grouped, push. rewrite map_app. cbn [map].
  rewrite first_seen_snoc.
  destruct (in_dec string_dec (project ticket) (map project tickets)) as [Hin | Hnotin].
  - rewrite get_own_map by (now apply in_first_seen).
    replace (tickets_of (project ticket) tickets ++ [ticket])
      with (tickets_of (project ticket) (tickets ++ [ticket]))
      by (now rewrite tickets_of_snoc, String.eqb_refl).
    rewrite (set_map_old (fun name => tickets_of name tickets)
                         (fun name => tickets_of name (tickets ++ [ticket])));
      [ reflexivity | apply NoDup_first_seen | now apply in_first_seen |].
    intros k Hk. rewrite tickets_of_snoc.
    destruct (String.eqb_spec (project ticket) k) as [E | _];
      [congruence | now rewrite app_nil_r].
  - rewrite get_own_none
      by (rewrite map_map; cbn [fst]; rewrite map_id, in_first_seen; exact Hnotin).
    rewrite set_map_new by (rewrite in_first_seen; exact Hnotin).
    rewrite map_app. cbn [map]. f_equal.
    + apply map_ext_in. intros k Hk. f_equal. rewrite tickets_of_snoc.
      destruct (String.eqb_spec (project ticket) k) as [E | _]; [| now rewrite app_nil_r].
      subst k. apply (proj1 (in_first_seen _ _)) in Hk. contradiction.
    + rewrite tickets_of_snoc, String.eqb_refl, tickets_of_absent by exact Hnotin.
      reflexivity.
Qed.

Lemma fold_push_grouped (tickets : list SummarizedTicket) :
  fold_left push tickets [] = grouped tickets.
Proof.
  induction tickets as [| ticket tickets IH] using rev_ind; [reflexivity |].
  now rewrite fold_left_app, IH, grouped_snoc.
Qed.

(** ** The formatter on summarised tickets *)

Lemma group_ticket_pushes (group : JsObject (list SummarizedTicket))
      (ticket : SummarizedTicket) (w : World) :
  inherited (project ticket) = false ->
  group_ticket SummarizedTicket field group ticket w = (Return (push group ticket), w).
Proof.
  intro Hown. unfold group_ticket, push, bind, property, get.
  cbn [field String.eqb Ascii.eqb Bool.eqb ret].
  destruct (get_own group (project ticket)) as [array |] eqn:Hget.
  - rewrite Hget. reflexivity.
  - rewrite Hown, get_own_set_same, set_set. reflexivity.
Qed.

Lemma group_ticket_throws (group : JsObject (list SummarizedTicket))
      (ticket : SummarizedTicket) (w : World) :
  inherited (project ticket) = true ->
  get_own group (project ticket) = None ->
  group_ticket SummarizedTicket field group ticket w = (Throw TypeError, w).
Proof.
  intros Hinherited Hget. unfold group_ticket, bind, property, get.
  cbn [field String.eqb Ascii.eqb Bool.eqb ret].
  rewrite Hget, Hinherited. cbv beta iota zeta.
  rewrite ?Hget, ?Hinherited. reflexivity.
Qed.

Lemma keys_push (group : JsObject (list SummarizedTicket)) (ticket : SummarizedTicket)
      (key : string) :
  In key (map fst (push group ticket)) ->
  In key (map fst group) \/ key = project ticket.
Proof.
  unfold push.
  destruct (get_own group (project ticket)) eqn:Hget; rewrite keys_set, Hget.
  - now left.
  - rewrite in_app_iff. cbn [In]. intros [H | [H | []]]; [now left | now right].
Qed.

(** The reduce: it throws exactly when a project is named like a member of
    Object.prototype. *)
Lemma reduce_tickets (tickets : list SummarizedTicket) :
  forall group w,
    (forall key, In key (map fst group) -> inherited key = false) ->
    foldM (group_ticket SummarizedTicket field) tickets group w
    = if no_inherited_name tickets
      then (Return (fold_left push tickets group), w)
      else (Throw TypeError, w).
Proof.
  induction tickets as [| ticket tickets IH]; intros group w Hkeys;
    cbn [foldM no_inherited_name forallb fold_left]; [reflexivity |].
  unfold bind.
  destruct (inherited (project ticket)) eqn:Hinherited; cbn [negb andb].
  - rewrite group_ticket_throws; [reflexivity | assumption |].
    apply get_own_none. intro Hin. apply Hkeys in Hin. congruence.
  - rewrite group_ticket_pushes by assumption.
    apply IH. intros key Hin.
    destruct (keys_push _ _ _ Hin) as [Hold | ->]; [now apply Hkeys | assumption].
Qed.

Lemma append_line_renders (resultString : string) (ticket : SummarizedTicket) (w : World) :
  append_line SummarizedTicket field resultString ticket w
  = (Return (resultString ++ render_line ticket)%string, w).
Proof. reflexivity. Qed.

Lemma append_lines_render (tickets : list SummarizedTicket) :
  forall resultString w,
    foldM (append_line SummarizedTicket field) tickets resultString w
    = (Return (resultString ++ render_lines tickets)%string, w).
Proof.
  induction tickets as [| ticket tickets IH]; intros resultString w; cbn [foldM].
  - unfold render_lines. cbn. now rewrite append_empty_r.
  - unfold bind. rewrite append_line_renders, IH.
    unfold render_lines. cbn [map]. now rewrite concat_empty_cons, append_assoc.
Qed.

Lemma in_insert_index (entry e : N * string) (sorted : list (N * string)) :
  In e (insert_index entry sorted) <-> e = entry \/ In e sorted.
Proof.
  induction sorted as [| x sorted IH]; cbn [insert_index In].
  - intuition congruence.
  - destruct (fst entry <=? fst x)%N; cbn [In]; rewrite ?IH; intuition congruence.
Qed.

Lemma in_ascending (entries : list (N * string)) (e : N * string) :
  In e (ascending entries) <-> In e entries.
Proof.
  unfold ascending.
  induction entries as [| x entries IH]; cbn [fold_right In]; [tauto |].
  rewrite in_insert_index, IH. intuition congruence.
Qed.

Lemma in_key_order (names : list string) (name : string) :
  In name (key_order names) -> In name names.
Proof.
  unfold key_order, index_entries. rewrite in_app_iff, in_map_iff, filter_In.
  intros [([n k] & Hsnd & Hin) | [Hin _]]; [| assumption].
  cbn [snd] in Hsnd. subst k. apply (proj1 (in_ascending _ _)) in Hin.
  apply (proj1 (in_flat_map _ _ _)) in Hin. destruct Hin as (key & Hkey & Hentry).
  destruct (array_index key); cbn [In] in Hentry; [| contradiction].
  destruct Hentry as [E | []]. now inversion E; subst.
Qed.

Lemma keys_grouped (tickets : list SummarizedTicket) :
  map fst (grouped tickets) = first_seen (map project tickets).
Proof.
  unfold grouped. rewrite map_map. cbn [fst]. apply map_id.
Qed.

Lemma get_grouped (tickets : list SummarizedTicket) (name : string) :
  In name (map project tickets) ->
  get (grouped tickets) name = Own (tickets_of name tickets).
Proof.
  intro Hin. unfold get, grouped.
  rewrite get_own_map by (now apply in_first_seen). reflexivity.
Qed.

Lemma render_project_renders (tickets : list SummarizedTicket) (name : string)
      (resultString : string) (w : World) :
  In name (map project tickets) ->
  render_project SummarizedTicket field (grouped tickets) resultString name w
  = (Return (resultString ++ render_group name (tickets_of name tickets))%string,
     logged [Found_tickets_for_project (length (tickets_of name tickets)) name] w).
Proof.
  intro Hin. unfold render_project. rewrite get_grouped by assumption.
  unfold bind at 1. rewrite append_lines_render.
  unfold bind, console_log, ret, logged, render_group.
  rewrite !append_assoc. reflexivity.
Qed.

(** The loop over the keys, from any value of [resultString]. *)
Lemma render_keys (tickets : list SummarizedTicket) (names : list string) :
  (forall name, In name names -> In name (map project tickets)) ->
  forall resultString w,
    foldM (render_project SummarizedTicket field (grouped tickets)) names resultString w
    = (Return (resultString ++ render_groups names tickets)%string,
       logged (found_lines names tickets) w).
Proof.
  induction names as [| name names IH]; intros Hnames resultString w; cbn [foldM].
  - unfold render_groups, found_lines, logged, record, ret. cbn [map String.concat].
    rewrite append_empty_r, app_nil_r. now destruct w.
  - unfold bind. rewrite render_project_renders by (apply Hnames; now left).
    rewrite IH by (intros k Hk; apply Hnames; now right).
    unfold render_groups, found_lines, logged, record.
    cbn [map api_calls tracker_calls summarise_entered trace].
    rewrite concat_empty_cons, <- app_assoc, append_assoc. reflexivity.
Qed.

Lemma enhancement_present (tickets : list SummarizedTicket) :
  existsb (fun ticket => String.eqb (project ticket) "Enhancement") tickets = true
  <-> In "Enhancement" (map project tickets).
Proof.
  rewrite existsb_exists, in_map_iff.
  split; intros (t & H1 & H2).
  - exists t. apply String.eqb_eq in H2. tauto.
  - exists t. split; [assumption |]. now apply String.eqb_eq.
Qed.

(** What [formatReleaseNote] does on summarised tickets. *)
Lemma formatReleaseNote_spec (tickets : list SummarizedTicket) (w : World) :
  formatReleaseNote SummarizedTicket field tickets w
  = if no_inherited_name tickets
    then (Return (release_note tickets),
          logged (found_lines (key_order (first_seen (map project tickets))) tickets) w)
    else (Throw TypeError, w).
Proof.
  unfold formatReleaseNote. unfold bind at 1.
  rewrite reduce_tickets by (cbn; contradiction).
  destruct (no_inherited_name tickets); [| reflexivity].
  rewrite fold_push_grouped. unfold bind at 1.
  unfold Object_keys. rewrite keys_grouped.
  fold (key_order (first_seen (map project tickets))).
  rewrite render_keys
    by (intros name Hin; apply in_key_order in Hin; now apply in_first_seen).
  cbn [append]. unfold release_note, enhancements_again.
  destruct (existsb (fun ticket => String.eqb (project ticket) "Enhancement") tickets)
    eqn:Hexists.
  - rewrite get_grouped by (now apply enhancement_present).
    unfold bind. rewrite append_lines_render. unfold ret.
    rewrite !append_assoc. reflexivity.
  - unfold get. rewrite get_own_none.
    + cbn. now rewrite append_empty_r.
    + rewrite keys_grouped, in_first_seen, <- enhancement_present. congruence.
Qed.



Lemma key_order_without_index (names : list string) :
  forallb (fun name => negb (is_index name)) names = true ->
  key_order names = names.
Proof.
  intro Hnone. unfold key_order.
  assert (Hentries : index_entries names = []).
  { unfold index_entries. induction names as [| name names IH]; [reflexivity |].
    cbn [forallb] in Hnone. apply andb_true_iff in Hnone. destruct Hnone as [H1 H2].
    cbn [flat_map]. rewrite (IH H2). unfold is_index in H1.
    destruct (array_index name); [discriminate | reflexivity]. }
  rewrite Hentries. cbn [ascending fold_right map app].
  induction names as [| name names IH]; [reflexivity |].
  cbn [forallb] in Hnone. apply andb_true_iff in Hnone. destruct Hnone as [H1 H2].
  cbn [filter]. rewrite H1. f_equal. apply IH; [assumption |].
  unfold index_entries in *. cbn [flat_map] in Hentries.
  apply app_eq_nil in Hentries. tauto.
Qed.

Lemma returned_note (tickets : list SummarizedTicket) (w : World) (out : string) :
  fst (formatReleaseNote SummarizedTicket field tickets w) = Return out ->
  no_inherited_name tickets = true /\ out = release_note tickets.
Proof.
  rewrite formatReleaseNote_spec.
  destruct (no_inherited_name tickets); cbn [fst]; intro H; [| discriminate].
  inversion H. tauto.
Qed.

(** ** Properties of the formatter *)





(** C9, as the code has it.  When [formatReleaseNote] returns, the groups
    stand in the order of [Object.keys]: the projects whose name is an
    array index first, by ascending number, then the other projects in
    first-seen order; so with no such name the groups are in first-seen
    order.  Within a group the tickets stand in input order: when the input
    is an earlier part followed by a later part, the lines of the earlier
    part's tickets come before the lines of the later part's. *)
Theorem groups_in_key_order
        (tickets : list SummarizedTicket) (w : World) (out : string) :
  fst (formatReleaseNote SummarizedTicket field tickets w) = Return out ->
  out = (render_groups
           (map snd (ascending (index_entries (first_seen (map project tickets))))
            ++ filter (fun key => negb (is_index key))
                      (first_seen (map project tickets)))
           tickets
         ++ enhancements_again tickets)%string
  /\ (forallb (fun ticket => negb (is_index (project ticket))) tickets = true ->
      out = (render_groups (first_seen (map project tickets)) tickets
             ++ enhancements_again tickets)%string)
  /\ (forall name earlier later,
        tickets = earlier ++ later ->
        render_lines (tickets_of name tickets)
        = (render_lines (tickets_of name earlier)
           ++ render_lines (tickets_of name later))%string).
Proof.
  intro Hrun. destruct (returned_note _ _ _ Hrun) as [_ ->].
  split; [reflexivity | split].
  - intro Hnone. unfold release_note. rewrite key_order_without_index; [reflexivity |].
    apply forallb_forall. intros name Hname.
    apply in_first_seen, in_map_iff in Hname. destruct Hname as (t & <- & Ht).
    exact (proj1 (forallb_forall _ _) Hnone t Ht).
  - intros name earlier later ->.
    unfold tickets_of, render_lines.
    now rewrite filter_app, map_app, concat_empty_app.
Qed.

(** C9, at a note of two projects without an array index among the names,
    given as a first batch of two tickets and a second of one. *)
Lemma groups_in_key_order_witness :
  release_note [website_ticket; api_ticket; website_ticket]
  = (render_groups ["Website"; "API"] [website_ticket; api_ticket; website_ticket])%string
  /\ render_lines (tickets_of "Website" [website_ticket; api_ticket; website_ticket])
     = (render_lines (tickets_of "Website" [website_ticket; api_ticket])
        ++ render_lines (tickets_of "Website" [website_ticket]))%string.
Proof.
  destruct (groups_in_key_order [website_ticket; api_ticket; website_ticket]
              initial_world
              (release_note [website_ticket; api_ticket; website_ticket]) eq_refl)
    as (_ & Hfirst & Hbatches).
  split.
  - rewrite (Hfirst eq_refl). reflexivity.
  - exact (Hbatches "Website" [website_ticket; api_ticket] [website_ticket] eq_refl).
Defined.

(** C9 as stated fails: "Website" is seen first and "2024" second, and the
    note starts with the group of "2024". *)
Lemma first_seen_order_counterexample :
  first_seen (map project [website_ticket; roadmap_ticket]) = ["Website"; "2024"]
  /\ fst (formatReleaseNote SummarizedTicket field [website_ticket; roadmap_ticket]
                            initial_world)
     = Return ("*2024*:" ++ nl
               ++ "[Planning] Plan the year - [E-4](https://x/E-4)" ++ nl ++ nl
               ++ "*Website*:" ++ nl
               ++ "[Layout] Fix the footer - [E-3](https://x/E-3)" ++ nl ++ nl)%string
  /\ fst (formatReleaseNote SummarizedTicket field [website_ticket; roadmap_ticket]
                            initial_world)
     <> Return (first_seen_note [website_ticket; roadmap_ticket]).
Proof.
  split; [reflexivity | split; [vm_compute; reflexivity |]].
  vm_compute. discriminate.
Qed.

(** ** Fetching *)

Section Fetching.

Variable linear_projects : nat -> Reply (list Linear.Project).
Variable linear_issues : nat -> IssuesFilter -> Reply (list Linear.Ticket).

Lemma getAllTicketsForProject_fetches project columnName w :
  getAllTicketsForProject linear_issues project columnName w
  = let reply := linear_issues (tracker_calls w)
                   (mkFilter LINEAR_TEAM (Some (Linear.id project)) columnName 250) in
    (Return (fetched reply),
     logged [project_fetch_line project columnName reply] (tracked w)).
Proof.
  unfold getAllTicketsForProject, try_catch, bind, query. cbv zeta.
  destruct (linear_issues (tracker_calls w) _) as [[| ticket nodes] | error];
    reflexivity.
Qed.

Lemma getAllUnprojectedTickets_fetches columnName w :
  getAllUnprojectedTickets linear_issues columnName w
  = let reply := linear_issues (tracker_calls w)
                   (mkFilter LINEAR_TEAM None columnName 250) in
    (Return (fetched reply),
     logged [unprojected_fetch_line columnName reply] (tracked w)).
Proof.
  unfold getAllUnprojectedTickets, try_catch, bind, query. cbv zeta.
  destruct (linear_issues (tracker_calls w) _) as [[| ticket nodes] | error];
    reflexivity.
Qed.

Lemma getAllProjects_fetches w :
  exists w',
    getAllProjects linear_projects w = (Return (fetched (linear_projects (tracker_calls w))), w')
    /\ tracker_calls w' = S (tracker_calls w).
Proof.
  unfold getAllProjects, try_catch, bind, query.
  destruct (linear_projects (tracker_calls w)) as [nodes | error];
    eexists; split; reflexivity.
Qed.

Lemma fetch_project_fetches allTickets project w :
  exists w',
    fetch_project linear_issues allTickets project w
    = (Return (allTickets
               ++ fetched_columns linear_issues (tracker_calls w)
                                  (Some (Linear.id project))), w')
    /\ tracker_calls w' = tracker_calls w + 5.
Proof.
  unfold fetch_project, bind.
  repeat (rewrite getAllTicketsForProject_fetches; cbv beta iota zeta;
          cbn [logged record tracked tracker_calls]).
  eexists. split.
  - unfold ret, fetched_columns.
    replace (tracker_calls w + 1) with (S (tracker_calls w)) by lia.
    replace (tracker_calls w + 2) with (S (S (tracker_calls w))) by lia.
    replace (tracker_calls w + 3) with (S (S (S (tracker_calls w)))) by lia.
    replace (tracker_calls w + 4) with (S (S (S (S (tracker_calls w))))) by lia.
    reflexivity.
  - cbn [logged record tracked tracker_calls]. lia.
Qed.

Lemma fetch_projects_fetch projects :
  forall allTickets w,
  exists w',
    foldM (fetch_project linear_issues) projects allTickets w
    = (Return (allTickets ++ fetched_projects linear_issues (tracker_calls w) projects),
       w')
    /\ tracker_calls w' = tracker_calls w + 5 * length projects.
Proof.
  induction projects as [| project projects IH]; intros allTickets w;
    cbn [foldM fetched_projects length].
  - exists w. rewrite app_nil_r. split; [reflexivity | lia].
  - unfold bind.
    destruct (fetch_project_fetches allTickets project w) as (w1 & -> & Hcalls).
    destruct (IH (allTickets ++ fetched_columns linear_issues (tracker_calls w)
                                                 (Some (Linear.id project))) w1)
      as (w2 & -> & Hcalls').
    exists w2. rewrite Hcalls, <- app_assoc. split; [reflexivity | lia].
Qed.

Lemma fetchAllTickets_fetches w :
  exists w',
    fetchAllTickets linear_projects linear_issues w
    = (Return (all_fetched linear_projects linear_issues (tracker_calls w)), w').
Proof.
  unfold fetchAllTickets. unfold bind at 1.
  destruct (getAllProjects_fetches w) as (w1 & -> & Hcalls1).
  unfold bind at 1.
  destruct (fetch_projects_fetch (fetched (linear_projects (tracker_calls w))) [] w1)
    as (w2 & -> & Hcalls2).
  unfold bind.
  repeat (rewrite getAllUnprojectedTickets_fetches; cbv beta iota zeta;
          cbn [logged record tracked tracker_calls]).
  eexists. unfold ret, all_fetched, fetched_columns. cbn [app].
  rewrite Hcalls2, Hcalls1.
  replace (S (tracker_calls w) + 5 * length (fetched (linear_projects (tracker_calls w))) + 1)
    with (S (S (tracker_calls w) + 5 * length (fetched (linear_projects (tracker_calls w)))))
    by lia.
  replace (S (tracker_calls w) + 5 * length (fetched (linear_projects (tracker_calls w))) + 2)
    with (S (S (S (tracker_calls w) + 5 * length (fetched (linear_projects (tracker_calls w))))))
    by lia.
  replace (S (tracker_calls w) + 5 * length (fetched (linear_projects (tracker_calls w))) + 3)
    with (S (S (S (S (tracker_calls w) + 5 * length (fetched (linear_projects (tracker_calls w)))))))
    by lia.
  replace (S (tracker_calls w) + 5 * length (fetched (linear_projects (tracker_calls w))) + 4)
    with (S (S (S (S (S (tracker_calls w) + 5 * length (fetched (linear_projects (tracker_calls w))))))))
    by lia.
  reflexivity.
Qed.

End Fetching.

(** ** Properties of the fetcher and of the run *)

(** C6.  When the tracker rejects the query of [getAllTicketsForProject]
    or of [getAllUnprojectedTickets], the function logs the error and
    returns the empty sequence.  So the fetching part of
    [generateReleaseNote] always returns: its tickets are those of the
    answered queries in query order, a rejected query adding none, and the
    run goes on to summarise and format them. *)
Theorem fetch_failure_contributes_nothing
        (linear_projects : nat -> Reply (list Linear.Project))
        (linear_issues : nat -> IssuesFilter -> Reply (list Linear.Ticket))
        (settles : nat -> nat -> nat)
        (openai : nat -> string -> Completion) (JSON_parse : string -> option json) :
  (forall project columnName w error,
      linear_issues (tracker_calls w)
                    (mkFilter LINEAR_TEAM (Some (Linear.id project)) columnName 250)
      = Rejected error ->
      getAllTicketsForProject linear_issues project columnName w
      = (Return [],
         logged [Error_fetching_issues (Linear.name project) columnName error]
                (tracked w)))
  /\ (forall columnName w error,
        linear_issues (tracker_calls w) (mkFilter LINEAR_TEAM None columnName 250)
        = Rejected error ->
        getAllUnprojectedTickets linear_issues columnName w
        = (Return [],
           logged [Error_fetching_unprojected columnName error] (tracked w)))
  /\ (forall w,
        exists w',
          fetchAllTickets linear_projects linear_issues w
          = (Return (all_fetched linear_projects linear_issues (tracker_calls w)), w')
          /\ generateReleaseNote linear_projects linear_issues settles openai JSON_parse w
             = (summarisedTickets <-
                  summariseTickets settles openai JSON_parse
                    (all_fetched linear_projects linear_issues (tracker_calls w)) ;;
                releaseNote <- formatReleaseNote json read_json summarisedTickets ;;
                console_log Final_release_note ;;
                console_log (Release_note_text releaseNote)) w').
Proof.
  split; [| split].
  - intros project columnName w error Hrejected.
    rewrite getAllTicketsForProject_fetches. cbv zeta. now rewrite Hrejected.
  - intros columnName w error Hrejected.
    rewrite getAllUnprojectedTickets_fetches. cbv zeta. now rewrite Hrejected.
  - intro w.
    destruct (fetchAllTickets_fetches linear_projects linear_issues w) as (w' & Hfetch).
    exists w'. split; [exact Hfetch |].
    unfold generateReleaseNote. unfold bind at 1. now rewrite Hfetch.
Qed.

(** C6, at a tracker that rejects the query for the Done column of its one
    project: the fetch returns no ticket and logs the error, and the run
    fetches the three tickets of the other columns. *)
Lemma fetch_failure_contributes_nothing_witness :
  getAllTicketsForProject tracker_issues sample_project LINEAR_DONE_COLUMN initial_world
  = (Return [],
     mkWorld 0 1 0
             [Queried 0;
              Printed (Error_fetching_issues "API" "Done"
                         (ClientError CodeUndefined "socket hang up"))])
  /\ fst (fetchAllTickets tracker_projects tracker_issues initial_world)
     = Return [sample_ticket 1; sample_ticket 2; sample_ticket 3].
Proof.
  destruct (fetch_failure_contributes_nothing tracker_projects tracker_issues
              in_turn always_refusing parse_sample) as (Hproject & _ & Hrun).
  split.
  - exact (Hproject sample_project LINEAR_DONE_COLUMN initial_world
                    (ClientError CodeUndefined "socket hang up") eq_refl).
  - destruct (Hrun initial_world) as (w' & Hfetch & _).
    rewrite Hfetch. reflexivity.
Defined.

(** A whole run, at the sample tracker and a service that answers [{}] to
    the one batch: the element has none of the five properties, and each
    reads undefined. *)
Example generateReleaseNote_sample :
  let run := generateReleaseNote tracker_projects tracker_issues in_turn
                                 (answering "[{}]") parse_sample initial_world in
  fst run = Return tt
  /\ api_calls (snd run) = 1
  /\ tracker_calls (snd run) = 11
  /\ last (trace (snd run)) (Queried 0)
     = Printed (Release_note_text
                  ("*undefined*:" ++ nl
                   ++ "[undefined] undefined - [undefined](undefined)" ++ nl ++ nl)).
Proof.
  vm_compute. repeat split.
Qed.

(** ** More on fetching *)

Lemma fetched_world_again (w : World) (k k' : nat) (events events' : list Event) :
  fetched_world (fetched_world w k events) k' events'
  = fetched_world w (k' + k) (events ++ events').
Proof.
  unfold fetched_world. cbn [api_calls tracker_calls summarise_entered trace].
  f_equal; [lia | now rewrite app_assoc].
Qed.

Lemma sleeps_of_fetch_events (events : list Event) :
  forallb fetch_event events = true -> sleeps_of events = [].
Proof.
  induction events as [| event events IH]; [reflexivity |].
  cbn [forallb]. intro H. apply andb_true_iff in H. destruct H as [Hevent Hrest].
  destruct event; try discriminate; cbn; now apply IH.
Qed.

Lemma fetches_ret {A} (x : A) : fetches 0 (ret x).
Proof.
  intro w. exists x, []. split; [| reflexivity].
  unfold ret, fetched_world. cbn [Nat.add]. rewrite app_nil_r. now destruct w.
Qed.

Lemma fetches_bind {A B} (k k' : nat) (m : M A) (f : A -> M B) :
  fetches k m -> (forall x, fetches k' (f x)) -> fetches (k' + k) (bind m f).
Proof.
  intros Hm Hf w. unfold bind.
  destruct (Hm w) as (x & events & -> & Hevents).
  destruct (Hf x (fetched_world w k events)) as (y & events' & -> & Hevents').
  exists y, (events ++ events'). rewrite fetched_world_again.
  split; [reflexivity |]. rewrite forallb_app. now rewrite Hevents, Hevents'.
Qed.

Lemma fetches_count {A} (k k' : nat) (m : M A) : k = k' -> fetches k m -> fetches k' m.
Proof. now intros ->. Qed.

Lemma fetches_foldM {X S} (k : nat) (f : S -> X -> M S) (l : list X) :
  (forall s x, fetches k (f s x)) ->
  forall s, fetches (k * length l) (foldM f l s).
Proof.
  intro Hf. induction l as [| x l IH]; intro s; cbn [foldM length].
  - rewrite Nat.mul_0_r. apply fetches_ret.
  - apply (fetches_count (k * length l + k)); [lia |].
    apply fetches_bind; [apply Hf | exact IH].
Qed.

Section MoreFetching.

Variable linear_projects : nat -> Reply (list Linear.Project).
Variable linear_issues : nat -> IssuesFilter -> Reply (list Linear.Ticket).

Lemma getAllProjects_exact w :
  getAllProjects linear_projects w
  = let reply := linear_projects (tracker_calls w) in
    (Return (fetched reply), logged [projects_line reply] (tracked w)).
Proof.
  unfold getAllProjects, try_catch, bind, query. cbv zeta.
  destruct (linear_projects (tracker_calls w)) as [nodes | error]; reflexivity.
Qed.

Lemma one_query_world (line : ConsoleLine) (w : World) :
  logged [line] (tracked w) = fetched_world w 1 [Queried (tracker_calls w); Printed line].
Proof.
  unfold logged, record, tracked, fetched_world.
  cbn [api_calls tracker_calls summarise_entered trace map Nat.add].
  now rewrite <- app_assoc.
Qed.

Lemma getAllProjects_fetches_one : fetches 1 (getAllProjects linear_projects).
Proof.
  intro w. rewrite getAllProjects_exact. cbv zeta. rewrite one_query_world.
  eexists _, _. split; reflexivity.
Qed.

Lemma getAllTicketsForProject_fetches_one project columnName :
  fetches 1 (getAllTicketsForProject linear_issues project columnName).
Proof.
  intro w. rewrite getAllTicketsForProject_fetches. cbv zeta. rewrite one_query_world.
  eexists _, _. split; reflexivity.
Qed.

Lemma getAllUnprojectedTickets_fetches_one columnName :
  fetches 1 (getAllUnprojectedTickets linear_issues columnName).
Proof.
  intro w. rewrite getAllUnprojectedTickets_fetches. cbv zeta. rewrite one_query_world.
  eexists _, _. split; reflexivity.
Qed.

Lemma fetch_project_fetches_five allTickets project :
  fetches 5 (fetch_project linear_issues allTickets project).
Proof.
  unfold fetch_project.
  apply (fetches_count (((((0 + 1) + 1) + 1) + 1) + 1)); [reflexivity |].
  repeat (apply fetches_bind;
          [apply getAllTicketsForProject_fetches_one | intro]).
  apply fetches_ret.
Qed.

(** The world after the fetching part of the run. *)
Lemma fetchAllTickets_world w :
  exists events,
    fetchAllTickets linear_projects linear_issues w
    = (Return (all_fetched linear_projects linear_issues (tracker_calls w)),
       fetched_world w (6 + 5 * length (fetched (linear_projects (tracker_calls w))))
                     events)
    /\ forallb fetch_event events = true.
Proof.
  destruct (fetchAllTickets_fetches linear_projects linear_issues w) as (w' & Hrun).
  rewrite Hrun.
  assert (Hworld :
            exists x events,
              fetchAllTickets linear_projects linear_issues w
              = (Return x,
                 fetched_world w
                   (6 + 5 * length (fetched (linear_projects (tracker_calls w)))) events)
              /\ forallb fetch_event events = true).
  { clear w' Hrun. unfold fetchAllTickets. unfold bind at 1.
    rewrite getAllProjects_exact. cbv zeta. rewrite one_query_world.
    set (projects := fetched (linear_projects (tracker_calls w))).
    set (w1 := fetched_world w 1 _).
    match goal with
    | |- context [bind ?m ?f w1] =>
        assert (Hrest : fetches (((((0 + 1) + 1) + 1) + 1) + 1 + 5 * length projects)
                                (bind m f))
    end.
    { apply fetches_bind; [apply fetches_foldM; apply fetch_project_fetches_five |].
      intro allTickets.
      repeat (apply fetches_bind;
              [apply getAllUnprojectedTickets_fetches_one | intro]).
      apply fetches_ret. }
    destruct (Hrest w1) as (x & events & -> & Hevents).
    subst w1. rewrite fetched_world_again.
    eexists x, _. split; [f_equal; f_equal; lia |].
    rewrite forallb_app. now rewrite Hevents. }
  destruct Hworld as (x & events & Hworld & Hevents).
  exists events. rewrite Hrun in Hworld. inversion Hworld; subst.
  split; [reflexivity | exact Hevents].
Qed.

End MoreFetching.

(** X1.  When the listing of the projects is rejected, [getAllProjects]
    logs the error and returns no project, and the run fetches the tickets
    without project only: the fetching makes six queries in all, the
    tickets being those of the five queries that follow the listing. *)
Theorem rejected_listing_leaves_unprojected
        (linear_projects : nat -> Reply (list Linear.Project))
        (linear_issues : nat -> IssuesFilter -> Reply (list Linear.Ticket))
        (w : World) (error : Thrown) :
  linear_projects (tracker_calls w) = Rejected error ->
  getAllProjects linear_projects w
  = (Return [], logged [Error_fetching_projects error] (tracked w))
  /\ fst (fetchAllTickets linear_projects linear_issues w)
     = Return (fetched_columns linear_issues (S (tracker_calls w)) None)
  /\ tracker_calls (snd (fetchAllTickets linear_projects linear_issues w))
     = tracker_calls w + 6.
Proof.
  intro Hrejected. split; [| split].
  - rewrite getAllProjects_exact. cbv zeta. now rewrite Hrejected.
  - destruct (fetchAllTickets_world linear_projects linear_issues w)
      as (events & -> & _).
    cbn [fst]. unfold all_fetched. rewrite Hrejected.
    cbn [fetched fetched_projects length app]. do 2 f_equal. lia.
  - destruct (fetchAllTickets_world linear_projects linear_issues w)
      as (events & -> & _).
    rewrite Hrejected. cbn [snd fetched length fetched_world tracker_calls]. lia.
Qed.

(** X1, at a tracker whose listing fails: the one ticket without project
    is fetched, the tickets of projects are not asked for. *)
Lemma rejected_listing_leaves_unprojected_witness :
  getAllProjects listing_fails initial_world
  = (Return [],
     mkWorld 0 1 0
             [Queried 0;
              Printed (Error_fetching_projects
                         (ClientError CodeUndefined "socket hang up"))])
  /\ fst (fetchAllTickets listing_fails unprojected_issues initial_world)
     = Return [sample_ticket 4]
  /\ tracker_calls (snd (fetchAllTickets listing_fails unprojected_issues initial_world))
     = 6.
Proof.
  exact (rejected_listing_leaves_unprojected listing_fails unprojected_issues
           initial_world (ClientError CodeUndefined "socket hang up") eq_refl).
Defined.

(** X2.  The fetching part of [generateReleaseNote] queries the tracker
    once for the projects and five times for each project listed and five
    times more, whatever the answers; it calls the completion service
    never, sleeps never, and besides querying only prints. *)
Theorem fetching_queries
        (linear_projects : nat -> Reply (list Linear.Project))
        (linear_issues : nat -> IssuesFilter -> Reply (list Linear.Ticket))
        (w : World) :
  let run := fetchAllTickets linear_projects linear_issues w in
  tracker_calls (snd run)
  = tracker_calls w + 6 + 5 * length (fetched (linear_projects (tracker_calls w)))
  /\ api_calls (snd run) = api_calls w
  /\ summarise_entered (snd run) = summarise_entered w
  /\ sleeps (snd run) = sleeps w
  /\ exists events,
      trace (snd run) = trace w ++ events
      /\ forallb fetch_event events = true.
Proof.
  cbv zeta.
  destruct (fetchAllTickets_world linear_projects linear_issues w)
    as (events & -> & Hevents).
  cbn [snd]. split; [| split; [| split; [| split]]].
  - cbn [fetched_world tracker_calls]. lia.
  - reflexivity.
  - reflexivity.
  - unfold sleeps, fetched_world. cbn [trace].
    now rewrite sleeps_of_app, (sleeps_of_fetch_events _ Hevents), app_nil_r.
  - exists events. now split.
Qed.

Lemma summariseTickets_nothing
      (settles : nat -> nat -> nat)
      (openai : nat -> string -> Completion) (JSON_parse : string -> option json)
      (w : World) :
  summariseTickets settles openai JSON_parse [] w
  = (Return [], logged [Summarising_tickets 0] w).
Proof. reflexivity. Qed.

Lemma formatReleaseNote_nothing (T : Type) (read : T -> string -> option string)
      (w : World) :
  formatReleaseNote T read [] w = (Return "", w).
Proof. reflexivity. Qed.

(** X3.  When no query yields a ticket, [generateReleaseNote] returns
    without calling the completion service: after the fetching it prints
    that it summarises 0 tickets, then the heading and the empty release
    note. *)
Theorem run_without_tickets
        (linear_projects : nat -> Reply (list Linear.Project))
        (linear_issues : nat -> IssuesFilter -> Reply (list Linear.Ticket))
        (settles : nat -> nat -> nat)
        (openai : nat -> string -> Completion) (JSON_parse : string -> option json)
        (w : World) :
  all_fetched linear_projects linear_issues (tracker_calls w) = [] ->
  exists events,
    generateReleaseNote linear_projects linear_issues settles openai JSON_parse w
    = (Return tt,
       fetched_world w
         (6 + 5 * length (fetched (linear_projects (tracker_calls w))))
         (events ++ [ Printed (Summarising_tickets 0);
                      Printed Final_release_note;
                      Printed (Release_note_text "") ]))
    /\ forallb fetch_event events = true.
Proof.
  intro Hnone.
  destruct (fetchAllTickets_world linear_projects linear_issues w)
    as (events & Hfetch & Hevents).
  exists events. split; [| exact Hevents].
  unfold generateReleaseNote. unfold bind at 1. rewrite Hfetch, Hnone.
  unfold bind at 1. rewrite summariseTickets_nothing.
  unfold bind at 1. rewrite formatReleaseNote_nothing.
  unfold bind, console_log, logged, record, fetched_world.
  cbn [api_calls tracker_calls summarise_entered trace map].
  rewrite <- !app_assoc. reflexivity.
Qed.

(** X3, at a tracker with one project and no ticket in any column. *)
Lemma run_without_tickets_witness :
  exists events,
    generateReleaseNote tracker_projects no_issues in_turn always_refusing parse_sample
                        initial_world
    = (Return tt,
       mkWorld 0 11 0
               (events ++ [ Printed (Summarising_tickets 0);
                            Printed Final_release_note;
                            Printed (Release_note_text "") ]))
    /\ forallb fetch_event events = true.
Proof.
  exact (run_without_tickets tracker_projects no_issues in_turn always_refusing
           parse_sample initial_world eq_refl).
Defined.

(** ** More on the summariser *)

Section MoreSummariser.

Variable openai : nat -> string -> Completion.
Variable JSON_parse : string -> option json.

(** Every call of [summarise] is one of three: all attempts retried, an
    attempt completed, an attempt failed for good. *)
Lemma summarise_cases tickets w :
  let user := join separator tickets in
  exists errors,
    Forall (fun error => recoverable error = true) errors
    /\ fails_with openai user (api_calls w) errors
    /\ ((length errors = maxRetries
         /\ summarise openai JSON_parse tickets w
            = (Throw terminal_error, retried user errors 0 (entered w)))
        \/ (length errors < maxRetries
            /\ exists content,
                openai (api_calls w + length errors) user = Completed content
                /\ summarise openai JSON_parse tickets w
                   = let w' := called user (retried user errors 0 (entered w)) in
                     if is_empty (content_or_empty content)
                     then (Throw terminal_error, w')
                     else (Return (parsed_tickets JSON_parse (content_or_empty content)),
                           after_parse JSON_parse (content_or_empty content) w'))
        \/ (length errors < maxRetries
            /\ exists error,
                openai (api_calls w + length errors) user = Failed error
                /\ recoverable error = false
                /\ summarise openai JSON_parse tickets w
                   = (Throw error,
                      logged [Error_querying_OpenAI error]
                             (called user (retried user errors 0 (entered w)))))).
Proof.
  cbv zeta.
  destruct (failures_then_decisive openai (join separator tickets) maxRetries (api_calls w))
    as (errors & Hlen & Hrec & Hfails & Hdec).
  exists errors. split; [exact Hrec | split; [exact Hfails |]].
  destruct (Nat.eq_dec (length errors) maxRetries) as [Hfull | Hless].
  - left. split; [exact Hfull |]. now apply summarise_exhausted.
  - assert (Hlt : length errors < maxRetries) by lia.
    specialize (Hdec Hlt). unfold decisive in Hdec.
    destruct (openai (api_calls w + length errors) (join separator tickets))
      as [content | error] eqn:Hanswer.
    + right. left. split; [exact Hlt |]. exists content. split; [reflexivity |].
      now apply (summarise_completed openai JSON_parse tickets w errors content).
    + right. right. split; [exact Hlt |]. exists error.
      split; [reflexivity | split; [exact Hdec |]].
      now apply (summarise_rethrown openai JSON_parse tickets w errors error).
Qed.

Lemma total_wait_backoff (m : nat) :
  m <= maxRetries -> (total_wait (map backoff_ms (seq 0 m)) <= 31000)%Z.
Proof.
  unfold maxRetries. intro H.
  do 6 (destruct m as [| m]; [vm_compute; discriminate |]). lia.
Qed.

Lemma total_wait_app (waits waits' : list Z) :
  total_wait (waits ++ waits') = (total_wait waits + total_wait waits')%Z.
Proof.
  unfold total_wait. induction waits as [| x waits IH]; cbn [app fold_right];
    [reflexivity | rewrite IH; lia].
Qed.

Lemma summarise_bounds tickets w :
  let run := summarise openai JSON_parse tickets w in
  exists waits,
    sleeps (snd run) = sleeps w ++ waits
    /\ length waits <= 5
    /\ (total_wait waits <= 31000)%Z
    /\ api_calls w + 1 <= api_calls (snd run) <= api_calls w + 5.
Proof.
  cbv zeta.
  destruct (summarise_cases tickets w) as (errors & Hrec & Hfails & Hcases).
  exists (map backoff_ms (seq 0 (length errors))).
  rewrite length_map, length_seq.
  destruct Hcases as [[Hfull ->] | [[Hlt (content & _ & ->)] | [Hlt (error & _ & _ & ->)]]].
  - cbn [snd]. simplify_world. unfold maxRetries in *.
    repeat split; try lia. apply total_wait_backoff. unfold maxRetries. lia.
  - cbv zeta.
    destruct (is_empty (content_or_empty content)); cbn [snd];
      unfold after_parse; try destruct (JSON_parse (content_or_empty content));
      simplify_world; unfold maxRetries in *;
      (repeat split; try lia; apply total_wait_backoff; unfold maxRetries; lia).
  - cbn [snd]. simplify_world. unfold maxRetries in *.
    repeat split; try lia. apply total_wait_backoff. unfold maxRetries. lia.
Qed.

(** The waits of the loop, from any state of the loop. *)
Lemma batch_loop_waits (settles : nat -> nat -> nat) :
  forall fuel tickets i summarisedTickets w,
    length tickets - i <= fuel ->
    let run := batch_loop settles openai JSON_parse fuel tickets i summarisedTickets w in
    exists waits,
      sleeps (snd run) = sleeps w ++ waits
      /\ (total_wait waits
          <= 31000 * Z.of_nat (div_ceil (length tickets - i) BATCH_SIZE))%Z.
Proof.
  induction fuel as [| fuel IH]; intros tickets i acc w Hfuel; cbv zeta.
  - rewrite batch_loop_done by lia. exists []. cbn [snd]. rewrite app_nil_r.
    split; [reflexivity | unfold total_wait; cbn [fold_right]; lia].
  - rewrite batch_loop_step.
    destruct (Nat.ltb_spec i (length tickets)) as [Hlt | Hge].
    + rewrite (div_ceil_step (length tickets - i)) by lia.
      replace (length tickets - i - BATCH_SIZE) with (length tickets - (i + BATCH_SIZE)) by lia.
      destruct (awaited_texts_cases settles i (batch_of tickets i) w)
        as (events & Hworld & Hevents & Hcases).
      destruct (awaited_texts settles i (batch_of tickets i) w)
        as [[ticketBatch | error |] w0]; cbn [fst snd] in Hworld, Hcases; subst w0.
      * set (w1 := logged _ (record events w)).
        destruct (summarise_bounds ticketBatch w1)
          as (waits & Hsleeps & _ & Htotal & _).
        cbv zeta in Hsleeps.
        destruct (summarise openai JSON_parse ticketBatch w1)
          as [[batch | error |] w'] eqn:Hrun; cbn [snd] in Hsleeps.
        -- set (w2 := logged _ w').
           assert (Hfuel' : length tickets - (i + BATCH_SIZE) <= fuel)
             by (unfold BATCH_SIZE; lia).
           destruct (IH tickets (i + BATCH_SIZE) (acc ++ batch) w2 Hfuel')
             as (waits' & Hsleeps' & Htotal').
           exists (waits ++ waits'). rewrite Hsleeps'. subst w1 w2.
           rewrite sleeps_logged, Hsleeps, sleeps_logged,
             (sleeps_record_lookups _ _ Hevents), <- app_assoc, total_wait_app.
           split; [reflexivity | lia].
        -- exists waits. cbn [snd]. subst w1.
           rewrite Hsleeps, sleeps_logged, (sleeps_record_lookups _ _ Hevents).
           split; [reflexivity | lia].
        -- exists waits. cbn [snd]. subst w1.
           rewrite Hsleeps, sleeps_logged, (sleeps_record_lookups _ _ Hevents).
           split; [reflexivity | lia].
      * exists []. cbn [snd].
        rewrite (sleeps_record_lookups _ _ Hevents), app_nil_r.
        split; [reflexivity | unfold total_wait; cbn [fold_right]; lia].
      * now exfalso.
    + exists []. cbn [snd]. rewrite app_nil_r.
      split; [reflexivity | unfold total_wait; cbn [fold_right]; lia].
Qed.

End MoreSummariser.

(** X4.  One call of [summarise] sleeps at most five times and at most 31
    seconds in all (1 + 2 + 4 + 8 + 16), and calls the completion service
    at least once and at most five times, whatever the service answers. *)
Theorem summarise_waits_at_most
        (openai : nat -> string -> Completion) (JSON_parse : string -> option json)
        (tickets : list string) (w : World) :
  let run := summarise openai JSON_parse tickets w in
  exists waits,
    sleeps (snd run) = sleeps w ++ waits
    /\ length waits <= 5
    /\ (total_wait waits <= 31000)%Z
    /\ api_calls w + 1 <= api_calls (snd run) <= api_calls w + 5.
Proof.
  exact (summarise_bounds openai JSON_parse tickets w).
Qed.

(** X5.  A run of [summariseTickets] over n tickets sleeps at most 31
    seconds for each of its ceil(n / 15) batches, whatever the service
    answers and however the run ends. *)
Theorem summariseTickets_waits_at_most
        (settles : nat -> nat -> nat)
        (openai : nat -> string -> Completion) (JSON_parse : string -> option json)
        (tickets : list Linear.Ticket) (w : World) :
  let run := summariseTickets settles openai JSON_parse tickets w in
  exists waits,
    sleeps (snd run) = sleeps w ++ waits
    /\ (total_wait waits
        <= 31000 * Z.of_nat (div_ceil (length tickets) BATCH_SIZE))%Z.
Proof.
  cbv zeta. unfold summariseTickets, bind, console_log.
  change (record [Printed (Summarising_tickets (length tickets))] w)
    with (logged [Summarising_tickets (length tickets)] w).
  destruct (batch_loop_waits openai JSON_parse settles (length tickets) tickets 0 []
              (logged [Summarising_tickets (length tickets)] w))
    as (waits & Hsleeps & Htotal); [lia |].
  rewrite Nat.sub_0_r in Htotal. rewrite sleeps_logged in Hsleeps.
  exists waits. now split.
Qed.

(** X6.  What [summarise] returns is what it makes of a non-empty text the
    completion service sent in answer to one of its at most five calls: the
    elements of the parsed array, the parsed value alone when it is no
    array, nothing when the text does not parse.  It returns right after
    that call. *)
Theorem summarise_returns_the_answer
        (openai : nat -> string -> Completion) (JSON_parse : string -> option json)
        (tickets : list string) (w : World) (result : list json) :
  fst (summarise openai JSON_parse tickets w) = Return result ->
  exists m text,
    m < maxRetries
    /\ openai (api_calls w + m) (join separator tickets) = Completed (Some text)
    /\ text <> ""
    /\ result = parsed_tickets JSON_parse text
    /\ api_calls (snd (summarise openai JSON_parse tickets w)) = api_calls w + m + 1.
Proof.
  destruct (summarise_cases openai JSON_parse tickets w)
    as (errors & Hrec & Hfails & Hcases).
  destruct Hcases as [[Hfull ->] | [[Hlt (content & Hanswer & ->)] | [Hlt (error & _ & _ & ->)]]];
    cbn [fst]; try discriminate.
  cbv zeta.
  destruct (is_empty (content_or_empty content)) eqn:Hempty; cbn [fst];
    [discriminate |].
  intro Hreturn. inversion Hreturn; subst result; clear Hreturn.
  destruct content as [text |]; [| discriminate].
  cbn [content_or_empty] in *.
  exists (length errors), text.
  split; [exact Hlt | split; [exact Hanswer | split; [now apply is_empty_false |]]].
  split; [reflexivity |].
  cbn [snd]. unfold after_parse. destruct (JSON_parse text); simplify_world; lia.
Qed.

(** X6, at a service that answers {} at once. *)
Lemma summarise_returns_the_answer_witness :
  exists m text,
    m < maxRetries
    /\ answering "{}" (api_calls initial_world + m) (join separator ["ticket"])
       = Completed (Some text)
    /\ text <> ""
    /\ [JObject []] = parsed_tickets parse_sample text
    /\ api_calls (snd (summarise (answering "{}") parse_sample ["ticket"] initial_world))
       = api_calls initial_world + m + 1.
Proof.
  exact (summarise_returns_the_answer (answering "{}") parse_sample ["ticket"]
           initial_world [JObject []] eq_refl).
Defined.

(** X7.  What [summarise] throws is the error 'Failed to get a response
    from OpenAI API' or an error the completion service failed with whose
    code is neither of the two retried: a text that does not parse makes it
    throw nothing. *)
Theorem summarise_throws_only
        (openai : nat -> string -> Completion) (JSON_parse : string -> option json)
        (tickets : list string) (w : World) (error : Thrown) :
  fst (summarise openai JSON_parse tickets w) = Throw error ->
  error = Error_ "Failed to get a response from OpenAI API"
  \/ exists m,
      m < maxRetries
      /\ openai (api_calls w + m) (join separator tickets) = Failed error
      /\ code_is (error_code error) "insufficient_quota" = false
      /\ code_is (error_code error) "rate_limit" = false.
Proof.
  destruct (summarise_cases openai JSON_parse tickets w)
    as (errors & Hrec & Hfails & Hcases).
  destruct Hcases as [[Hfull ->] | [[Hlt (content & Hanswer & ->)] | [Hlt (e & Hanswer & Hno & ->)]]];
    cbn [fst].
  - intro H. inversion H. now left.
  - cbv zeta. destruct (is_empty (content_or_empty content)); cbn [fst]; intro H;
      [inversion H; now left | discriminate].
  - intro H. inversion H; subst e. right. exists (length errors).
    unfold recoverable in Hno. apply orb_false_iff in Hno. tauto.
Qed.

(** X7, at a service that refuses the key. *)
Lemma summarise_throws_only_witness :
  invalid_key = Error_ "Failed to get a response from OpenAI API"
  \/ exists m,
      m < maxRetries
      /\ always_refusing (api_calls initial_world + m) (join separator ["ticket"])
         = Failed invalid_key
      /\ code_is (error_code invalid_key) "insufficient_quota" = false
      /\ code_is (error_code invalid_key) "rate_limit" = false.
Proof.
  exact (summarise_throws_only always_refusing parse_sample ["ticket"] initial_world
           invalid_key eq_refl).
Defined.

(** ** More on the formatter *)

Section AnyTickets.

Variable T : Type.
Variable read : T -> string -> option string.

(** The reduce prints nothing, and throws when a project cannot be read. *)
Lemma group_ticket_unreadable group ticket w :
  read ticket "project" = None ->
  group_ticket T read group ticket w = (Throw TypeError, w).
Proof.
  intro Hnone. unfold group_ticket, bind, property. now rewrite Hnone.
Qed.

Lemma group_ticket_world group ticket w :
  (exists group', group_ticket T read group ticket w = (Return group', w))
  \/ group_ticket T read group ticket w = (Throw TypeError, w).
Proof.
  unfold group_ticket, bind, property.
  destruct (read ticket "project") as [projectName |]; [| now right].
  unfold ret, throw.
  destruct (get _ projectName); [left; eexists; reflexivity | now right | now right].
Qed.

Lemma reduce_unreadable tickets ticket :
  In ticket tickets ->
  read ticket "project" = None ->
  forall group w, foldM (group_ticket T read) tickets group w = (Throw TypeError, w).
Proof.
  intros Hin Hnone.
  induction tickets as [| t tickets IH]; [contradiction |].
  intros group w. cbn [foldM]. unfold bind.
  destruct Hin as [-> | Hin].
  - now rewrite group_ticket_unreadable.
  - destruct (group_ticket_world group t w) as [(group' & ->) | ->];
      [now apply IH | reflexivity].
Qed.

End AnyTickets.

(** [formatReleaseNote], step by step. *)
Lemma formatReleaseNote_unfold (T : Type) (read : T -> string -> option string)
      (tickets : list T) (w : World) :
  formatReleaseNote T read tickets w
  = match foldM (group_ticket T read) tickets [] w with
    | (Return groupedTickets, w1) =>
        match foldM (render_project T read groupedTickets)
                    (Object_keys groupedTickets) "" w1 with
        | (Return resultString, w2) =>
            match get groupedTickets "Enhancement" with
            | Own array =>
                match foldM (append_line T read) array
                            (resultString ++ "*Enhancements*:" ++ nl)%string w2 with
                | (Return resultString', w3) => (Return (resultString' ++ nl)%string, w3)
                | (Throw e, w3) => (Throw e, w3)
                | (OutOfFuel, w3) => (OutOfFuel, w3)
                end
            | Inherited => (Throw TypeError, w2)
            | Undefined => (Return resultString, w2)
            end
        | (Throw e, w2) => (Throw e, w2)
        | (OutOfFuel, w2) => (OutOfFuel, w2)
        end
    | (Throw e, w1) => (Throw e, w1)
    | (OutOfFuel, w1) => (OutOfFuel, w1)
    end.
Proof.
  unfold formatReleaseNote. unfold bind at 1.
  destruct (foldM (group_ticket T read) tickets [] w) as [[groupedTickets | e |] w1];
    try reflexivity.
  unfold bind at 1.
  destruct (foldM (render_project T read groupedTickets) (Object_keys groupedTickets) "" w1)
    as [[resultString | e |] w2]; try reflexivity.
  destruct (get groupedTickets "Enhancement") as [array | |]; try reflexivity.
Qed.

(** The formatter on two kinds of tickets that read alike. *)
Section AlikeTickets.

Variables A B : Type.
Variable readA : A -> string -> option string.
Variable readB : B -> string -> option string.
Variable f : A -> B.
Hypothesis reads_alike : forall a name, readB (f a) name = readA a name.

Lemma get_own_map_values (o : JsObject (list A)) (key : string) :
  get_own (map_values f o) key = option_map (map f) (get_own o key).
Proof.
  induction o as [| [k v] o IH]; cbn [map_values map get_own fst snd]; [reflexivity |].
  destruct (String.eqb k key); [reflexivity | exact IH].
Qed.

Lemma set_map_values (o : JsObject (list A)) (key : string) (v : list A) :
  set (map_values f o) key (map f v) = map_values f (set o key v).
Proof.
  induction o as [| [k x] o IH]; cbn [map_values map set fst snd]; [reflexivity |].
  destruct (String.eqb k key); cbn [map fst snd]; [reflexivity |].
  f_equal. exact IH.
Qed.

Lemma keys_map_values (o : JsObject (list A)) :
  Object_keys (map_values f o) = Object_keys o.
Proof.
  unfold Object_keys, map_values. rewrite map_map. cbn [fst]. reflexivity.
Qed.

Lemma property_alike a name w :
  property B readB (f a) name w = property A readA a name w.
Proof. unfold property. now rewrite reads_alike. Qed.

Lemma group_ticket_alike group a w :
  group_ticket B readB (map_values f group) (f a) w
  = map_result (map_values f) (group_ticket A readA group a w).
Proof.
  unfold group_ticket, bind. rewrite property_alike. unfold property.
  destruct (readA a "project") as [projectName |]; [| reflexivity].
  unfold ret, throw, get. rewrite get_own_map_values.
  destruct (get_own group projectName) as [array |] eqn:Hown; cbn [option_map].
  - rewrite get_own_map_values, Hown. cbn [option_map map_result].
    now rewrite <- set_map_values, map_app.
  - destruct (inherited projectName) eqn:Hinherited.
    + rewrite get_own_map_values, Hown. reflexivity.
    + replace (set (map_values f group) projectName [])
        with (map_values f (set group projectName []))
        by (now rewrite <- set_map_values).
      rewrite get_own_map_values, !get_own_set_same. cbn [option_map map_result app].
      now rewrite <- (set_map_values (set group projectName []) projectName [a]).
Qed.

Lemma reduce_alike tickets :
  forall group w,
    foldM (group_ticket B readB) (map f tickets) (map_values f group) w
    = map_result (map_values f) (foldM (group_ticket A readA) tickets group w).
Proof.
  induction tickets as [| a tickets IH]; intros group w; cbn [map foldM];
    [reflexivity |].
  unfold bind. rewrite group_ticket_alike.
  destruct (group_ticket A readA group a w) as [[group' | e |] w'];
    cbn [map_result]; [apply IH | reflexivity | reflexivity].
Qed.

Lemma append_line_alike resultString a w :
  append_line B readB resultString (f a) w = append_line A readA resultString a w.
Proof.
  unfold append_line, bind. rewrite !property_alike.
  destruct (property A readA a "category" w) as [[category | e |] w1]; try reflexivity.
  rewrite property_alike.
  destruct (property A readA a "summary" w1) as [[summary | e |] w2]; try reflexivity.
  rewrite property_alike.
  destruct (property A readA a "identifier" w2) as [[identifier | e |] w3];
    try reflexivity.
  now rewrite property_alike.
Qed.

Lemma append_lines_alike array :
  forall resultString w,
    foldM (append_line B readB) (map f array) resultString w
    = foldM (append_line A readA) array resultString w.
Proof.
  induction array as [| a array IH]; intros resultString w; cbn [map foldM];
    [reflexivity |].
  unfold bind. rewrite append_line_alike.
  destruct (append_line A readA resultString a w) as [[s' | e |] w'];
    [apply IH | reflexivity | reflexivity].
Qed.

Lemma get_map_values (o : JsObject (list A)) (key : string) :
  get (map_values f o) key
  = match get o key with
    | Own array => Own (map f array)
    | Inherited => Inherited
    | Undefined => Undefined
    end.
Proof.
  unfold get. rewrite get_own_map_values.
  destruct (get_own o key); cbn [option_map]; [reflexivity |].
  now destruct (inherited key).
Qed.

Lemma render_project_alike group resultString projectName w :
  render_project B readB (map_values f group) resultString projectName w
  = render_project A readA group resultString projectName w.
Proof.
  unfold render_project. rewrite get_map_values.
  destruct (get group projectName) as [array | |]; try reflexivity.
  unfold bind. now rewrite append_lines_alike, length_map.
Qed.

Lemma render_projects_alike group names :
  forall resultString w,
    foldM (render_project B readB (map_values f group)) names resultString w
    = foldM (render_project A readA group) names resultString w.
Proof.
  induction names as [| name names IH]; intros resultString w; cbn [foldM];
    [reflexivity |].
  unfold bind. rewrite render_project_alike.
  destruct (render_project A readA group resultString name w) as [[s' | e |] w'];
    [apply IH | reflexivity | reflexivity].
Qed.

Lemma formatReleaseNote_alike tickets w :
  formatReleaseNote B readB (map f tickets) w = formatReleaseNote A readA tickets w.
Proof.
  rewrite !formatReleaseNote_unfold.
  change (@nil (string * list B)) with (map_values f (@nil (string * list A))).
  rewrite reduce_alike.
  destruct (foldM (group_ticket A readA) tickets [] w) as [[group | e |] w'];
    cbn [map_result]; try reflexivity.
  rewrite keys_map_values, render_projects_alike.
  destruct (foldM (render_project A readA group) (Object_keys group) "" w')
    as [[resultString | e |] w'']; try reflexivity.
  rewrite get_map_values.
  destruct (get group "Enhancement") as [array | |]; try reflexivity.
  now rewrite append_lines_alike.
Qed.

End AlikeTickets.

Lemma read_json_to_json (ticket : SummarizedTicket) (name : string) :
  read_json (to_json ticket) name = field ticket name.
Proof.
  unfold read_json, to_json, field. cbn [get_own].
  rewrite (String.eqb_sym "identifier" name), (String.eqb_sym "url" name),
    (String.eqb_sym "summary" name), (String.eqb_sym "category" name),
    (String.eqb_sym "project" name).
  destruct (String.eqb name "identifier"); [reflexivity |].
  destruct (String.eqb name "url"); [reflexivity |].
  destruct (String.eqb name "summary"); [reflexivity |].
  destruct (String.eqb name "category"); [reflexivity |].
  destruct (String.eqb name "project"); reflexivity.
Qed.

(** The values without text. *)
Lemma to_text_none : forall v, to_text v = None <-> without_text v = true.
Proof.
  fix IH 1.
  intros [| [|] | printed | s | elements | properties]; cbn [to_text without_text];
    try (split; discriminate).
  - induction elements as [| e rest IHrest]; [split; discriminate |].
    cbn [existsb]. rewrite orb_true_iff, <- IHrest, <- (IH e). clear IHrest.
    match goal with
    | |- context [?J rest] => set (joined := J rest)
    end.
    assert (He : match e with JNull => Some "" | _ => to_text e end = None
                 <-> to_text e = None)
      by (destruct e; [split; discriminate | reflexivity ..]).
    destruct (match e with JNull => Some "" | _ => to_text e end) as [a |];
      destruct joined as [b |].
    + split; [discriminate |]. intros [H | H]; [now apply He in H | discriminate].
    + split; [now right | reflexivity].
    + split; [intros _; left; now apply He | reflexivity].
    + split; [now right | reflexivity].
  - destruct (get_own properties "toString"); split; (discriminate || reflexivity).
Qed.

(** The elements whose project cannot be read. *)
Lemma read_project_none (v : json) :
  read_json v "project" = None <-> unreadable_project v = true.
Proof.
  destruct v as [| b | printed | s | elements | properties];
    cbn [read_json unreadable_project]; try (split; discriminate); [tauto |].
  destruct (get_own properties "project") as [value |]; [apply to_text_none |].
  split; discriminate.
Qed.

(** X8.  When an element of the summarised tickets is null, or is an
    object whose project is an object with an own toString property or an
    array that holds such a value, [formatReleaseNote] throws a TypeError
    before it prints anything.  No other element has a project that cannot
    be read. *)
Theorem unreadable_project_throws
        (summarisedTickets : list json) (ticket : json) (w : World) :
  In ticket summarisedTickets ->
  unreadable_project ticket = true ->
  formatReleaseNote json read_json summarisedTickets w = (Throw TypeError, w)
  /\ forall element, read_json element "project" = None
                     <-> unreadable_project element = true.
Proof.
  intros Hin Hnone. split; [| exact read_project_none].
  apply read_project_none in Hnone.
  unfold formatReleaseNote, bind.
  now rewrite (reduce_unreadable json read_json summarisedTickets ticket Hin Hnone).
Qed.

(** X8, at an answer whose second element is null, and at one whose
    second element has an object with a toString property as project. *)
Lemma unreadable_project_throws_witness :
  formatReleaseNote json read_json [to_json api_ticket; JNull] initial_world
  = (Throw TypeError, initial_world)
  /\ formatReleaseNote json read_json [to_json api_ticket; opaque_project_ticket]
                       initial_world
     = (Throw TypeError, initial_world).
Proof.
  split.
  - exact (proj1 (unreadable_project_throws [to_json api_ticket; JNull] JNull
                    initial_world (or_intror (or_introl eq_refl)) eq_refl)).
  - exact (proj1 (unreadable_project_throws [to_json api_ticket; opaque_project_ticket]
                    opaque_project_ticket initial_world
                    (or_intror (or_introl eq_refl)) eq_refl)).
Defined.

(** The formatter asks for the five names only. *)
Lemma formatReleaseNote_reads_five (T : Type) (read : T -> string -> option string)
      (tickets : list T) (w : World) :
  formatReleaseNote T (five_only read) tickets w = formatReleaseNote T read tickets w.
Proof. reflexivity. Qed.

Lemma readable_reads (v : json) (name : string) :
  readable v = true ->
  In name read_names ->
  read_json v name = Some (text_of v name).
Proof.
  unfold readable. rewrite forallb_forall. intros Hall Hin.
  specialize (Hall name Hin). unfold text_of.
  now destruct (read_json v name).
Qed.

(** A readable element reads as its summarised ticket. *)
Lemma summarised_reads (v : json) (name : string) :
  readable v = true ->
  field (summarised v) name = five_only read_json v name.
Proof.
  intro Hreadable. unfold field, five_only, summarised, read_names.
  cbn [existsb identifier url summary category project].
  destruct (String.eqb_spec name "identifier") as [-> | _];
    [symmetry; apply readable_reads; cbn; tauto |].
  destruct (String.eqb_spec name "url") as [-> | _];
    [symmetry; apply readable_reads; cbn; tauto |].
  destruct (String.eqb_spec name "summary") as [-> | _];
    [symmetry; apply readable_reads; cbn; tauto |].
  destruct (String.eqb_spec name "category") as [-> | _];
    [symmetry; apply readable_reads; cbn; tauto |].
  destruct (String.eqb_spec name "project") as [-> | _];
    [symmetry; apply readable_reads; cbn; tauto |].
  reflexivity.
Qed.

(** The readable elements of a list, each with the proof that it is. *)
Lemma readable_elements (objects : list json) :
  forallb readable objects = true ->
  exists l : list {v : json | readable v = true}, map (@proj1_sig _ _) l = objects.
Proof.
  induction objects as [| v objects IH]; cbn [forallb]; intro H.
  - now exists [].
  - apply andb_prop in H as [Hv Hrest].
    destruct (IH Hrest) as (l & Hl).
    exists (exist _ v Hv :: l). cbn [map proj1_sig]. now rewrite Hl.
Qed.

(** The formatter on readable elements and on the summarised tickets
    they are read as. *)
Lemma formatReleaseNote_summarised (objects : list json) (w : World) :
  forallb readable objects = true ->
  formatReleaseNote json read_json objects w
  = formatReleaseNote SummarizedTicket field (map summarised objects) w.
Proof.
  intro Hreadable.
  destruct (readable_elements objects Hreadable) as (l & <-).
  rewrite <- formatReleaseNote_reads_five.
  rewrite (formatReleaseNote_alike {v : json | readable v = true} json
             (fun a name => five_only read_json (proj1_sig a) name)
             (five_only read_json) (@proj1_sig _ _))
    by reflexivity.
  rewrite map_map.
  rewrite (formatReleaseNote_alike {v : json | readable v = true} SummarizedTicket
             (fun a name => five_only read_json (proj1_sig a) name)
             field (fun a => summarised (proj1_sig a)));
    [reflexivity |].
  intros [v Hv] name. cbn [proj1_sig]. now apply summarised_reads.
Qed.

Lemma summarised_to_json (ticket : SummarizedTicket) : summarised (to_json ticket) = ticket.
Proof. now destruct ticket. Qed.

Lemma readable_to_json (ticket : SummarizedTicket) : readable (to_json ticket) = true.
Proof. reflexivity. Qed.

(** X9.  On elements whose five properties can be read (none is null, and
    each of identifier, url, summary, category and project is missing or
    has a text), whatever the order of their keys and whatever else they
    hold, [formatReleaseNote] does what it does on the summarised tickets
    made of the five texts: it returns the release note and prints one
    line per group, or throws a TypeError when a project is named like a
    member of Object.prototype.  The objects the prompt asks for are
    readable, and read as themselves. *)
Theorem formatReleaseNote_on_objects (objects : list json) (w : World) :
  forallb readable objects = true ->
  let tickets := map summarised objects in
  formatReleaseNote json read_json objects w
  = formatReleaseNote SummarizedTicket field tickets w
  /\ formatReleaseNote json read_json objects w
     = (if no_inherited_name tickets
        then (Return (release_note tickets),
              logged (found_lines (key_order (first_seen (map project tickets)))
                                  tickets) w)
        else (Throw TypeError, w))
  /\ (forall ticket, readable (to_json ticket) = true
                     /\ summarised (to_json ticket) = ticket).
Proof.
  intro Hreadable. cbv zeta.
  pose proof (formatReleaseNote_summarised objects w Hreadable) as Halike.
  split; [exact Halike | split].
  - rewrite Halike. apply formatReleaseNote_spec.
  - intro ticket. split; [apply readable_to_json | apply summarised_to_json].
Qed.

(** X9, at the ticket E-1 of project API with its keys in another order, a
    key more and a number as summary. *)
Lemma formatReleaseNote_on_objects_witness :
  formatReleaseNote json read_json [shuffled_ticket] initial_world
  = (Return ("*API*:" ++ nl ++ "[DB] 42 - [E-1](https://x/E-1)" ++ nl ++ nl)%string,
     logged [Found_tickets_for_project 1 "API"] initial_world).
Proof.
  exact (proj1 (proj2 (formatReleaseNote_on_objects [shuffled_ticket] initial_world
                         eq_refl))).
Defined.

(** ** Grouping keeps every ticket *)

Lemma insert_index_permutation (entry : N * string) (sorted : list (N * string)) :
  Permutation (insert_index entry sorted) (entry :: sorted).
Proof.
  induction sorted as [| e sorted IH]; cbn [insert_index]; [reflexivity |].
  destruct (fst entry <=? fst e)%N; [reflexivity |].
  rewrite IH. apply perm_swap.
Qed.

Lemma ascending_permutation (entries : list (N * string)) :
  Permutation (ascending entries) entries.
Proof.
  unfold ascending. induction entries as [| e entries IH]; cbn [fold_right];
    [reflexivity |].
  rewrite insert_index_permutation. now apply perm_skip.
Qed.

Lemma index_entries_keys (names : list string) :
  map snd (index_entries names) = filter is_index names.
Proof.
  unfold index_entries, is_index.
  induction names as [| name names IH]; cbn [flat_map filter]; [reflexivity |].
  rewrite map_app, IH. now destruct (array_index name).
Qed.

Lemma filter_split_permutation {X} (g : X -> bool) (l : list X) :
  Permutation (filter g l ++ filter (fun x => negb (g x)) l) l.
Proof.
  induction l as [| x l IH]; cbn [filter]; [reflexivity |].
  destruct (g x); cbn [negb app].
  - now apply perm_skip.
  - rewrite <- Permutation_middle. now apply perm_skip.
Qed.

Lemma key_order_permutation (names : list string) :
  Permutation (key_order names) names.
Proof.
  unfold key_order.
  rewrite (Permutation_map snd (ascending_permutation (index_entries names))).
  rewrite index_entries_keys. apply filter_split_permutation.
Qed.

Lemma flat_map_both {X Y} (g h : X -> list Y) (l : list X) :
  Permutation (flat_map (fun x => g x ++ h x) l) (flat_map g l ++ flat_map h l).
Proof.
  induction l as [| x l IH]; cbn [flat_map]; [reflexivity |].
  rewrite IH, <- !app_assoc. apply Permutation_app_head.
  rewrite !app_assoc. apply Permutation_app_tail. apply Permutation_app_comm.
Qed.

Lemma one_group_takes (ticket : SummarizedTicket) (names : list string) :
  NoDup names ->
  In (project ticket) names ->
  flat_map (fun name => if String.eqb (project ticket) name then [ticket] else [])
           names
  = [ticket].
Proof.
  induction 1 as [| name names Hnotin Hnodup IH]; cbn [In flat_map]; [contradiction |].
  intros [-> | Hin].
  - rewrite String.eqb_refl. cbn [app]. f_equal.
    clear IH Hnodup. induction names as [| other names IH]; [reflexivity |].
    cbn [flat_map]. destruct (String.eqb_spec (project ticket) other) as [E | _].
    + exfalso. apply Hnotin. now left.
    + apply IH. intro Hin. apply Hnotin. now right.
  - destruct (String.eqb_spec (project ticket) name) as [E | _].
    + exfalso. apply Hnotin. now rewrite <- E.
    + now apply IH.
Qed.

Lemma groups_partition (names : list string) (tickets : list SummarizedTicket) :
  NoDup names ->
  (forall ticket, In ticket tickets -> In (project ticket) names) ->
  Permutation (flat_map (fun name => tickets_of name tickets) names) tickets.
Proof.
  intros Hnodup.
  induction tickets as [| ticket tickets IH]; intro Hnames.
  - clear. induction names as [| name names IH]; [reflexivity | exact IH].
  - rewrite (flat_map_ext _
               (fun name => (if String.eqb (project ticket) name then [ticket] else [])
                            ++ tickets_of name tickets)).
    + rewrite flat_map_both, one_group_takes;
        [| assumption | apply Hnames; now left].
      cbn [app]. apply perm_skip. apply IH. intros t Ht. apply Hnames. now right.
    + intro name. unfold tickets_of. cbn [filter].
      now destruct (String.eqb (project ticket) name).
Qed.

(** X10.  When [formatReleaseNote] returns, the groups of its first pass
    hold every ticket of the input once: the projects named are distinct,
    and the tickets of all groups together are the tickets of the input,
    rearranged. *)
Theorem grouping_keeps_every_ticket
        (tickets : list SummarizedTicket) (w : World) (out : string) :
  fst (formatReleaseNote SummarizedTicket field tickets w) = Return out ->
  let names := key_order (first_seen (map project tickets)) in
  out = (render_groups names tickets ++ enhancements_again tickets)%string
  /\ NoDup names
  /\ Permutation (flat_map (fun name => tickets_of name tickets) names) tickets.
Proof.
  intro Hrun. destruct (returned_note _ _ _ Hrun) as [_ ->]. cbv zeta.
  split; [reflexivity | split].
  - apply (Permutation_NoDup (l := first_seen (map project tickets)));
      [symmetry; apply key_order_permutation | apply NoDup_first_seen].
  - rewrite (Permutation_flat_map _ (key_order_permutation _)).
    apply groups_partition; [apply NoDup_first_seen |].
    intros ticket Hin. apply in_first_seen. now apply in_map.
Qed.

(** X10, at a note of three tickets in two projects, one of them named by
    an array index. *)
Lemma grouping_keeps_every_ticket_witness :
  release_note [website_ticket; roadmap_ticket; website_ticket]
  = (render_groups ["2024"; "Website"] [website_ticket; roadmap_ticket; website_ticket]
     ++ enhancements_again [website_ticket; roadmap_ticket; website_ticket])%string
  /\ NoDup ["2024"; "Website"]
  /\ Permutation [roadmap_ticket; website_ticket; website_ticket]
                 [website_ticket; roadmap_ticket; website_ticket].
Proof.
  exact (grouping_keeps_every_ticket [website_ticket; roadmap_ticket; website_ticket]
           initial_world
           (release_note [website_ticket; roadmap_ticket; website_ticket]) eq_refl).
Defined.

(** ** The batches *)

Lemma div_ceil_covers (n : nat) : n <= div_ceil n BATCH_SIZE * BATCH_SIZE.
Proof.
  unfold div_ceil, BATCH_SIZE. change (15 - 1) with 14.
  pose proof (Nat.div_mod_eq (n + 14) 15) as Hdiv.
  pose proof (Nat.mod_upper_bound (n + 14) 15) as Hmod.
  lia.
Qed.

Lemma slice_length {X} (i : nat) (l : list X) :
  length (slice i (i + BATCH_SIZE) l) <= BATCH_SIZE.
Proof.
  unfold slice. rewrite length_firstn. lia.
Qed.

Lemma slice_shift {X} (k : nat) (l : list X) :
  slice (S k * BATCH_SIZE) (S k * BATCH_SIZE + BATCH_SIZE) l
  = slice (k * BATCH_SIZE) (k * BATCH_SIZE + BATCH_SIZE) (skipn BATCH_SIZE l).
Proof.
  unfold slice. rewrite skipn_skipn.
  replace (S k * BATCH_SIZE + BATCH_SIZE - S k * BATCH_SIZE) with BATCH_SIZE by lia.
  replace (k * BATCH_SIZE + BATCH_SIZE - k * BATCH_SIZE) with BATCH_SIZE by lia.
  replace (S k * BATCH_SIZE) with (k * BATCH_SIZE + BATCH_SIZE) by lia.
  reflexivity.
Qed.

(** The slices the loop takes cover the list, in order. *)
Lemma slices_cover {X} (n : nat) :
  forall l : list X,
    length l <= n * BATCH_SIZE ->
    flat_map (fun k => slice (k * BATCH_SIZE) (k * BATCH_SIZE + BATCH_SIZE) l) (seq 0 n)
    = l.
Proof.
  induction n as [| n IH]; intros l Hlen.
  - destruct l; [reflexivity | cbn in Hlen; lia].
  - cbn [seq flat_map]. rewrite <- seq_shift, flat_map_concat_map, map_map,
      <- flat_map_concat_map.
    rewrite (flat_map_ext _ (fun k => slice (k * BATCH_SIZE) (k * BATCH_SIZE + BATCH_SIZE)
                                            (skipn BATCH_SIZE l)))
      by (intro k; apply slice_shift).
    rewrite IH by (rewrite length_skipn; lia).
    unfold slice. cbn [Nat.mul Nat.add skipn]. rewrite Nat.sub_0_r.
    apply firstn_skipn.
Qed.

Lemma sent_of_app (events events' : list Event) :
  sent_of (events ++ events') = sent_of events ++ sent_of events'.
Proof. apply flat_map_app. Qed.

Lemma sent_of_printed (lines : list ConsoleLine) : sent_of (map Printed lines) = [].
Proof. induction lines as [| l lines IH]; [reflexivity | exact IH]. Qed.

Lemma sent_logged lines w : sent_of (trace (logged lines w)) = sent_of (trace w).
Proof.
  unfold logged, record. cbn [trace].
  now rewrite sent_of_app, sent_of_printed, app_nil_r.
Qed.

Lemma sent_of_lookups (events : list Event) :
  forallb lookup_event events = true -> sent_of events = [].
Proof.
  induction events as [| event events IH]; [reflexivity |].
  cbn [forallb]. intro H. apply andb_prop in H as [Hevent Hrest].
  destruct event; try discriminate. cbn. now apply IH.
Qed.

Section Answered.

Variable settles : nat -> nat -> nat.
Variable openai : nat -> string -> Completion.
Variable JSON_parse : string -> option json.
Variable reply : nat -> string.
Hypothesis answers : forall k user, openai k user = Completed (Some (reply k)).
Hypothesis non_empty : forall k, reply k <> "".

(** The messages of the loop when every lookup is fulfilled and every call
    is answered at once. *)
Lemma batch_loop_sends :
  forall fuel tickets texts k summarisedTickets w,
    fulfilled tickets texts ->
    length tickets - k * BATCH_SIZE <= fuel ->
    sent_of (trace (snd (batch_loop settles openai JSON_parse fuel tickets (k * BATCH_SIZE)
                                    summarisedTickets w)))
    = sent_of (trace w)
      ++ map (fun j => join separator (batch_of texts (j * BATCH_SIZE)))
             (seq k (div_ceil (length tickets - k * BATCH_SIZE) BATCH_SIZE)).
Proof.
  induction fuel as [| fuel IH]; intros tickets texts k acc w Hfulfilled Hfuel.
  - rewrite batch_loop_done by lia.
    replace (length tickets - k * BATCH_SIZE) with 0 by lia. rewrite div_ceil_zero.
    cbn [snd seq map]. now rewrite app_nil_r.
  - destruct (Nat.lt_ge_cases (k * BATCH_SIZE) (length tickets)) as [Hlt | Hge].
    + destruct (batch_loop_fulfilled settles openai JSON_parse fuel tickets
                  (k * BATCH_SIZE) acc w (batch_of texts (k * BATCH_SIZE)) Hlt
                  (fulfilled_batch _ _ _ Hfulfilled)) as (events & Hevents & ->).
      rewrite (div_ceil_step (length tickets - k * BATCH_SIZE)) by lia.
      replace (length tickets - k * BATCH_SIZE - BATCH_SIZE)
        with (length tickets - S k * BATCH_SIZE) by lia.
      replace (k * BATCH_SIZE + BATCH_SIZE) with (S k * BATCH_SIZE) by lia.
      set (w1 := logged _ (record events w)).
      rewrite (summarise_completed openai JSON_parse _ w1 [] (Some (reply (api_calls w))));
        [| unfold maxRetries; cbn; lia | constructor | exact I
         | subst w1; cbn [logged record api_calls length]; rewrite Nat.add_0_r;
           apply answers].
      cbv zeta. cbn [content_or_empty].
      destruct (is_empty (reply (api_calls w))) eqn:Hempty;
        [apply is_empty_true in Hempty; now destruct (non_empty (api_calls w)) |].
      rewrite (IH tickets texts) by (assumption || (unfold BATCH_SIZE in *; lia)).
      rewrite sent_logged. cbn [seq map].
      match goal with
      | |- _ = ?S ++ ?u :: ?M => transitivity ((S ++ [u]) ++ M);
                                  [| now rewrite <- app_assoc]
      end.
      f_equal.
      unfold after_parse.
      destruct (JSON_parse (reply (api_calls w)));
        rewrite ?sent_logged; unfold called; cbn [trace retried entered];
        rewrite sent_of_app; subst w1; rewrite sent_logged;
        unfold record; cbn [trace];
        rewrite sent_of_app, (sent_of_lookups _ Hevents), app_nil_r; reflexivity.
    + rewrite batch_loop_done by lia.
      replace (length tickets - k * BATCH_SIZE) with 0 by lia. rewrite div_ceil_zero.
      cbn [snd seq map]. now rewrite app_nil_r.
Qed.

End Answered.

(** X11.  [summariseTickets] cuts the tickets into consecutive batches of
    at least 1 and at most 15 that together are the tickets, in order.  In
    a run in which every lookup of the tickets is fulfilled and every call
    is answered at once with a non-empty text, it sends one message per
    batch, in order: the texts of the callbacks of the batch joined by
    "\n---\n". *)
Theorem batches_cover_the_tickets
        (settles : nat -> nat -> nat)
        (openai : nat -> string -> Completion) (JSON_parse : string -> option json)
        (reply : nat -> string) (tickets : list Linear.Ticket) (texts : list string)
        (w : World) :
  fulfilled tickets texts ->
  (forall k user, openai k user = Completed (Some (reply k))) ->
  (forall k, reply k <> "") ->
  let n := div_ceil (length tickets) BATCH_SIZE in
  let batch := fun k => slice (k * BATCH_SIZE) (k * BATCH_SIZE + BATCH_SIZE) tickets in
  let message :=
    fun k => join (nl ++ "---" ++ nl)
                  (slice (k * BATCH_SIZE) (k * BATCH_SIZE + BATCH_SIZE) texts) in
  sent_of (trace (snd (summariseTickets settles openai JSON_parse tickets w)))
  = sent_of (trace w) ++ map message (seq 0 n)
  /\ (forall k,
        map settled (batch k)
        = map Resolved (slice (k * BATCH_SIZE) (k * BATCH_SIZE + BATCH_SIZE) texts))
  /\ flat_map batch (seq 0 n) = tickets
  /\ (forall k, length (batch k) <= BATCH_SIZE)
  /\ (forall k, k < n -> 1 <= length (batch k)).
Proof.
  intros Hfulfilled Hanswers Hnonempty. cbv zeta. split; [| split; [| split; [| split]]].
  - unfold summariseTickets, bind, console_log.
    change (record [Printed (Summarising_tickets (length tickets))] w)
      with (logged [Summarising_tickets (length tickets)] w).
    pose proof (batch_loop_sends settles openai JSON_parse reply Hanswers Hnonempty
                  (length tickets) tickets texts 0 []
                  (logged [Summarising_tickets (length tickets)] w) Hfulfilled) as H.
    cbn [Nat.mul] in H. rewrite Nat.sub_0_r, sent_logged in H.
    apply H. lia.
  - intro k. exact (fulfilled_batch tickets texts (k * BATCH_SIZE) Hfulfilled).
  - apply slices_cover. apply div_ceil_covers.
  - intro k. apply slice_length.
  - intros k Hk. unfold slice. rewrite length_firstn, length_skipn.
    pose proof (Nat.Div0.mul_div_le (length tickets + (BATCH_SIZE - 1)) BATCH_SIZE) as Hdiv.
    unfold div_ceil in Hk. unfold BATCH_SIZE in *. nia.
Qed.

(** X11, at sixteen tickets: a batch of fifteen and a batch of one,
    whichever promise settles first. *)
Lemma batches_cover_the_tickets_witness :
  sent_of (trace (snd (summariseTickets last_first (answering "[{}]") parse_sample
                                        sixteen_tickets initial_world)))
  = [ join separator (map sample_text (seq 1 15));
      join separator [sample_text 16] ]
  /\ firstn 15 sixteen_tickets ++ [sample_ticket 16] = sixteen_tickets.
Proof.
  destruct (batches_cover_the_tickets last_first (answering "[{}]") parse_sample
              (fun _ => "[{}]") sixteen_tickets (map sample_text (seq 1 16))
              initial_world)
    as (Hsent & _ & Hcover & _ & _).
  - reflexivity.
  - reflexivity.
  - discriminate.
  - split.
    + rewrite Hsent. reflexivity.
    + exact Hcover.
Defined.

(** ** Errors out of the pipeline *)

Section Failing.

Variable settles : nat -> nat -> nat.
Variable openai : nat -> string -> Completion.
Variable JSON_parse : string -> option json.
Variable error : Thrown.
Hypothesis not_recoverable : recoverable error = false.

(** The loop when the lookups are fulfilled, the first [j] calls are
    answered at once and the next call fails for good. *)
Lemma batch_loop_fails_at :
  forall j reply fuel tickets texts i summarisedTickets w,
    fulfilled tickets texts ->
    length tickets - i <= fuel ->
    j < div_ceil (length tickets - i) BATCH_SIZE ->
    (forall k user, k < j -> openai (api_calls w + k) user = Completed (Some (reply k))) ->
    (forall k, k < j -> reply k <> "") ->
    (forall user, openai (api_calls w + j) user = Failed error) ->
    exists w',
      batch_loop settles openai JSON_parse fuel tickets i summarisedTickets w
      = (Throw error, logged [Error_querying_OpenAI error] w')
      /\ api_calls w' = api_calls w + j + 1
      /\ summarise_entered w' = summarise_entered w + j + 1
      /\ sleeps w' = sleeps w.
Proof.
  induction j as [| j IH];
    intros reply fuel tickets texts i acc w Hfulfilled Hfuel Hj Hanswers Hnonempty Hfails.
  - assert (Hi : i < length tickets).
    { destruct (Nat.lt_ge_cases i (length tickets)) as [H | H]; [exact H |].
      replace (length tickets - i) with 0 in Hj by lia.
      rewrite div_ceil_zero in Hj. lia. }
    destruct fuel as [| fuel]; [lia |].
    destruct (batch_loop_fulfilled settles openai JSON_parse fuel tickets i acc w
                (batch_of texts i) Hi (fulfilled_batch _ _ _ Hfulfilled))
      as (events & Hevents & ->).
    set (w1 := logged _ (record events w)).
    rewrite (summarise_rethrown openai JSON_parse _ w1 [] error);
      [| unfold maxRetries; cbn; lia | constructor | exact I
       | subst w1; cbn [logged record api_calls length]; apply Hfails
       | exact not_recoverable].
    cbv zeta. eexists. split; [reflexivity |].
    cbn [retried]. simplify_world. subst w1.
    rewrite sleeps_logged, (sleeps_record_lookups _ _ Hevents).
    cbn [logged record api_calls summarise_entered]. repeat split; lia.
  - assert (Hi : i < length tickets).
    { destruct (Nat.lt_ge_cases i (length tickets)) as [H | H]; [exact H |].
      replace (length tickets - i) with 0 in Hj by lia.
      rewrite div_ceil_zero in Hj. lia. }
    destruct fuel as [| fuel]; [lia |].
    destruct (batch_loop_fulfilled settles openai JSON_parse fuel tickets i acc w
                (batch_of texts i) Hi (fulfilled_batch _ _ _ Hfulfilled))
      as (events & Hevents & ->).
    set (w1 := logged _ (record events w)).
    rewrite (summarise_completed openai JSON_parse _ w1 [] (Some (reply 0)));
      [| unfold maxRetries; cbn; lia | constructor | exact I
       | subst w1; cbn [logged record api_calls length]; apply Hanswers; lia].
    cbv zeta. cbn [content_or_empty].
    destruct (is_empty (reply 0)) eqn:Hempty;
      [apply is_empty_true in Hempty; destruct (Hnonempty 0); [lia | exact Hempty] |].
    rewrite (div_ceil_step (length tickets - i)) in Hj by lia.
    replace (length tickets - i - BATCH_SIZE) with (length tickets - (i + BATCH_SIZE))
      in Hj by lia.
    match goal with
    | |- context [batch_loop settles openai JSON_parse fuel tickets (i + BATCH_SIZE) ?a ?v] =>
        assert (Hcalls : api_calls v = S (api_calls w))
          by (unfold after_parse; destruct (JSON_parse (reply 0)); reflexivity);
        assert (Hentered : summarise_entered v = S (summarise_entered w))
          by (unfold after_parse; destruct (JSON_parse (reply 0)); reflexivity);
        assert (Hsleeps : sleeps v = sleeps w)
          by (unfold after_parse; destruct (JSON_parse (reply 0));
              cbn [retried]; simplify_world; subst w1;
              rewrite sleeps_logged; apply (sleeps_record_lookups _ _ Hevents));
        destruct (IH (fun k => reply (S k)) fuel tickets texts (i + BATCH_SIZE) a v)
          as (w' & -> & Hcalls' & Hentered' & Hsleeps')
    end.
    + exact Hfulfilled.
    + unfold BATCH_SIZE. lia.
    + lia.
    + intros k user Hk. rewrite Hcalls.
      replace (S (api_calls w) + k) with (api_calls w + S k) by lia.
      apply Hanswers. lia.
    + intros k Hk. apply Hnonempty. lia.
    + intro user. rewrite Hcalls.
      replace (S (api_calls w) + j) with (api_calls w + S j) by lia.
      apply Hfails.
    + exists w'. split; [reflexivity |]. repeat split; lia || congruence.
Qed.

End Failing.

(** The formatter only prints. *)
Lemma only_prints_ret {A} (a : A) : only_prints (ret a).
Proof. intro w. exists []. cbn [ret snd]. unfold logged. now rewrite record_nil. Qed.

Lemma only_prints_throw {A} (error : Thrown) : only_prints (@throw A error).
Proof. intro w. exists []. cbn [throw snd]. unfold logged. now rewrite record_nil. Qed.

Lemma only_prints_log (line : ConsoleLine) : only_prints (console_log line).
Proof. intro w. now exists [line]. Qed.

Lemma only_prints_bind {A B} (m : M A) (k : A -> M B) :
  only_prints m -> (forall a, only_prints (k a)) -> only_prints (bind m k).
Proof.
  intros Hm Hk w. unfold bind.
  destruct (Hm w) as (lines & Hworld).
  destruct (m w) as [[a | error |] w']; cbn [snd] in Hworld; subst w'.
  - destruct (Hk a (logged lines w)) as (lines' & Hworld').
    exists (lines ++ lines'). rewrite Hworld'. unfold logged.
    now rewrite record_record, map_app.
  - now exists lines.
  - now exists lines.
Qed.

Lemma only_prints_foldM {X S} (f : S -> X -> M S) (l : list X) :
  (forall s x, only_prints (f s x)) -> forall s, only_prints (foldM f l s).
Proof.
  intro Hf. induction l as [| x l IH]; intro s; cbn [foldM].
  - apply only_prints_ret.
  - apply only_prints_bind; [apply Hf | exact IH].
Qed.

Section Printing.

Variable T : Type.
Variable read : T -> string -> option string.

Lemma only_prints_property ticket name : only_prints (property T read ticket name).
Proof.
  unfold property. destruct (read ticket name);
    [apply only_prints_ret | apply only_prints_throw].
Qed.

Lemma only_prints_group_ticket group ticket :
  only_prints (group_ticket T read group ticket).
Proof.
  unfold group_ticket. apply only_prints_bind; [apply only_prints_property |].
  intro projectName.
  destruct (get _ projectName); [apply only_prints_ret | apply only_prints_throw ..].
Qed.

Lemma only_prints_append_line resultString ticket :
  only_prints (append_line T read resultString ticket).
Proof.
  unfold append_line.
  repeat (apply only_prints_bind; [apply only_prints_property | intro]).
  apply only_prints_ret.
Qed.

Lemma only_prints_render_project groupedTickets resultString projectName :
  only_prints (render_project T read groupedTickets resultString projectName).
Proof.
  unfold render_project. apply only_prints_bind.
  - destruct (get groupedTickets projectName);
      [ apply only_prints_foldM; intros; apply only_prints_append_line
      | apply only_prints_throw | apply only_prints_ret ].
  - intro. apply only_prints_bind; [apply only_prints_log |].
    intro. apply only_prints_ret.
Qed.

Lemma only_prints_formatReleaseNote tickets :
  only_prints (formatReleaseNote T read tickets).
Proof.
  unfold formatReleaseNote.
  apply only_prints_bind;
    [apply only_prints_foldM; intros; apply only_prints_group_ticket |].
  intro groupedTickets.
  apply only_prints_bind;
    [apply only_prints_foldM; intros; apply only_prints_render_project |].
  intro resultString.
  destruct (get groupedTickets "Enhancement");
    [| apply only_prints_throw | apply only_prints_ret].
  apply only_prints_bind;
    [apply only_prints_foldM; intros; apply only_prints_append_line |].
  intro. apply only_prints_ret.
Qed.

End Printing.

(** The calls that fail and are retried fail with a retried code. *)
Lemma fails_with_recoverable (openai : nat -> string -> Completion) (user : string)
      (errors : list Thrown) :
  forall from n error,
    fails_with openai user from errors ->
    Forall (fun error => recoverable error = true) errors ->
    from <= n < from + length errors ->
    openai n user = Failed error ->
    recoverable error = true.
Proof.
  induction errors as [| e errors IH]; intros from n error Hfails Hrec Hn Hanswer;
    cbn [length] in Hn; [lia |].
  cbn [fails_with] in Hfails. destruct Hfails as [Hfirst Hrest].
  inversion Hrec as [| ? ? He Hrec']; subst.
  destruct (Nat.eq_dec n from) as [-> | Hneq].
  - rewrite Hfirst in Hanswer. now injection Hanswer as <-.
  - apply (IH (S from) n error Hrest Hrec'); [lia | exact Hanswer].
Qed.

Section FailedCall.

Variable settles : nat -> nat -> nat.
Variable openai : nat -> string -> Completion.
Variable JSON_parse : string -> option json.
Variable n : nat.
Variable error : Thrown.
Hypothesis fails : forall user, openai n user = Failed error.
Hypothesis not_recoverable : recoverable error = false.

(** When the service fails call [n] for good and [summarise] makes that
    call, it throws the error and calls no more. *)
Lemma summarise_failed_call tickets w :
  let run := summarise openai JSON_parse tickets w in
  api_calls w <= api_calls (snd run)
  /\ (api_calls w <= n < api_calls (snd run) ->
      fst run = Throw error /\ api_calls (snd run) = S n).
Proof.
  cbv zeta.
  destruct (summarise_cases openai JSON_parse tickets w) as (errors & Hrec & Hfails & Hcases).
  assert (Hretried : api_calls w <= n < api_calls w + length errors -> False).
  { intro Hn.
    pose proof (fails_with_recoverable openai _ errors _ n error Hfails Hrec Hn
                  (fails _)) as Hyes.
    congruence. }
  destruct Hcases as [[Hfull ->] | [[Hlt (content & Hanswer & ->)]
                                  | [Hlt (e & Hanswer & _ & ->)]]].
  - cbn [fst snd]. simplify_world. split; [lia |]. intro Hn. now destruct Hretried.
  - cbv zeta.
    assert (Hlast : n <> api_calls w + length errors)
      by (intros ->; rewrite fails in Hanswer; discriminate).
    destruct (is_empty (content_or_empty content)); cbn [fst snd];
      unfold after_parse; try destruct (JSON_parse (content_or_empty content));
      simplify_world; (split; [lia |]); intro Hn; destruct Hretried; lia.
  - cbn [fst snd]. simplify_world. split; [lia |]. intro Hn.
    destruct (Nat.eq_dec n (api_calls w + length errors)) as [-> | Hneq].
    + rewrite fails in Hanswer. injection Hanswer as <-. split; [reflexivity | lia].
    + destruct Hretried. lia.
Qed.

(** The same for the loop of [summariseTickets], from any state of the
    loop. *)
Lemma batch_loop_failed_call :
  forall fuel tickets i summarisedTickets w,
    let run := batch_loop settles openai JSON_parse fuel tickets i summarisedTickets w in
    api_calls w <= api_calls (snd run)
    /\ (api_calls w <= n < api_calls (snd run) ->
        fst run = Throw error /\ api_calls (snd run) = S n).
Proof.
  induction fuel as [| fuel IH]; intros tickets i acc w; cbv zeta.
  - cbn [batch_loop]. destruct (i <? length tickets)%nat; cbn [fst snd out_of_fuel ret];
      (split; [lia |]); intro; lia.
  - rewrite batch_loop_step.
    destruct (i <? length tickets)%nat; [| cbn [fst snd]; split; [lia |]; intro; lia].
    destruct (awaited_texts_cases settles i (batch_of tickets i) w)
      as (events & Hworld & _ & _).
    destruct (awaited_texts settles i (batch_of tickets i) w)
      as [[ticketBatch | e |] w0]; cbn [snd] in Hworld; subst w0;
      [| cbn [fst snd record api_calls]; split; [lia |]; intro; lia ..].
    set (w1 := logged _ (record events w)).
    pose proof (summarise_failed_call ticketBatch w1) as Hcall. cbv zeta in Hcall.
    assert (Hw1 : api_calls w1 = api_calls w) by reflexivity.
    rewrite Hw1 in Hcall.
    destruct (summarise openai JSON_parse ticketBatch w1) as [[batch | e |] w'];
      cbn [fst snd] in Hcall; [| exact Hcall ..].
    set (w2 := logged _ w').
    specialize (IH tickets (i + BATCH_SIZE) (acc ++ batch) w2). cbv zeta in IH.
    assert (Hw2 : api_calls w2 = api_calls w') by reflexivity.
    rewrite Hw2 in IH.
    destruct Hcall as [Hle Hcall]. destruct IH as [Hle' IH].
    split; [lia |]. intro Hn.
    apply IH. split; [| lia].
    destruct (Nat.lt_ge_cases n (api_calls w')) as [Hlt | Hge]; [| exact Hge].
    destruct Hcall as [Hthrow _]; [lia | discriminate].
Qed.

End FailedCall.

(** What [generateReleaseNote] does with what [summariseTickets] throws. *)
Lemma generateReleaseNote_throws
      (linear_projects : nat -> Reply (list Linear.Project))
      (linear_issues : nat -> IssuesFilter -> Reply (list Linear.Ticket))
      (settles : nat -> nat -> nat)
      (openai : nat -> string -> Completion) (JSON_parse : string -> option json)
      (w w1 w2 : World) (allTickets : list Linear.Ticket) (error : Thrown) :
  fetchAllTickets linear_projects linear_issues w = (Return allTickets, w1) ->
  summariseTickets settles openai JSON_parse allTickets w1 = (Throw error, w2) ->
  generateReleaseNote linear_projects linear_issues settles openai JSON_parse w
  = (Throw error, w2).
Proof.
  intros Hfetch Hrun. unfold generateReleaseNote.
  unfold bind at 1. rewrite Hfetch. unfold bind at 1. now rewrite Hrun.
Qed.

Lemma last_logged (line : ConsoleLine) (w : World) :
  last (trace (logged [line] w)) (Queried 0) = Printed line.
Proof. unfold logged, record. cbn [trace map]. apply last_last. Qed.

(** C3.  When an attempt of [summarise] fails with an error whose code is
    neither the string 'insufficient_quota' nor the string 'rate_limit',
    [summarise] throws that very error at once: after the failed call only
    the error is printed, the service is not called again and nothing is
    slept (with no earlier failure, [errors] empty, there is one call and no
    sleep at all).  The error leaves the loop of [summariseTickets] from
    whichever turn it occurs in, and so leaves [summariseTickets] and
    [generateReleaseNote], which catch nothing: when the lookups of the
    tickets are fulfilled and the first j batches are answered, a failure of
    the next call makes both throw the error after j + 1 calls and no
    sleep, the printed error being the last thing they do. *)
Theorem nonrecoverable_error_propagates
        (linear_projects : nat -> Reply (list Linear.Project))
        (linear_issues : nat -> IssuesFilter -> Reply (list Linear.Ticket))
        (settles : nat -> nat -> nat)
        (openai : nat -> string -> Completion) (JSON_parse : string -> option json)
        (error : Thrown) :
  code_is (error_code error) "insufficient_quota" = false ->
  code_is (error_code error) "rate_limit" = false ->
  (forall tickets w errors,
      length errors < maxRetries ->
      Forall (fun error => recoverable error = true) errors ->
      fails_with openai (join separator tickets) (api_calls w) errors ->
      openai (api_calls w + length errors) (join separator tickets) = Failed error ->
      let run := summarise openai JSON_parse tickets w in
      fst run = Throw error
      /\ trace (snd run)
         = trace w
           ++ retries_events (api_calls w) (join separator tickets) errors 0
           ++ [ Created (api_calls w + length errors) (join separator tickets);
                Printed (Error_querying_OpenAI error) ]
      /\ api_calls (snd run) = api_calls w + length errors + 1
      /\ sleeps (snd run) = sleeps w ++ map backoff_ms (seq 0 (length errors)))
  /\ (forall fuel tickets i summarisedTickets w ticketBatch errors,
        i < length tickets ->
        fulfilled (batch_of tickets i) ticketBatch ->
        length errors < maxRetries ->
        Forall (fun error => recoverable error = true) errors ->
        fails_with openai (join separator ticketBatch) (api_calls w) errors ->
        openai (api_calls w + length errors) (join separator ticketBatch)
        = Failed error ->
        let run := batch_loop settles openai JSON_parse (S fuel) tickets i
                              summarisedTickets w in
        fst run = Throw error
        /\ api_calls (snd run) = api_calls w + length errors + 1
        /\ sleeps (snd run) = sleeps w ++ map backoff_ms (seq 0 (length errors))
        /\ last (trace (snd run)) (Queried 0) = Printed (Error_querying_OpenAI error))
  /\ (forall tickets texts w j reply,
        fulfilled tickets texts ->
        j < div_ceil (length tickets) BATCH_SIZE ->
        (forall k user, k < j ->
                        openai (api_calls w + k) user = Completed (Some (reply k))) ->
        (forall k, k < j -> reply k <> "") ->
        (forall user, openai (api_calls w + j) user = Failed error) ->
        let run := summariseTickets settles openai JSON_parse tickets w in
        fst run = Throw error
        /\ api_calls (snd run) = api_calls w + j + 1
        /\ summarise_entered (snd run) = summarise_entered w + j + 1
        /\ sleeps (snd run) = sleeps w
        /\ last (trace (snd run)) (Queried 0) = Printed (Error_querying_OpenAI error))
  /\ (forall texts w j reply,
        let allTickets := all_fetched linear_projects linear_issues (tracker_calls w) in
        fulfilled allTickets texts ->
        j < div_ceil (length allTickets) BATCH_SIZE ->
        (forall k user, k < j ->
                        openai (api_calls w + k) user = Completed (Some (reply k))) ->
        (forall k, k < j -> reply k <> "") ->
        (forall user, openai (api_calls w + j) user = Failed error) ->
        let run := generateReleaseNote linear_projects linear_issues settles
                                       openai JSON_parse w in
        fst run = Throw error
        /\ api_calls (snd run) = api_calls w + j + 1
        /\ sleeps (snd run) = sleeps w
        /\ last (trace (snd run)) (Queried 0) = Printed (Error_querying_OpenAI error))
  /\ (forall tickets w n,
        (forall user, openai n user = Failed error) ->
        let run := summariseTickets settles openai JSON_parse tickets w in
        api_calls w <= n < api_calls (snd run) ->
        fst run = Throw error /\ api_calls (snd run) = S n)
  /\ (forall w n,
        (forall user, openai n user = Failed error) ->
        let run := generateReleaseNote linear_projects linear_issues settles
                                       openai JSON_parse w in
        api_calls w <= n < api_calls (snd run) ->
        fst run = Throw error /\ api_calls (snd run) = S n).
Proof.
  intros Hquota Hrate.
  assert (Hno : recoverable error = false)
    by (unfold recoverable; now rewrite Hquota, Hrate).
  assert (Hany :
            forall tickets w n,
              (forall user, openai n user = Failed error) ->
              let run := summariseTickets settles openai JSON_parse tickets w in
              api_calls w <= n < api_calls (snd run) ->
              fst run = Throw error /\ api_calls (snd run) = S n).
  { intros tickets w n Hfails. cbv zeta.
    unfold summariseTickets. unfold bind at 1 2 3. unfold console_log at 1 2 3.
    cbv beta iota.
    exact (proj2 (batch_loop_failed_call settles openai JSON_parse n error Hfails Hno
                    (length tickets) tickets 0 []
                    (record [Printed (Summarising_tickets (length tickets))] w))). }
  assert (Hpipeline :
            forall tickets texts w j reply,
              fulfilled tickets texts ->
              j < div_ceil (length tickets) BATCH_SIZE ->
              (forall k user, k < j ->
                              openai (api_calls w + k) user = Completed (Some (reply k))) ->
              (forall k, k < j -> reply k <> "") ->
              (forall user, openai (api_calls w + j) user = Failed error) ->
              exists w',
                summariseTickets settles openai JSON_parse tickets w
                = (Throw error, logged [Error_querying_OpenAI error] w')
                /\ api_calls w' = api_calls w + j + 1
                /\ summarise_entered w' = summarise_entered w + j + 1
                /\ sleeps w' = sleeps w).
  { intros tickets texts w j reply Hfulfilled Hj Hanswers Hnonempty Hfails.
    unfold summariseTickets. unfold bind at 1. unfold console_log at 1. cbv beta iota.
    change (record [Printed (Summarising_tickets (length tickets))] w)
      with (logged [Summarising_tickets (length tickets)] w).
    destruct (batch_loop_fails_at settles openai JSON_parse error Hno j reply
                (length tickets) tickets texts 0 []
                (logged [Summarising_tickets (length tickets)] w) Hfulfilled)
      as (w' & Hrun & Hcalls & Hentered & Hsleeps);
      [lia | now rewrite Nat.sub_0_r | exact Hanswers | exact Hnonempty | exact Hfails |].
    exists w'. rewrite sleeps_logged in Hsleeps. now repeat split. }
  split; [| split; [| split; [| split; [| split]]]]; [| | | | exact Hany |].
  - intros tickets w errors Hlt Hrec Hfails Hanswer. cbv zeta.
    rewrite (summarise_rethrown openai JSON_parse _ _ errors error) by assumption.
    cbv zeta. cbn [fst snd]. split; [reflexivity | split].
    + unfold logged, record, called. cbn [trace map].
      rewrite retried_trace, retried_api_calls. cbn [entered trace api_calls].
      now rewrite <- !app_assoc.
    + simplify_world. split; [lia | reflexivity].
  - intros fuel tickets i acc w ticketBatch errors Hi Hfulfilled Hlt Hrec Hfails Hanswer.
    cbv zeta.
    destruct (batch_loop_fulfilled settles openai JSON_parse fuel tickets i acc w
                ticketBatch Hi Hfulfilled) as (events & Hevents & ->).
    rewrite (summarise_rethrown openai JSON_parse _ _ errors error) by assumption.
    cbv zeta. cbn [fst snd]. rewrite last_logged. simplify_world.
    rewrite (sleeps_record_lookups _ _ Hevents).
    repeat split; lia.
  - intros tickets texts w j reply Hfulfilled Hj Hanswers Hnonempty Hfails. cbv zeta.
    destruct (Hpipeline tickets texts w j reply Hfulfilled Hj Hanswers Hnonempty Hfails)
      as (w' & -> & Hcalls & Hentered & Hsleeps).
    cbn [fst snd]. rewrite last_logged, sleeps_logged.
    cbn [logged record api_calls summarise_entered]. now repeat split.
  - intros texts w j reply allTickets Hfulfilled Hj Hanswers Hnonempty Hfails. cbv zeta.
    destruct (fetchAllTickets_world linear_projects linear_issues w)
      as (events & Hfetch & Hevents).
    fold allTickets in Hfetch.
    set (w1 := fetched_world w _ events) in Hfetch.
    destruct (Hpipeline allTickets texts w1 j reply Hfulfilled Hj Hanswers Hnonempty Hfails)
      as (w' & Hrun & Hcalls & Hentered & Hsleeps).
    rewrite (generateReleaseNote_throws _ _ _ _ _ _ _ _ _ _ Hfetch Hrun).
    cbn [fst snd]. rewrite last_logged, sleeps_logged, Hsleeps.
    cbn [logged record api_calls]. rewrite Hcalls. subst w1.
    unfold sleeps, fetched_world. cbn [api_calls trace].
    rewrite sleeps_of_app, (sleeps_of_fetch_events _ Hevents), app_nil_r.
    now repeat split.
  - intros w n Hfails run.
    destruct (fetchAllTickets_world linear_projects linear_issues w)
      as (events & Hfetch & _).
    set (allTickets := all_fetched linear_projects linear_issues (tracker_calls w)) in *.
    set (w1 := fetched_world w _ events) in Hfetch.
    pose proof (Hany allTickets w1 n Hfails) as Hrun. cbv zeta in Hrun.
    assert (Hgen : run
                   = (summarisedTickets <-
                        summariseTickets settles openai JSON_parse allTickets ;;
                      releaseNote <- formatReleaseNote json read_json summarisedTickets ;;
                      console_log Final_release_note ;;
                      console_log (Release_note_text releaseNote)) w1)
      by (subst run; unfold generateReleaseNote; unfold bind at 1; now rewrite Hfetch).
    clearbody run.
    assert (Hw1 : api_calls w1 = api_calls w) by reflexivity.
    rewrite Hw1 in Hrun.
    destruct (summariseTickets settles openai JSON_parse allTickets w1)
      as [[objects | e |] w2] eqn:Hsum; cbn [fst snd] in Hrun.
    + assert (Hrest : run
                      = (releaseNote <- formatReleaseNote json read_json objects ;;
                         console_log Final_release_note ;;
                         console_log (Release_note_text releaseNote)) w2)
        by (rewrite Hgen; unfold bind at 1; now rewrite Hsum).
      rewrite Hrest. intro Hn. exfalso.
      destruct (only_prints_bind (formatReleaseNote json read_json objects)
                  (fun releaseNote => console_log Final_release_note ;;
                                      console_log (Release_note_text releaseNote))
                  (only_prints_formatReleaseNote json read_json objects)
                  (fun releaseNote =>
                     only_prints_bind _ _ (only_prints_log _)
                                      (fun _ => only_prints_log _)) w2)
        as (lines & Hworld).
      rewrite Hworld in Hn. cbn [logged record api_calls] in Hn.
      destruct Hrun as [Hthrow _]; [exact Hn | discriminate].
    + assert (Hrest : run = (Throw e, w2))
        by (rewrite Hgen; unfold bind at 1; now rewrite Hsum).
      rewrite Hrest. cbn [fst snd]. intro Hn.
      destruct (Hrun Hn) as [Hthrow Hcalls]. injection Hthrow as ->. now split.
    + assert (Hrest : run = (OutOfFuel, w2))
        by (rewrite Hgen; unfold bind at 1; now rewrite Hsum).
      rewrite Hrest. cbn [fst snd]. intro Hn.
      destruct (Hrun Hn) as [Hthrow _]. discriminate.
Qed.

(** C3, at a service that refuses the key: the first call of the first
    batch of sixteen tickets throws, and so do [summariseTickets] and, at
    the sample tracker, [generateReleaseNote], after one call and no
    sleep. *)
Lemma nonrecoverable_error_propagates_witness :
  let call := summarise always_refusing parse_sample ["ticket"] initial_world in
  let batches := summariseTickets in_turn always_refusing parse_sample sixteen_tickets
                                  initial_world in
  let run := generateReleaseNote tracker_projects tracker_issues in_turn
                                 always_refusing parse_sample initial_world in
  (fst call = Throw invalid_key
   /\ trace (snd call) = [Created 0 "ticket"; Printed (Error_querying_OpenAI invalid_key)]
   /\ api_calls (snd call) = 1
   /\ sleeps (snd call) = [])
  /\ (fst batches = Throw invalid_key
      /\ api_calls (snd batches) = 1
      /\ summarise_entered (snd batches) = 1
      /\ sleeps (snd batches) = []
      /\ last (trace (snd batches)) (Queried 0)
         = Printed (Error_querying_OpenAI invalid_key))
  /\ (fst run = Throw invalid_key
      /\ api_calls (snd run) = 1
      /\ sleeps (snd run) = []
      /\ last (trace (snd run)) (Queried 0)
         = Printed (Error_querying_OpenAI invalid_key)).
Proof.
  destruct (nonrecoverable_error_propagates tracker_projects tracker_issues in_turn
              always_refusing parse_sample invalid_key eq_refl eq_refl)
    as (Hcall & _ & Hbatches & Hrun & _ & _).
  split; [| split].
  - exact (Hcall ["ticket"] initial_world [] (Nat.lt_0_succ 4) (Forall_nil _) I eq_refl).
  - apply (Hbatches sixteen_tickets (map sample_text (seq 1 16)) initial_world 0
                    (fun _ => "")).
    + reflexivity.
    + vm_compute. lia.
    + intros k user Hk. lia.
    + intros k Hk. lia.
    + reflexivity.
  - apply (Hrun (map sample_text (seq 1 3)) initial_world 0 (fun _ => "")).
    + reflexivity.
    + vm_compute. lia.
    + intros k user Hk. lia.
    + intros k Hk. lia.
    + reflexivity.
Defined.

(** X13.  When a lookup of a ticket of the batch at hand rejects, the turn
    of the loop throws the rejection of a lookup of that batch after
    lookups only: the completion service is not called for the batch and
    nothing is printed.  So a rejected lookup in the first batch makes
    [summariseTickets] and [generateReleaseNote] throw before any call of
    the completion service. *)
Theorem rejected_lookup_aborts
        (linear_projects : nat -> Reply (list Linear.Project))
        (linear_issues : nat -> IssuesFilter -> Reply (list Linear.Ticket))
        (settles : nat -> nat -> nat)
        (openai : nat -> string -> Completion) (JSON_parse : string -> option json) :
  (forall fuel tickets i summarisedTickets w rejection,
      lookup_rejects (batch_of tickets i) rejection ->
      exists error events,
        batch_loop settles openai JSON_parse (S fuel) tickets i summarisedTickets w
        = (Throw error, record events w)
        /\ forallb lookup_event events = true
        /\ lookup_rejects (batch_of tickets i) error)
  /\ (forall tickets w rejection,
        lookup_rejects (batch_of tickets 0) rejection ->
        exists error events,
          summariseTickets settles openai JSON_parse tickets w
          = (Throw error,
             record (Printed (Summarising_tickets (length tickets)) :: events) w)
          /\ forallb lookup_event events = true
          /\ lookup_rejects (batch_of tickets 0) error)
  /\ (forall w rejection,
        let allTickets := all_fetched linear_projects linear_issues (tracker_calls w) in
        lookup_rejects (batch_of allTickets 0) rejection ->
        let run := generateReleaseNote linear_projects linear_issues settles
                                       openai JSON_parse w in
        exists error,
          fst run = Throw error
          /\ lookup_rejects (batch_of allTickets 0) error
          /\ api_calls (snd run) = api_calls w
          /\ summarise_entered (snd run) = summarise_entered w).
Proof.
  assert (Hturn :
            forall fuel tickets i summarisedTickets w rejection,
              lookup_rejects (batch_of tickets i) rejection ->
              exists error events,
                batch_loop settles openai JSON_parse (S fuel) tickets i summarisedTickets w
                = (Throw error, record events w)
                /\ forallb lookup_event events = true
                /\ lookup_rejects (batch_of tickets i) error).
  { intros fuel tickets i acc w rejection Hrejects.
    assert (Hi : i < length tickets).
    { destruct (Nat.lt_ge_cases i (length tickets)) as [H | H]; [exact H |].
      unfold lookup_rejects, batch_of, slice in Hrejects.
      rewrite skipn_all2 in Hrejects by exact H.
      rewrite firstn_nil in Hrejects. contradiction. }
    destruct (awaited_texts_rejected settles i _ rejection w Hrejects)
      as (error & events & Htexts & Hevents & Herror).
    exists error, events. rewrite batch_loop_step, Htexts.
    destruct (Nat.ltb_spec i (length tickets)); [now repeat split | lia]. }
  assert (Hbatches :
            forall tickets w rejection,
              lookup_rejects (batch_of tickets 0) rejection ->
              exists error events,
                summariseTickets settles openai JSON_parse tickets w
                = (Throw error,
                   record (Printed (Summarising_tickets (length tickets)) :: events) w)
                /\ forallb lookup_event events = true
                /\ lookup_rejects (batch_of tickets 0) error).
  { intros tickets w rejection Hrejects.
    assert (Hlength : length tickets <> 0).
    { intro Hnone. apply length_zero_iff_nil in Hnone. subst tickets.
      exact Hrejects. }
    unfold summariseTickets. unfold bind at 1. unfold console_log at 1. cbv beta iota.
    destruct (Hturn (pred (length tickets)) tickets 0 []
                    (record [Printed (Summarising_tickets (length tickets))] w)
                    rejection Hrejects)
      as (error & events & Hrun & Hevents & Herror).
    replace (S (pred (length tickets))) with (length tickets) in Hrun by lia.
    exists error, events. rewrite Hrun, record_record.
    now repeat split. }
  split; [exact Hturn | split; [exact Hbatches |]].
  intros w rejection allTickets Hrejects. cbv zeta.
  destruct (fetchAllTickets_world linear_projects linear_issues w)
    as (fetching & Hfetch & _).
  fold allTickets in Hfetch.
  set (w1 := fetched_world w _ fetching) in Hfetch.
  destruct (Hbatches allTickets w1 rejection Hrejects)
    as (error & events & Hrun & _ & Herror).
  exists error.
  rewrite (generateReleaseNote_throws _ _ _ _ _ _ _ _ _ _ Hfetch Hrun).
  now repeat split.
Qed.

(** X13, at two tickets the second of which has labels that cannot be
    fetched. *)
Lemma rejected_lookup_aborts_witness :
  let run := summariseTickets in_turn (answering "[{}]") parse_sample
                              [sample_ticket 1; unreachable_ticket 2] initial_world in
  fst run = Throw (ClientError CodeUndefined "socket hang up")
  /\ api_calls (snd run) = 0
  /\ trace (snd run)
     = [ Printed (Summarising_tickets 2);
         Awaited "E-1" The_assignee; Awaited "E-2" The_assignee;
         Awaited "E-1" The_labels; Awaited "E-1" The_project;
         Awaited "E-2" The_labels ].
Proof.
  destruct (rejected_lookup_aborts tracker_projects tracker_issues in_turn
              (answering "[{}]") parse_sample) as (_ & Hbatches & _).
  destruct (Hbatches [sample_ticket 1; unreachable_ticket 2] initial_world
                     (ClientError CodeUndefined "socket hang up"))
    as (error & events & Hrun & _ & _).
  - right. left. reflexivity.
  - cbv zeta. rewrite Hrun. vm_compute in Hrun.
    injection Hrun as Herror Hevents. subst error.
    split; [reflexivity | split; [reflexivity |]].
    cbn [snd record trace initial_world app]. now rewrite <- Hevents.
Defined.

(** ** The whole run *)

(** X12.  When every lookup of the fetched tickets is fulfilled, every call
    of the completion service is answered at once with a non-empty text,
    the elements the texts parse to, batch after batch, can all be read,
    and no project is named like a member of Object.prototype,
    [generateReleaseNote] returns and the last thing it prints is the
    release note of the summarised tickets these elements are read as. *)
Theorem run_prints_the_release_note
        (linear_projects : nat -> Reply (list Linear.Project))
        (linear_issues : nat -> IssuesFilter -> Reply (list Linear.Ticket))
        (settles : nat -> nat -> nat)
        (openai : nat -> string -> Completion) (JSON_parse : string -> option json)
        (reply : nat -> string) (texts : list string) (w : World) :
  let allTickets := all_fetched linear_projects linear_issues (tracker_calls w) in
  let objects :=
    flat_map (fun k => parsed_tickets JSON_parse (reply k))
             (seq (api_calls w) (div_ceil (length allTickets) BATCH_SIZE)) in
  fulfilled allTickets texts ->
  (forall k user, openai k user = Completed (Some (reply k))) ->
  (forall k, reply k <> "") ->
  forallb readable objects = true ->
  no_inherited_name (map summarised objects) = true ->
  let run := generateReleaseNote linear_projects linear_issues settles
                                 openai JSON_parse w in
  fst run = Return tt
  /\ last (trace (snd run)) (Queried 0)
     = Printed (Release_note_text (release_note (map summarised objects))).
Proof.
  intros allTickets objects Hfulfilled Hanswers Hnonempty Hreadable Hnames. cbv zeta.
  destruct (fetchAllTickets_world linear_projects linear_issues w)
    as (events & Hfetch & _).
  fold allTickets in Hfetch.
  set (w1 := fetched_world w _ events) in Hfetch.
  assert (Hsummarised : fst (summariseTickets settles openai JSON_parse allTickets w1)
                        = Return objects).
  { unfold summariseTickets, bind, console_log.
    rewrite (batch_loop_answers settles openai JSON_parse reply Hanswers Hnonempty
               (length allTickets) allTickets texts 0 [] _ Hfulfilled) by lia.
    rewrite Nat.sub_0_r. subst w1.
    cbn [record fetched_world api_calls app]. reflexivity. }
  destruct (summariseTickets settles openai JSON_parse allTickets w1) as [o w2] eqn:Hrun.
  cbn [fst] in Hsummarised. subst o.
  assert (Hnote : generateReleaseNote linear_projects linear_issues settles
                                      openai JSON_parse w
                  = (Return tt,
                     logged [ Final_release_note;
                              Release_note_text (release_note (map summarised objects)) ]
                            (logged (found_lines
                                       (key_order
                                          (first_seen
                                             (map project (map summarised objects))))
                                       (map summarised objects)) w2))).
  { unfold generateReleaseNote. unfold bind at 1. rewrite Hfetch.
    unfold bind at 1. rewrite Hrun.
    unfold bind at 1.
    rewrite (formatReleaseNote_summarised objects w2 Hreadable).
    rewrite formatReleaseNote_spec, Hnames.
    unfold bind, console_log, logged, record.
    cbn [api_calls tracker_calls summarise_entered trace map].
    rewrite <- (app_assoc _ [Printed Final_release_note]). reflexivity. }
  rewrite Hnote. split; [reflexivity |].
  unfold logged, record. cbn [snd trace map].
  change [Printed Final_release_note;
          Printed (Release_note_text (release_note (map summarised objects)))]
    with ([Printed Final_release_note]
            ++ [Printed (Release_note_text (release_note (map summarised objects)))]).
  rewrite app_assoc. apply last_last.
Qed.

(** X12, at the sample tracker, whose three tickets make one batch, and a
    service that answers with the text of the ticket E-1. *)
Lemma run_prints_the_release_note_witness :
  let run := generateReleaseNote tracker_projects tracker_issues last_first
                                 (answering api_ticket_text) parse_api_ticket
                                 initial_world in
  fst run = Return tt
  /\ last (trace (snd run)) (Queried 0)
     = Printed (Release_note_text
                  ("*API*:" ++ nl ++ "[DB] Update DB - [E-1](https://x/E-1)"
                            ++ nl ++ nl)).
Proof.
  apply (run_prints_the_release_note tracker_projects tracker_issues last_first
           (answering api_ticket_text) parse_api_ticket
           (fun _ => api_ticket_text) (map sample_text (seq 1 3)) initial_world).
  - reflexivity.
  - reflexivity.
  - discriminate.
  - reflexivity.
  - reflexivity.
Defined.
